(** * Verification of the build script [gulpfile.ts]

    A shallow embedding of the tasks exported by [gulpfile.ts] and the
    properties its specification states about them.

    - JavaScript strings are sequences of UTF-16 code units: [list N].
    - The file system is a finite map from paths to file contents
      together with a set of directories.
    - An async function is a computation over the world (file system and
      console) that either returns or throws; effects made before a throw
      persist.
    - [gulp.series] / [gulp.parallel] composites are task trees run by an
      event-driven step function. *)

From Stdlib Require Import Ascii String.
From stdpp Require Import base list gmap sorting lexico.
From Equations Require Import Equations.

Set Warnings "-register-all,-clear-no-such-hyp".


(** ** Strings *)

(** A JavaScript string: its UTF-16 code units. *)
Abbreviation str := (list N).

(** A source literal (all literals of the script are ASCII). *)
Definition lit (s : string) : str := N_of_ascii <$> list_ascii_of_string s.
Arguments lit : simpl never.

(** [Array.prototype.join]. *)
Fixpoint join (sep : str) (l : list str) : str :=
  match l with
  | [] => []
  | [x] => x
  | x :: r => x ++ sep ++ join sep r
  end.

(** [s.startsWith(p)], the sticky match of a literal pattern. *)
Fixpoint starts_with (p s : str) : bool :=
  match p, s with
  | [], _ => true
  | _ :: _, [] => false
  | a :: p', b :: s' => bool_decide (a = b) && starts_with p' s'
  end.

(** [p] occurs somewhere in [s]. *)
Definition occurs (p s : str) : Prop := ∃ u v, s = u ++ p ++ v.

(** [s.includes(p)]: decides whether [p] occurs in [s]. *)
Definition includes (p s : str) : bool :=
  existsb (λ i, starts_with p (drop i s)) (seq 0 (S (length s))).

(** The default comparison of [Array.prototype.sort]: strings are ordered
    by their code units, a proper prefix before its extensions. *)
Fixpoint str_leb (x y : str) : bool :=
  match x, y with
  | [], _ => true
  | _ :: _, [] => false
  | a :: x', b :: y' => (a <? b)%N || ((a =? b)%N && str_leb x' y')
  end.

Definition str_le (x y : str) : Prop := str_leb x y = true.

Global Instance str_le_dec x y : Decision (str_le x y).
Proof. unfold str_le. apply _. Defined.

(** [Array.prototype.sort()] without a comparator, on an array of strings. *)
Definition sort (l : list str) : list str := merge_sort str_le l.

Module Schema.

(** ** The reference rewrite of the [schema] task *)

(** The literal matched by
    [/https:\/\/sourcegraph\.com\/v1\/settings\.schema\.json#\/definitions\//g]
    (every metacharacter is escaped, so the regular expression is a literal). *)
Definition ABSOLUTE_REF : str :=
  lit "https://sourcegraph.com/v1/settings.schema.json#/definitions/".

(** The same reference without its fragment. *)
Definition SETTINGS_SCHEMA_URL : str :=
  lit "https://sourcegraph.com/v1/settings.schema.json".

(** The replacement string (it holds no [$], so it is inserted verbatim). *)
Definition RELATIVE_REF : str := lit "#/definitions/".

(** [s.replace(/p/g, r)] for a non-empty literal [p]: scanning from the
    left, a match at the current index is replaced and the scan resumes
    after it; otherwise the code unit is copied and the scan moves on. *)
Equations? replace_all (p r s : str) : str by wf (length s) lt :=
  replace_all p r [] := [];
  replace_all p r (c :: s') with starts_with p (c :: s') => {
    | true := r ++ replace_all p r (drop (length p - 1) s');
    | false := c :: replace_all p r s' }.
Proof. all: simpl; try rewrite length_drop; lia. Qed.

(** [schema.replace(/https:...#\/definitions\//g, '#/definitions/')]. *)
Definition rewrite_refs (schema : str) : str :=
  replace_all ABSOLUTE_REF RELATIVE_REF schema.

End Schema.

(** [q] has no border: no proper non-empty suffix of [q] is a prefix of
    [q], so two occurrences of [q] never overlap. *)
Definition unbordered (q : str) : bool :=
  forallb (λ k, negb (bool_decide (drop k q = take (length q - k) q)))
          (seq 1 (length q - 1)).

Module Regex.

(** ** Regular expressions

    The fragment of JavaScript regular expressions the script uses, without
    flags: literal code units, [.], concatenation and the greedy star
    ([Alt] and [Empty] only arise in derivatives). *)

Inductive re :=
| Empty
| Eps
| Chr (c : N)
| Dot
| Cat (a b : re)
| Alt (a b : re)
| Star (a : re).

(** The line terminators, which [.] does not match: LF, CR, LS, PS. *)
Definition line_terminator (c : N) : bool :=
  bool_decide (c ∈ [10; 13; 8232; 8233]%N).

(** The regular expression of a literal. *)
Fixpoint Lit (s : str) : re :=
  match s with
  | [] => Eps
  | c :: s' => Cat (Chr c) (Lit s')
  end.

(** The strings a regular expression matches. *)
Inductive matches : re → str → Prop :=
| m_eps : matches Eps []
| m_chr c : matches (Chr c) [c]
| m_dot c : line_terminator c = false → matches Dot [c]
| m_cat a b u v : matches a u → matches b v → matches (Cat a b) (u ++ v)
| m_alt_l a b u : matches a u → matches (Alt a b) u
| m_alt_r a b u : matches b u → matches (Alt a b) u
| m_star_nil a : matches (Star a) []
| m_star_cons a u v : matches a u → matches (Star a) v → matches (Star a) (u ++ v).

Fixpoint nullable (r : re) : bool :=
  match r with
  | Empty | Chr _ | Dot => false
  | Eps | Star _ => true
  | Cat a b => nullable a && nullable b
  | Alt a b => nullable a || nullable b
  end.

(** What is left of [r] to match after the code unit [c]. *)
Fixpoint deriv (c : N) (r : re) : re :=
  match r with
  | Empty | Eps => Empty
  | Chr d => if bool_decide (c = d) then Eps else Empty
  | Dot => if line_terminator c then Empty else Eps
  | Cat a b => Alt (Cat (deriv c a) b) (if nullable a then deriv c b else Empty)
  | Alt a b => Alt (deriv c a) (deriv c b)
  | Star a => Cat (deriv c a) (Star a)
  end.

(** Some prefix of [s] matches [r]: a match attempt at the current index. *)
Fixpoint match_here (r : re) (s : str) : bool :=
  nullable r ||
  match s with
  | [] => false
  | c :: s' => match_here (deriv c r) s'
  end.

(** [r.test(s)] for a regular expression without flags: a match exists at
    some index. *)
Fixpoint test (r : re) (s : str) : bool :=
  match_here r s ||
  match s with
  | [] => false
  | _ :: s' => test r s'
  end.

End Regex.

(** ** The world of a task: file system and console *)

Record world := World {
  files : gmap str str;      (* regular files and their contents *)
  dirs : gset str;           (* directories *)
  console : list str;        (* lines logged so far *)
}.

(** What a task throws or rejects with. *)
Inductive exn :=
| Error (message : str) (showStack : bool)
| PluginError (plugin message : str)
| TypeError (message : str)
| SystemError (code path : str)
| Foreign (what : str).      (* raised inside a collaborator *)

Inductive outcome (A : Type) :=
| Resolved (a : A)
| Rejected (e : exn).
Arguments Resolved {A} a.
Arguments Rejected {A} e.

Definition rejected {A} (o : outcome A) : bool :=
  match o with Rejected _ => true | Resolved _ => false end.

(** An async function: it runs on the world and resolves or rejects; what
    it did to the world before rejecting stays done. *)
Definition async (A : Type) : Type := world → outcome A * world.

Global Instance async_ret : MRet async := λ A a w, (Resolved a, w).
Global Instance async_bind : MBind async := λ A B k m w,
  match m w with
  | (Resolved a, w') => k a w'
  | (Rejected e, w') => (Rejected e, w')
  end.

Definition throw {A} (e : exn) : async A := λ w, (Rejected e, w).

(** A synchronous call that may throw. *)
Definition lift {A} (o : outcome A) : async A := λ w, (o, w).

(** [try { body } catch (err) { handler }]. *)
Definition try_catch {A} (body : async A) (handler : exn → async A) : async A :=
  λ w, match body w with
       | (Resolved a, w') => (Resolved a, w')
       | (Rejected e, w') => handler e w'
       end.

(** The members of a [Promise.all] run to their end: every member is
    started and none is cancelled when another rejects, so the effects of
    all of them take place.  The outcomes are listed in array order, and the
    effects are applied here in array order (the members the script combines
    touch different paths, so the world they leave does not depend on how
    they interleave). *)
Fixpoint settle_all {A} (ps : list (async A)) (w : world) : list (outcome A) * world :=
  match ps with
  | [] => ([], w)
  | p :: ps' =>
      let '(o, w1) := p w in
      let '(os, w2) := settle_all ps' w1 in
      (o :: os, w2)
  end.

Definition rejections {A} (os : list (outcome A)) : list exn :=
  omap (λ o, match o with Rejected e => Some e | Resolved _ => None end) os.

Definition resolutions {A} (os : list (outcome A)) : list A :=
  omap (λ o, match o with Resolved a => Some a | Rejected _ => None end) os.

(** [Promise.all]: resolves with the values of the members when all of them
    resolve, and otherwise rejects with the rejection that comes first in
    time.  Time is not modelled: [first] picks that rejection among the
    rejections of the members (given as the first in array order and the
    others), and may depend on the world the members were started in. *)
Definition promise_all {A} (first : world → exn → list exn → exn)
    (ps : list (async A)) : async (list A) := λ w,
  let '(os, w') := settle_all ps w in
  (match rejections os with
   | [] => Resolved (resolutions os)
   | e :: es => Rejected (first w e es)
   end, w').

Module Fs.

(** *** [mz/fs] and [mkdirp-promise]

    The part of Node's file system the script relies on. *)

Definition SLASH : N := 47.

(** The directory part of a path: what precedes its last slash. *)
Fixpoint parent_dir (p : str) : str :=
  match p with
  | [] => []
  | c :: p' => if bool_decide (SLASH ∈ p') then c :: parent_dir p' else []
  end.

(** A directory and the directories above it. *)
Fixpoint ancestors (fuel : nat) (d : str) : list str :=
  match fuel, d with
  | S n, _ :: _ => d :: ancestors n (parent_dir d)
  | _, _ => []
  end.

(** [path.isAbsolute(p)] (POSIX). *)
Definition is_absolute (p : str) : bool := starts_with [SLASH] p.

Definition exists_path (w : world) (p : str) : bool :=
  bool_decide (p ∈ dom (files w)) || bool_decide (p ∈ dirs w).

Definition ENOENT (p : str) : exn := SystemError (lit "ENOENT") p.
Definition ENOTDIR (p : str) : exn := SystemError (lit "ENOTDIR") p.
Definition EEXIST (p : str) : exn := SystemError (lit "EEXIST") p.
Definition EISDIR (p : str) : exn := SystemError (lit "EISDIR") p.

(** A regular file sits at [d] or at a directory above it. *)
Definition file_on_path (w : world) (d : str) : bool :=
  existsb (λ a, bool_decide (a ∈ dom (files w))) (ancestors (length d) d).

(** [readFile(p, 'utf8')]. *)
Definition readFile (p : str) : async str := λ w,
  match files w !! p with
  | Some content => (Resolved content, w)
  | None => (Rejected (ENOENT p), w)
  end.

(** [writeFile(p, content)]: [p] must not be a directory, and the
    directory it lies in must be there. *)
Definition writeFile (p content : str) : async unit := λ w,
  if bool_decide (p ∈ dirs w) then (Rejected (EISDIR p), w)
  else if bool_decide (parent_dir p ∈ dirs w)
  then (Resolved (), World (<[p := content]> (files w)) (dirs w) (console w))
  else (Rejected (if file_on_path w (parent_dir p) then ENOTDIR p else ENOENT p), w).

(** [stat(p)], of which the script only uses whether it resolves. *)
Definition stat (p : str) : async unit := λ w,
  if exists_path w p then (Resolved (), w) else (Rejected (ENOENT p), w).

(** [mkdirp(d)]: creates [d] and the missing directories above it; a
    directory that is already there is not an error, but a regular file at
    [d] or above it is, and then nothing is created. *)
Definition mkdirp (d : str) : async unit := λ w,
  if file_on_path w d
  then (Rejected (if bool_decide (d ∈ dom (files w)) then EEXIST d else ENOTDIR d), w)
  else (Resolved (),
        World (files w) (list_to_set (ancestors (length d) d) ∪ dirs w) (console w)).

End Fs.

(** [log(line)] of [fancy-log]. *)
Definition log (line : str) : async unit := λ w,
  (Resolved (), World (files w) (dirs w) (console w ++ [line])).

Module Webpack.

(** ** The part of webpack's [Stats] the script relies on

    [Stats] belongs to webpack, not to the script; its behaviour is taken
    from section 4.4 of the specification. *)

(** What a bundler run has collected. *)
Record Stats := {
  compilation_errors : list str;
  compilation_warnings : list str;
  compilation_time : N;
}.

(** [Stats.ToStringOptions], the fields the script sets. *)
Record ToStringOptions := {
  all : bool;
  timings : bool;
  errors : bool;
  warnings : bool;
  warningsFilter : str → bool;
  colors : bool;
}.

(** The diagnostics selected for printing ([Stats.toJson]). *)
Record StatsJson := {
  json_errors : list str;
  json_warnings : list str;
  json_time : option N;
}.

(** Modelled from the spec: [stats.hasErrors()] of webpack; the diagnostics
    report an error when they hold an error-level entry (child compilations
    are not modelled). *)
Definition hasErrors (stats : Stats) : bool :=
  bool_decide (0 < length (compilation_errors stats)).

(** Modelled from the spec: [Stats.filterWarnings] of webpack; a warning
    that the filter of the options accepts is left out of what is printed. *)
Definition filterWarnings (ws : list str) (excluded : str → bool) : list str :=
  filter (λ w, excluded w = false) ws.

(** Modelled from the spec: [stats.toJson(options)] of webpack, which
    selects the diagnostics to print. *)
Definition toJson (options : ToStringOptions) (stats : Stats) : StatsJson :=
  {| json_errors := if errors options then compilation_errors stats else [];
     json_warnings :=
       if warnings options
       then filterWarnings (compilation_warnings stats) (warningsFilter options)
       else [];
     json_time := if timings options then Some (compilation_time stats) else None |}.

End Webpack.

(** ** The collaborators of the script

    The libraries and ambient values the script calls into; the tasks are
    verified for every implementation of them. *)
Class Collaborators := {
  __dirname : str;
  (* path *)
  path_resolve : str → str → str;
  path_join : str → str → str;
  (* webpack: [createWebpackCompiler(webpackConfig).run], [Stats.jsonToString] *)
  compiler_run : async Webpack.Stats;
  jsonToString : Webpack.StatsJson → bool → str;
  (* graphql, @gql2ts, prettier *)
  GraphQLSchema : Type;
  IntrospectionResult : Type;
  PrettierOptions : Type;
  buildSchema : str → outcome GraphQLSchema;
  graphql_introspection : GraphQLSchema → outcome IntrospectionResult;
  resolveConfig : str → str → world → outcome (option PrettierOptions);
  generateNamespace : IntrospectionResult → option PrettierOptions → outcome str;
  (* JSON, json-schema-to-typescript *)
  JSONValue : Type;
  JSON_parse : str → outcome JSONValue;
  compileJSONSchema : JSONValue → str → str → outcome str;
  (* globby, ts-unused-exports *)
  globby : str → world → outcome (list str);
  tsUnusedExports : str → list str → outcome (gmap str (list str));
  (* the event loop: which of the rejections of the members of a
     [Promise.all] comes first in time; it is one of them *)
  first_rejection : world → exn → list exn → exn;
  first_rejection_elem : ∀ w e es, first_rejection w e es ∈ e :: es;
}.

Module Tasks.
Section tasks.
Context `{Collaborators}.

(** ** The bundle task *)

Definition NEWLINE : str := [10%N].

(** [/node_modules\/monaco-editor\/.*\/editorSimpleWorker.js.*\n.*dependency is an expression/] *)
Definition WORKER_WARNING : Regex.re :=
  Regex.Cat (Regex.Lit (lit "node_modules/monaco-editor/"))
 (Regex.Cat (Regex.Star Regex.Dot)
 (Regex.Cat (Regex.Lit (lit "/editorSimpleWorker"))
 (Regex.Cat Regex.Dot
 (Regex.Cat (Regex.Lit (lit "js"))
 (Regex.Cat (Regex.Star Regex.Dot)
 (Regex.Cat (Regex.Chr 10)
 (Regex.Cat (Regex.Star Regex.Dot)
            (Regex.Lit (lit "dependency is an expression"))))))))).

Definition WEBPACK_STATS_OPTIONS : Webpack.ToStringOptions :=
  {| Webpack.all := false;
     Webpack.timings := true;
     Webpack.errors := true;
     Webpack.warnings := true;
     Webpack.warningsFilter := λ warning, Regex.test WORKER_WARNING warning;
     Webpack.colors := true |}.

(** [stats.toString(options)]. *)
Definition stats_toString (options : Webpack.ToStringOptions) (stats : Webpack.Stats) : str :=
  jsonToString (Webpack.toJson options stats) (Webpack.colors options).

Definition logWebpackStats (stats : Webpack.Stats) : async unit :=
  log (stats_toString WEBPACK_STATS_OPTIONS stats).

Definition webpack : async unit :=
  stats ← compiler_run;
  _ ← logWebpackStats stats;
  if Webpack.hasErrors stats
  then throw (Error (lit "Failed to compile") false)
  else mret ().

(** ** The GraphQL codegen task *)

Definition GRAPHQL_SCHEMA_PATH : str :=
  __dirname ++ lit "/cmd/frontend/graphqlbackend/schema.graphql".

Definition graphQLTypes : async unit :=
  schemaStr ← Fs.readFile GRAPHQL_SCHEMA_PATH;
  schema ← lift (buildSchema schemaStr);
  result ← lift (graphql_introspection schema);
  formatOptions ← (λ w, (resolveConfig __dirname (__dirname ++ lit "/prettier.config.js") w, w));
  generated ← lift (generateNamespace result formatOptions);
  let typings := lit "export type ID = string" ++ NEWLINE ++ NEWLINE ++ generated in
  Fs.writeFile (__dirname ++ lit "/src/backend/graphqlschema.ts") typings.

(** ** The JSON-schema codegen task *)

Definition SCHEMA_FILES : list str :=
  [lit "json-schema"; lit "settings"; lit "site"; lit "extension"].

(** The body run for one schema file. *)
Definition schema_file (file : str) : async unit :=
  schema ← Fs.readFile (__dirname ++ lit "/schema/" ++ file ++ lit ".schema.json");
  let schema := Schema.rewrite_refs schema in
  parsed ← lift (JSON_parse schema);
  types ← lift (compileJSONSchema parsed (lit "settings.schema") (__dirname ++ lit "/schema"));
  _ ← promise_all first_rejection [
        Fs.writeFile (__dirname ++ lit "/src/schema/" ++ file ++ lit ".schema.d.ts") types;
        Fs.writeFile (__dirname ++ lit "/src/schema/" ++ file ++ lit ".schema.json") schema ];
  mret ().

Definition schema : async unit :=
  _ ← promise_all first_rejection
        [Fs.mkdirp (__dirname ++ lit "/src/schema");
         Fs.mkdirp (__dirname ++ lit "/dist/schema")];
  _ ← promise_all first_rejection (schema_file <$> SCHEMA_FILES);
  mret ().

(** The schema source [file] can be read in [w], and its rewritten text
    parses and compiles to [types]. *)
Definition schema_source (w : world) (file content types : str) : Prop :=
  files w !! (__dirname ++ lit "/schema/" ++ file ++ lit ".schema.json") = Some content ∧
  ∃ parsed,
    JSON_parse (Schema.rewrite_refs content) = Resolved parsed ∧
    compileJSONSchema parsed (lit "settings.schema") (__dirname ++ lit "/schema")
      = Resolved types.

(** ** The unused-exports check *)

(** [Object.keys(analysis)]: each key once (the script sorts them next). *)
Definition object_keys (analysis : gmap str (list str)) : list str :=
  (map_to_list analysis).*1.

(** The body mapped over the reported files: the first of [file.ts],
    [file.tsx] that [stat] finds, as an absolute path, else [file]. *)
Fixpoint with_extension (file : str) (exts : list str) : async str :=
  match exts with
  | [] => mret file
  | ext :: exts' =>
      try_catch
        (let fullPath := path_resolve __dirname (file ++ lit "." ++ ext) in
         _ ← Fs.stat fullPath;
         mret fullPath)
        (λ _, with_extension file exts')
  end.

(** The line of the report for the [i]-th file. *)
Definition report_line (analysis : gmap str (list str))
    (filesWithUnusedExports : list str) (i : nat) (f : str) : outcome str :=
  match filesWithUnusedExports !! i ≫= (analysis !!.) with
  | Some names => Resolved (f ++ lit ": " ++ join (lit " ") names)
  | None => Rejected (TypeError (lit "Cannot read property 'join' of undefined"))
  end.

(** [Array.prototype.map] with a callback that may throw. *)
Fixpoint map_outcome {A B} (f : nat → A → outcome B) (i : nat) (l : list A) : outcome (list B) :=
  match l with
  | [] => Resolved []
  | a :: l' =>
      match f i a with
      | Rejected e => Rejected e
      | Resolved b =>
          match map_outcome f (S i) l' with
          | Rejected e => Rejected e
          | Resolved bs => Resolved (b :: bs)
          end
      end
  end.

Definition REPORT_HEADER : str := lit "Unused exports found (must unexport or remove):".
Definition REPORT_SEPARATOR : str := [10; 9]%N.

Definition unusedExports : async unit :=
  let tsconfig := path_join __dirname (lit "tsconfig.json") in
  sources ← (λ w, (globby (lit "src/**/*.{ts?(x),js?(x),json}") w, w));
  analysis ← lift (tsUnusedExports tsconfig sources);
  let filesWithUnusedExports := sort (object_keys analysis) in
  if bool_decide (0 < length filesWithUnusedExports) then
    filesWithExtensions ←
      promise_all first_rejection
                  ((λ file, with_extension file [lit "ts"; lit "tsx"])
                     <$> filesWithUnusedExports);
    lines ← lift (map_outcome (report_line analysis filesWithUnusedExports) 0
                              filesWithExtensions);
    throw (PluginError (lit "ts-unused-exports")
                       (join REPORT_SEPARATOR (REPORT_HEADER :: lines)))
  else mret ().

End tasks.
End Tasks.

Module Gulp.

(** ** Task composition: [gulp.series], [gulp.parallel], [gulp.watch] *)

(** The functions the composites are built from. *)
Inductive name :=
| webpack | webpackServe | watchGraphQLTypes | graphQLTypes
| schema | watchSchema | phabricator
| watchPhabricator_fn.   (* the function expression inside [watchPhabricator] *)

Global Instance name_eq_dec : EqDecision name.
Proof. solve_decision. Defined.

(** Events of the watcher that [gulp.watch] returns, and what a listener
    registered by the script does with the task's promise. *)
Inductive watch_event := Change | WatchError.
Inductive callback := CallResolve | CallReject.

Global Instance watch_event_eq_dec : EqDecision watch_event.
Proof. solve_decision. Defined.
Global Instance callback_eq_dec : EqDecision callback.
Proof. solve_decision. Defined.

(** The two kinds of task function in the script. *)
Inductive body :=
| Work
    (* an async function or stream that does its work and ends *)
| Watching (target : name) (listeners : list (watch_event * callback)).
    (* [await new Promise((resolve, reject) => gulp.watch(glob, target).on(ev, cb)...)] *)

Inductive task :=
| Leaf (n : name) (b : body)
| Series (ts : list task)
| Parallel (ts : list task).

(** The three watch functions register [reject] for ['error'] and nothing else. *)
Definition watching (target : name) : body := Watching target [(WatchError, CallReject)].

Definition watchPhabricator : task :=
  Series [Leaf phabricator Work; Leaf watchPhabricator_fn (watching phabricator)].

Definition build : task :=
  Parallel [Series [Parallel [Leaf schema Work; Leaf graphQLTypes Work];
                    Parallel [Leaf webpack Work; Leaf phabricator Work]]].

Definition watch : task :=
  Series [Parallel [Leaf schema Work; Leaf graphQLTypes Work];
          Parallel [Leaf watchSchema (watching schema);
                    Leaf watchGraphQLTypes (watching graphQLTypes);
                    Leaf webpackServe Work;
                    watchPhabricator]].

(** *** Running a composite

    [gulp.series], [gulp.parallel] and [gulp.watch] belong to gulp, not to
    the script; their behaviour is taken from sections 4.1 and 4.2 of the
    specification. *)

Inductive status := Idle | Running | Succeeded | Failed.

Global Instance status_eq_dec : EqDecision status.
Proof. solve_decision. Defined.

(** A composite in the course of a run. *)
Inductive rt :=
| RLeaf (n : name) (b : body) (st : status)
| RSeries (l : list rt)
| RParallel (l : list rt).

Fixpoint init (t : task) : rt :=
  match t with
  | Leaf n b => RLeaf n b Idle
  | Series ts => RSeries (init <$> ts)
  | Parallel ts => RParallel (init <$> ts)
  end.

(** Modelled from the spec: the outcome of [gulp.series]; a sequential group
    is where its first unfinished member is, and fails as soon as a member
    fails. *)
Fixpoint series_outcome (members : list status) : status :=
  match members with
  | [] => Succeeded
  | Succeeded :: rest =>
      match rest with
      | [] => Succeeded
      | _ :: _ => match series_outcome rest with Idle => Running | o => o end
      end
  | st :: _ => st
  end.

(** Modelled from the spec: the outcome of [gulp.parallel]; a parallel group
    fails as soon as a member fails and completes when all members have. *)
Definition parallel_outcome (members : list status) : status :=
  if bool_decide (Failed ∈ members) then Failed
  else if forallb (λ st, bool_decide (st = Succeeded)) members then Succeeded
  else if forallb (λ st, bool_decide (st = Idle)) members then Idle
  else Running.

Fixpoint outcome (t : rt) : status :=
  match t with
  | RLeaf _ _ st => st
  | RSeries l => series_outcome (outcome <$> l)
  | RParallel l => parallel_outcome (outcome <$> l)
  end.

(** The leaves of a composite, left to right. *)
Fixpoint leaves (t : rt) : list (name * body * status) :=
  match t with
  | RLeaf n b st => [(n, b, st)]
  | RSeries l | RParallel l => mjoin (leaves <$> l)
  end.

(** The status of the task function [n] in the composite. *)
Definition status_of (n : name) (t : rt) : option status :=
  (λ found, found.2.2) <$> list_find (λ x, x.1.1 = n) (leaves t).

(** What happens during a run. *)
Inductive event :=
| Start (n : name)                      (* the runner calls the function *)
| Finish (n : name)                     (* its promise or stream completes *)
| Fail (n : name)                       (* it throws or rejects *)
| Emit (n : name) (ev : watch_event).   (* the watcher it created emits [ev] *)

(** A listener settles the promise unless it is already settled. *)
Definition settle (st : status) (cb : callback) : status :=
  match st, cb with
  | Running, CallResolve => Succeeded
  | Running, CallReject => Failed
  | _, _ => st
  end.

(** Modelled from the spec: how gulp's runner and the watcher of
    [gulp.watch] drive a task function; a function is started once and then
    completes or fails; a watcher, once created, emits events to the
    listeners registered on it. *)
Definition leaf_step (b : body) (st : status) (e : event) : option status :=
  match e, b, st with
  | Start _, _, Idle => Some Running
  | Finish _, Work, Running => Some Succeeded
  | Fail _, Work, Running => Some Failed
  | Emit _ ev, Watching _ listeners, (Running | Succeeded | Failed) =>
      Some (foldl settle st (filter (λ l, l.1 = ev) listeners).*2)
  | _, _, _ => None
  end.

Definition event_name (e : event) : name :=
  match e with Start n | Finish n | Fail n | Emit n _ => n end.

Definition is_start (e : event) : bool :=
  match e with Start _ => true | _ => false end.

(** First member of a parallel group on which [f] applies. *)
Definition first_of {A} (f : A → option A) : list A → option (list A) :=
  fix go l :=
    match l with
    | [] => None
    | x :: r =>
        match f x with
        | Some x' => Some (x' :: r)
        | None => cons x <$> go r
        end
    end.

(** The member of a sequential group that is current: the first one that
    has not completed. *)
Definition current_of {A} (completed : A → bool) (f : A → option A)
    : list A → option (list A) :=
  fix go l :=
    match l with
    | [] => None
    | x :: r => if completed x then cons x <$> go r else (λ x', x' :: r) <$> f x
    end.

(** Modelled from the spec: the scheduling of [gulp.series] and
    [gulp.parallel].  The composite after event [e], if [e] can happen: a
    function is started only where the groups allow it (every member of a
    parallel group; in a sequential group the current member, each member
    having to complete before the next starts, and none starting after a
    failure); the other events reach the function wherever it is. *)
Fixpoint step (e : event) (t : rt) : option rt :=
  match t with
  | RLeaf n b st =>
      if bool_decide (event_name e = n) then RLeaf n b <$> leaf_step b st e else None
  | RParallel l => RParallel <$> first_of (step e) l
  | RSeries l =>
      RSeries <$>
        (if is_start e
         then current_of (λ x, bool_decide (outcome x = Succeeded)) (step e) l
         else first_of (step e) l)
  end.

(** Modelled from the spec: [gulp.watch(glob, target)] invokes [target] on
    every change.  The target invoked when [e] is a change. *)
Definition triggered (e : event) (t : rt) : list name :=
  match e with
  | Emit n Change =>
      match list_find (λ x, x.1.1 = n) (leaves t) with
      | Some (_, (_, Watching target _, _)) => [target]
      | _ => []
      end
  | _ => []
  end.

(** A run: the composite and the targets invoked by watchers so far. *)
Record run := Run { tree : rt; invoked : list name }.

Definition start_run (t : task) : run := Run (init t) [].

Definition run_step (r : run) (e : event) : option run :=
  t' ← step e (tree r);
  Some (Run t' (invoked r ++ triggered e (tree r))).

(** The run after a sequence of events, if they can happen in that order. *)
Fixpoint exec (r : run) (tr : list event) : option run :=
  match tr with
  | [] => Some r
  | e :: tr' => run_step r e ≫= λ r', exec r' tr'
  end.

(** No function of the composite has been called. *)
Definition untouched (t : rt) : bool :=
  forallb (λ x, bool_decide (x.2 = Idle)) (leaves t).

End Gulp.

Module GulpInv.
Import Gulp.

(** *** Invariants of a run *)

(** The composite a run started from. *)
Fixpoint shape (t : rt) : task :=
  match t with
  | RLeaf n b _ => Leaf n b
  | RSeries l => Series (shape <$> l)
  | RParallel l => Parallel (shape <$> l)
  end.

(** In a sequential group, [y] listed after [x] is only touched once [x]
    has completed. *)
Definition before (x y : rt) : Prop :=
  outcome x = Succeeded ∨ untouched y = true.

Inductive ordered : rt → Prop :=
| ordered_leaf n b st : ordered (RLeaf n b st)
| ordered_series l :
    Forall ordered l → StronglySorted before l → ordered (RSeries l)
| ordered_parallel l : Forall ordered l → ordered (RParallel l).


(** The composites of the script in the course of a run, by the status of
    each of their functions. *)
Definition build_run (s g w p : status) : rt :=
  RParallel [RSeries [RParallel [RLeaf schema Work s; RLeaf graphQLTypes Work g];
                      RParallel [RLeaf webpack Work w; RLeaf phabricator Work p]]].

Definition watchPhabricator_run (p wp : status) : rt :=
  RSeries [RLeaf phabricator Work p;
           RLeaf watchPhabricator_fn (watching phabricator) wp].

Definition watch_run (s g ws wg serve p wp : status) : rt :=
  RSeries [RParallel [RLeaf schema Work s; RLeaf graphQLTypes Work g];
           RParallel [RLeaf watchSchema (watching schema) ws;
                      RLeaf watchGraphQLTypes (watching graphQLTypes) wg;
                      RLeaf webpackServe Work serve;
                      watchPhabricator_run p wp]].

End GulpInv.

Module Sample.

(** ** A sample repository

    Collaborators and worlds on which the statements below are exercised. *)

Definition monaco_warning : str :=
  lit "./node_modules/monaco-editor/esm/vs/editor/common/services/editorSimpleWorker.js"
  ++ [10%N] ++ lit "Critical dependency: the request of a dependency is an expression".

Definition other_warning : str := lit "./src/app.ts" ++ [10%N] ++ lit "export 'x' was not found".

Definition stats : Webpack.Stats :=
  {| Webpack.compilation_errors := [];
     Webpack.compilation_warnings := [monaco_warning; other_warning];
     Webpack.compilation_time := 1200 |}.

Definition analysis : gmap str (list str) :=
  <[lit "src/foo" := [lit "bar"]]>
    (<[lit "src/baz" := [lit "qux"; lit "quux"]]> ∅).

(** The text [s] with every ['] standing for a double quote. *)
Definition dq (s : string) : str :=
  (λ c, if (c =? 39)%N then 34%N else c) <$> lit s.

(** *** A recogniser of JSON text, standing in for [JSON.parse] *)

Definition json_ws (c : N) : bool := bool_decide (c ∈ [32; 9; 10; 13]%N).

Fixpoint json_skip (s : str) : str :=
  match s with
  | c :: s' => if json_ws c then json_skip s' else s
  | [] => []
  end.

Definition json_digit (c : N) : bool := ((48 <=? c) && (c <=? 57))%N.

Definition json_hex (c : N) : bool :=
  json_digit c || ((65 <=? c) && (c <=? 70))%N || ((97 <=? c) && (c <=? 102))%N.

(** The rest of a string after its opening quote; what follows the
    closing quote is returned. *)
Fixpoint json_string (s : str) : option str :=
  match s with
  | [] => None
  | c :: s' =>
      if (c =? 34)%N then Some s'
      else if (c =? 92)%N then
        match s' with
        | [] => None
        | e :: s'' =>
            if bool_decide (e ∈ [34; 92; 47; 98; 102; 110; 114; 116]%N) then json_string s''
            else if (e =? 117)%N then
              match s'' with
              | h1 :: h2 :: h3 :: h4 :: s3 =>
                  if json_hex h1 && json_hex h2 && json_hex h3 && json_hex h4
                  then json_string s3 else None
              | _ => None
              end
            else None
        end
      else if (c <? 32)%N then None
      else json_string s'
  end.

Fixpoint json_digits (s : str) : str :=
  match s with
  | c :: s' => if json_digit c then json_digits s' else s
  | [] => []
  end.

Definition json_digits1 (s : str) : option str :=
  match s with
  | c :: s' => if json_digit c then Some (json_digits s') else None
  | [] => None
  end.

Definition json_number (s : str) : option str :=
  let unsigned := match s with
                  | c :: s' => if (c =? 45)%N then s' else s
                  | [] => []
                  end in
  let after_int := match unsigned with
                   | c :: s' => if (c =? 48)%N then Some s' else json_digits1 unsigned
                   | [] => None
                   end in
  let after_frac := after_int ≫= λ r,
                    match r with
                    | c :: r' => if (c =? 46)%N then json_digits1 r' else Some r
                    | [] => Some r
                    end in
  after_frac ≫= λ r,
  match r with
  | c :: r' =>
      if (c =? 101)%N || (c =? 69)%N then
        match r' with
        | sign :: r'' =>
            if (sign =? 43)%N || (sign =? 45)%N then json_digits1 r'' else json_digits1 r'
        | [] => None
        end
      else Some r
  | [] => Some r
  end.

Definition json_literal (word : str) (s : str) : option str :=
  if starts_with word s then Some (drop (length word) s) else None.

(** A value at the head of [s]; what follows it is returned. *)
Fixpoint json_value (fuel : nat) (s : str) : option str :=
  match fuel with
  | 0 => None
  | S n =>
      match json_skip s with
      | [] => None
      | c :: s1 =>
          if (c =? 123)%N then
            match json_skip s1 with
            | [] => None
            | c2 :: s2 => if (c2 =? 125)%N then Some s2 else json_members n (c2 :: s2)
            end
          else if (c =? 91)%N then
            match json_skip s1 with
            | [] => None
            | c2 :: s2 => if (c2 =? 93)%N then Some s2 else json_elements n (c2 :: s2)
            end
          else if (c =? 34)%N then json_string s1
          else if (c =? 116)%N then json_literal (lit "true") (c :: s1)
          else if (c =? 102)%N then json_literal (lit "false") (c :: s1)
          else if (c =? 110)%N then json_literal (lit "null") (c :: s1)
          else json_number (c :: s1)
      end
  end
with json_members (fuel : nat) (s : str) : option str :=
  match fuel with
  | 0 => None
  | S n =>
      match json_skip s with
      | [] => None
      | c :: s1 =>
          if (c =? 34)%N then
            json_string s1 ≫= λ s2,
            match json_skip s2 with
            | [] => None
            | c3 :: s3 =>
                if (c3 =? 58)%N then
                  json_value n s3 ≫= λ s4,
                  match json_skip s4 with
                  | [] => None
                  | c5 :: s5 =>
                      if (c5 =? 44)%N then json_members n s5
                      else if (c5 =? 125)%N then Some s5
                      else None
                  end
                else None
            end
          else None
      end
  end
with json_elements (fuel : nat) (s : str) : option str :=
  match fuel with
  | 0 => None
  | S n =>
      json_value n s ≫= λ s1,
      match json_skip s1 with
      | [] => None
      | c :: s2 =>
          if (c =? 44)%N then json_elements n s2
          else if (c =? 93)%N then Some s2
          else None
      end
  end.

(** The whole of [s] is one JSON value. *)
Definition is_json (s : str) : bool :=
  match json_value (S (length s)) s with
  | Some rest => bool_decide (json_skip rest = [])
  | None => false
  end.

Definition collaborators : Collaborators :=
  {| __dirname := lit "/repo";
     path_resolve := λ from to,
       if Fs.is_absolute to then to
       else if Fs.is_absolute from then from ++ lit "/" ++ to
       else lit "/" ++ from ++ lit "/" ++ to;
     path_join := λ a b, a ++ lit "/" ++ b;
     compiler_run := λ w, (Resolved stats, w);
     jsonToString := λ json _,
       join [10%N] (Webpack.json_errors json ++ Webpack.json_warnings json);
     GraphQLSchema := str;
     IntrospectionResult := str;
     PrettierOptions := unit;
     buildSchema := λ s,
       if starts_with (lit "type ") s then Resolved s
       else Rejected (Foreign (lit "GraphQLError"));
     graphql_introspection := λ s, Resolved s;
     resolveConfig := λ _ config w,
       if Fs.exists_path w config then Resolved (Some ())
       else Rejected (Foreign (lit "ENOENT"));
     generateNamespace := λ result _, Resolved (lit "export interface IQuery {}");
     JSONValue := str;
     JSON_parse := λ s,
       if is_json s then Resolved s else Rejected (Foreign (lit "SyntaxError"));
     compileJSONSchema := λ json _ _, Resolved (lit "export interface Settings {}");
     globby := λ _ _, Resolved [lit "src/foo.ts"; lit "src/baz.tsx"; lit "src/main.ts"];
     tsUnusedExports := λ _ _, Resolved analysis;
     first_rejection := λ _ e _, e;
     first_rejection_elem := λ _ e es, list_elem_of_here e es |}.

Definition settings_schema : str :=
  dq "{ 'definitions': { 'Ext': { 'type': 'string' } }, 'properties': { 'ext': { '$ref': 'https://sourcegraph.com/v1/settings.schema.json#/definitions/Ext' } } }".

(** What the reference rewrite makes of it. *)
Definition settings_schema_rewritten : str :=
  dq "{ 'definitions': { 'Ext': { 'type': 'string' } }, 'properties': { 'ext': { '$ref': '#/definitions/Ext' } } }".

(** A checkout with the schema sources and two of the reported files. *)
Definition checkout : world :=
  {| files :=
       list_to_map [
         (lit "/repo/schema/json-schema.schema.json", lit "{}");
         (lit "/repo/schema/settings.schema.json", settings_schema);
         (lit "/repo/schema/site.schema.json", lit "{}");
         (lit "/repo/schema/extension.schema.json", lit "{}");
         (lit "/repo/cmd/frontend/graphqlbackend/schema.graphql", lit "type Query { x: ID }");
         (lit "/repo/prettier.config.js", lit "module.exports = {}");
         (lit "/repo/src/foo.ts", lit "export const bar = 1");
         (lit "/repo/src/baz.tsx", lit "export const qux = 1, quux = 2") ];
     dirs := list_to_set [lit "/repo"; lit "/repo/schema"; lit "/repo/src";
                          lit "/repo/src/backend"; lit "/repo/cmd";
                          lit "/repo/cmd/frontend";
                          lit "/repo/cmd/frontend/graphqlbackend"];
     console := [] |}.

(** The same checkout without the GraphQL schema. *)
Definition checkout_without_graphql : world :=
  {| files := delete (lit "/repo/cmd/frontend/graphqlbackend/schema.graphql") (files checkout);
     dirs := dirs checkout;
     console := [] |}.

End Sample.

Module Derived.

(** ** Notions the further properties are stated with *)

Section derived.
Context `{Collaborators}.

(** What [schema] computes for [file] before it writes: the type
    declarations and the rewritten schema (the steps of [Tasks.schema_file]
    that come before its two [writeFile]). *)
Definition schema_outputs (w : world) (file : str) : outcome (str * str) :=
  match files w !! (__dirname ++ lit "/schema/" ++ file ++ lit ".schema.json") with
  | None => Rejected (Fs.ENOENT (__dirname ++ lit "/schema/" ++ file ++ lit ".schema.json"))
  | Some schema =>
      let schema := Schema.rewrite_refs schema in
      match JSON_parse schema with
      | Rejected e => Rejected e
      | Resolved parsed =>
          match compileJSONSchema parsed (lit "settings.schema") (__dirname ++ lit "/schema") with
          | Rejected e => Rejected e
          | Resolved types => Resolved (types, schema)
          end
      end
  end.


(** The world the two [mkdirp] of [schema] leave: each directory that can
    be made has been made. *)
Definition schema_dirs_made (w : world) : world :=
  (Fs.mkdirp (__dirname ++ lit "/dist/schema")
     (Fs.mkdirp (__dirname ++ lit "/src/schema") w).2).2.

End derived.

(** The names of the functions of a composite, left to right. *)
Definition names (t : Gulp.rt) : list Gulp.name := (Gulp.leaves t).*1.*1.

(** The sample checkout without the source of the [site] schema. *)
Definition checkout_without_site : world :=
  {| files := delete (lit "/repo/schema/site.schema.json") (files Sample.checkout);
     dirs := dirs Sample.checkout;
     console := [] |}.

End Derived.


(** * Properties *)

(** Decides a closed proposition by evaluation. *)
Ltac by_decide :=
  match goal with |- ?P => apply (bool_decide_unpack P); vm_compute; exact I end.

(** ** Literal search and replace *)

Section replace_all.
Import Schema.
Context (p r : str).

Lemma starts_with_app (q v : str) : starts_with q (q ++ v) = true.
Proof. induction q as [|a q IH]; simpl; [done|]. by rewrite bool_decide_true. Qed.

Lemma starts_with_inv (q s : str) :
  starts_with q s = true → ∃ v, s = q ++ v.
Proof.
  revert s. induction q as [|a q IH]; intros s; simpl.
  - eauto.
  - destruct s as [|b s]; [done|].
    intros [->%bool_decide_eq_true [v ->]%IH]%andb_true_iff. eauto.
Qed.

Lemma starts_with_false_not_prefix (q s v : str) :
  starts_with q s = false → s ≠ q ++ v.
Proof. intros H ->. by rewrite starts_with_app in H. Qed.

Lemma replace_all_copy c s :
  starts_with p (c :: s) = false →
  replace_all p r (c :: s) = c :: replace_all p r s.
Proof. intros H. simp replace_all. rewrite H. done. Qed.

Lemma replace_all_match v :
  p ≠ [] → replace_all p r (p ++ v) = r ++ replace_all p r v.
Proof.
  destruct p as [|c q] eqn:E; [done|]. intros _.
  change ((c :: q) ++ v) with (c :: (q ++ v)). simp replace_all.
  change (c :: q ++ v) with ((c :: q) ++ v).
  rewrite starts_with_app. simpl.
  by rewrite Nat.sub_0_r, drop_app_length.
Qed.

(** Text without an occurrence of the pattern is returned as it is. *)
Lemma replace_all_no_occurrence s :
  ¬ occurs p s → replace_all p r s = s.
Proof.
  induction s as [|c s IH]; intros Hno; [by simp replace_all|].
  destruct (starts_with p (c :: s)) eqn:E.
  - apply starts_with_inv in E as [v E]. destruct Hno. exists [], v. by rewrite E.
  - rewrite replace_all_copy by done. f_equal. apply IH.
    intros (u & v & ->). apply Hno. by exists (c :: u), v.
Qed.

Lemma unbordered_spec k :
  unbordered p = true → 0 < k < length p →
  drop k p ≠ take (length p - k) p.
Proof.
  unfold unbordered. rewrite forallb_forall. intros H Hk.
  specialize (H k). rewrite in_seq, negb_true_iff, bool_decide_eq_false in H.
  apply H. lia.
Qed.

(** With an unbordered pattern the scan cannot start a match that
    straddles the beginning of an occurrence. *)
Lemma starts_with_straddle u v :
  unbordered p = true → 0 < length u < length p →
  starts_with p (u ++ p ++ v) = false.
Proof.
  intros Hub Hu. destruct (starts_with p (u ++ p ++ v)) eqn:E; [|done].
  apply starts_with_inv in E as [w E].
  destruct (unbordered_spec (length u) Hub Hu).
  apply (f_equal (drop (length u))) in E.
  rewrite drop_app_length in E. rewrite drop_app_le in E by lia.
  apply (f_equal (take (length p - length u))) in E.
  rewrite take_app_le in E by lia.
  rewrite (take_app_length' (drop (length u) p)) in E by (rewrite length_drop; lia).
  done.
Qed.

(** Every occurrence of an unbordered pattern is replaced, and the text
    on both sides of it is rewritten independently. *)
Lemma replace_all_occurrence u v :
  unbordered p = true → p ≠ [] →
  replace_all p r (u ++ p ++ v) = replace_all p r u ++ r ++ replace_all p r v.
Proof.
  intros Hub Hne.
  induction u as [u IH] using (induction_ltof1 _ (@length N)).
  unfold ltof in IH.
  destruct u as [|c u'].
  { simpl. simp replace_all. by rewrite replace_all_match. }
  destruct (starts_with p (c :: u')) eqn:E.
  - apply starts_with_inv in E as [w E]. rewrite E, <-(assoc_L (++)).
    rewrite !replace_all_match by done. rewrite <-(assoc_L (++)). f_equal.
    apply IH. rewrite E, length_app. destruct p; [done|simpl; lia].
  - assert (E' : starts_with p ((c :: u') ++ p ++ v) = false).
    { destruct (decide (length (c :: u') < length p)).
      - apply starts_with_straddle; [done|simpl in *; lia].
      - destruct (starts_with p ((c :: u') ++ p ++ v)) eqn:E2; [|done].
        apply starts_with_inv in E2 as [w E2].
        apply (f_equal (take (length p))) in E2.
        rewrite take_app_le, take_app_length in E2 by lia.
        rewrite <-(take_drop (length p) (c :: u')), E2, starts_with_app in E.
        done. }
    simpl in E'. simpl. rewrite !replace_all_copy by done. simpl. f_equal.
    apply IH. simpl; lia.
Qed.

Lemma starts_with_extend q s z :
  starts_with q s = true → starts_with q (s ++ z) = true.
Proof.
  intros [v ->]%starts_with_inv. rewrite <-(assoc_L (++)). apply starts_with_app.
Qed.

(** The rewrite does not lengthen the text when the replacement is not
    longer than the pattern. *)
Lemma replace_all_length s :
  p ≠ [] → length r ≤ length p → length (replace_all p r s) ≤ length s.
Proof.
  intros Hp Hrp. induction s as [s IH] using (induction_ltof1 _ (@length N)).
  unfold ltof in IH. destruct s as [|c s]; [by simp replace_all|].
  destruct (starts_with p (c :: s)) eqn:E.
  - apply starts_with_inv in E as [v E]. rewrite E.
    rewrite replace_all_match by done. rewrite !length_app.
    specialize (IH v). rewrite E, length_app in IH.
    destruct p; [done|]. simpl in *. lia.
  - rewrite replace_all_copy by done. simpl. specialize (IH s). simpl in IH. lia.
Qed.

(** It shortens text that holds the pattern when the replacement is shorter. *)
Lemma replace_all_shrinks s :
  unbordered p = true → length r < length p → occurs p s →
  length (replace_all p r s) < length s.
Proof.
  intros Hub Hrp (u & v & ->).
  assert (p ≠ []) as Hp by (intros E; rewrite E in Hrp; simpl in Hrp; lia).
  rewrite replace_all_occurrence by done. rewrite !length_app.
  pose proof (replace_all_length u Hp). pose proof (replace_all_length v Hp). lia.
Qed.
End replace_all.

(** When can one pass of the rewrite create a fresh occurrence?  Only when
    the pattern is [x ++ r] and the input holds [x] right before an
    occurrence. *)
Section replace_all_again.
Import Schema.
Context (x0 r0 : N) (x' r' : str).
Let x := x0 :: x'.
Let r := r0 :: r'.
Let p := x ++ r.
Hypothesis x0_not_in_r : x0 ∉ r.
Hypothesis r0_not_in_x : r0 ∉ x.
Hypothesis r0_not_in_r' : r0 ∉ r'.

Lemma replace_all_head_r0 c s :
  starts_with p (c :: s) = true → ∃ t, replace_all p r (c :: s) = r0 :: t.
Proof. intros H. simp replace_all. rewrite H. simpl. eauto. Qed.

(** Output free of [r0] was copied from the input. *)
Lemma replace_all_copied w s b :
  r0 ∉ w → replace_all p r s = w ++ b →
  ∃ s', s = w ++ s' ∧ replace_all p r s' = b.
Proof.
  revert s. induction w as [|c w IH]; intros s Hw E; [by exists s|].
  destruct s as [|d s]; [by simp replace_all in E|].
  destruct (starts_with p (d :: s)) eqn:Es.
  - apply (replace_all_head_r0 d s) in Es as [t Et].
    rewrite Et in E. injection E as <- _. set_solver.
  - rewrite replace_all_copy in E by done. injection E as -> E.
    destruct (IH s) as (s' & -> & <-); [set_solver|done|]. eauto.
Qed.

(** Output that begins with the replacement stems from a match or from
    a copy of the replacement. *)
Lemma replace_all_begins_r s b :
  replace_all p r s = r ++ b →
  starts_with p s = true ∨ ∃ t, s = r ++ t.
Proof.
  intros E. destruct s as [|c s]; [by simp replace_all in E|].
  destruct (starts_with p (c :: s)) eqn:Es; [by left|right].
  rewrite replace_all_copy in E by done. injection E as -> E.
  apply replace_all_copied in E as (s' & -> & _); [|done]. eauto.
Qed.

Lemma replace_all_fresh_occurrence s :
  occurs p (replace_all p r s) → occurs (x ++ p) s.
Proof.
  induction s as [s IH] using (induction_ltof1 _ (@length N)).
  unfold ltof in IH. intros (a & b & E).
  destruct s as [|c s]; [simp replace_all in E; by destruct a|].
  destruct (starts_with p (c :: s)) eqn:Es.
  - apply starts_with_inv in Es as [v Es]. rewrite Es in E |- *.
    rewrite replace_all_match in E by done.
    assert (∃ k, replace_all p r v = k ++ p ++ b) as [k Ek].
    { apply app_eq_inv in E as [(k & Hr & E)|(k & -> & E)]; [|by eexists].
      destruct k as [|k0 k]; [by exists []|].
      destruct x0_not_in_r. rewrite Hr. simplify_eq/=. set_solver. }
    destruct (IH v) as (u & w & ->).
    * rewrite Es, length_app. simpl. lia.
    * by exists k, b.
    * exists (p ++ u), w. by rewrite <-!(assoc_L (++)).
  - rewrite replace_all_copy in E by done.
    destruct a as [|a0 a]; injection E as -> E.
    + rewrite <-(assoc_L (++)) in E.
      apply replace_all_copied in E as (s' & -> & E); [|set_solver].
      apply replace_all_begins_r in E as [E|[t ->]].
      * apply starts_with_inv in E as [v ->]. exists [], v.
        change (x0 :: x' ++ p ++ v = x0 :: (x' ++ p) ++ v).
        f_equal. apply app_assoc.
      * exfalso. rewrite (app_assoc x' r t) in Es.
        change (starts_with p (p ++ t) = false) in Es.
        by rewrite starts_with_app in Es.
    + destruct (IH s) as (u & w & ->); [simpl; lia|by exists a, b|].
      by exists (a0 :: u), w.
Qed.

(** A second pass changes nothing unless the input holds [x ++ p]. *)
Lemma replace_all_twice s :
  ¬ occurs (x ++ p) s →
  replace_all p r (replace_all p r s) = replace_all p r s.
Proof.
  intros H. apply replace_all_no_occurrence.
  intros Ho. by apply H, replace_all_fresh_occurrence.
Qed.

Hypothesis p_unbordered : unbordered p = true.

(** A trailing [x] is copied. *)
Lemma replace_all_keeps_tail u : ∃ t, replace_all p r (u ++ x) = t ++ x.
Proof.
  induction u as [u IH] using (induction_ltof1 _ (@length N)).
  unfold ltof in IH. destruct u as [|c u].
  { exists []. simpl. apply replace_all_no_occurrence.
    intros (a & b & E). apply (f_equal length) in E.
    unfold p in E. rewrite !length_app in E. simpl in E. lia. }
  destruct (starts_with p ((c :: u) ++ x)) eqn:E.
  - destruct (decide (length (c :: u) < length p)) as [Hshort|Hlong].
    + exfalso. apply (starts_with_extend _ _ r) in E.
      rewrite <-(assoc_L (++)) in E.
      change (starts_with p ((c :: u) ++ p) = true) in E.
      rewrite <-(app_nil_r p) in E at 2.
      rewrite (starts_with_straddle p (c :: u) []) in E; [done|done|].
      simpl in *. lia.
    + apply starts_with_inv in E as [w E].
      assert ((c :: u) = p ++ drop (length p) (c :: u)) as Hu.
      { rewrite <-(take_drop (length p) (c :: u)) at 1. f_equal.
        apply (f_equal (take (length p))) in E.
        rewrite take_app_le, take_app_length in E by lia. done. }
      destruct (IH (drop (length p) (c :: u))) as [t Ht].
      { rewrite length_drop. unfold p at 1. rewrite length_app. simpl. lia. }
      exists (r ++ t). rewrite Hu, <-!(assoc_L (++)).
      rewrite replace_all_match by done. by rewrite Ht.
  - simpl in E. destruct (IH u) as [t Ht]; [simpl; lia|].
    exists (c :: t). simpl. rewrite replace_all_copy by done. by rewrite Ht.
Qed.

(** One pass over [x ++ p] leaves an occurrence of [p]. *)
Lemma replace_all_leaves_occurrence s :
  occurs (x ++ p) s → occurs p (replace_all p r s).
Proof.
  intros (u & v & ->).
  replace (u ++ (x ++ p) ++ v) with ((u ++ x) ++ p ++ v)
    by by rewrite <-!(assoc_L (++)).
  rewrite replace_all_occurrence by done.
  destruct (replace_all_keeps_tail u) as [t ->].
  exists t, (replace_all p r v). unfold p.
  rewrite <-!app_assoc. reflexivity.
Qed.

(** A second pass changes nothing exactly when the input is free of [x ++ p]. *)
Lemma replace_all_twice_iff s :
  replace_all p r (replace_all p r s) = replace_all p r s ↔ ¬ occurs (x ++ p) s.
Proof.
  split; [|apply replace_all_twice].
  intros Hsame Hocc%replace_all_leaves_occurrence.
  apply (replace_all_shrinks p r) in Hocc; [|done|].
  - rewrite Hsame in Hocc. lia.
  - unfold p. rewrite length_app. simpl. lia.
Qed.
End replace_all_again.

(** ** The reference rewrite of the schema task *)

Section rewrite_refs.
Import Schema.

Lemma includes_spec p s : includes p s = true ↔ occurs p s.
Proof.
  unfold includes, occurs. rewrite existsb_exists. split.
  - intros (i & _ & (v & Hv)%starts_with_inv).
    exists (take i s), v. by rewrite <-Hv, take_drop.
  - intros (u & v & ->). exists (length u). split.
    + apply in_seq. rewrite !length_app. lia.
    + by rewrite drop_app_length, starts_with_app.
Qed.

Lemma ABSOLUTE_REF_split : ABSOLUTE_REF = SETTINGS_SCHEMA_URL ++ RELATIVE_REF.
Proof. reflexivity. Qed.

Lemma ABSOLUTE_REF_unbordered : unbordered ABSOLUTE_REF = true.
Proof. vm_compute. reflexivity. Qed.

(** The rewrite leaves text without the absolute prefix alone. *)
Lemma rewrite_refs_no_occurrence s :
  ¬ occurs ABSOLUTE_REF s → rewrite_refs s = s.
Proof. apply replace_all_no_occurrence. Qed.

(** The rewrite replaces the prefix wherever it occurs. *)
Lemma rewrite_refs_occurrence u v :
  rewrite_refs (u ++ ABSOLUTE_REF ++ v) =
  rewrite_refs u ++ RELATIVE_REF ++ rewrite_refs v.
Proof.
  apply replace_all_occurrence; [apply ABSOLUTE_REF_unbordered|done].
Qed.

Lemma rewrite_refs_twice s :
  rewrite_refs (rewrite_refs s) = rewrite_refs s ↔
  ¬ occurs (SETTINGS_SCHEMA_URL ++ ABSOLUTE_REF) s.
Proof.
  apply (replace_all_twice_iff 104 35
           (lit "ttps://sourcegraph.com/v1/settings.schema.json")
           (lit "/definitions/")); by_decide.
Qed.

(** C1, as amended: the rewrite returns text without the absolute prefix as
    it is; it replaces the prefix by [#/definitions/] wherever it occurs,
    the text on either side being rewritten in the same way; and a second
    pass changes nothing exactly when the input does not hold the prefix
    right after [https://sourcegraph.com/v1/settings.schema.json]. *)
Theorem rewrite_refs_replaces_every_prefix :
  (∀ s, ¬ occurs ABSOLUTE_REF s → rewrite_refs s = s) ∧
  (∀ u v, rewrite_refs (u ++ ABSOLUTE_REF ++ v) =
          rewrite_refs u ++ RELATIVE_REF ++ rewrite_refs v) ∧
  (∀ s, rewrite_refs (rewrite_refs s) = rewrite_refs s ↔
        ¬ occurs (SETTINGS_SCHEMA_URL ++ ABSOLUTE_REF) s).
Proof.
  split; [|split].
  - apply rewrite_refs_no_occurrence.
  - apply rewrite_refs_occurrence.
  - apply rewrite_refs_twice.
Qed.

(** C1, as stated, fails: one pass of the rewrite creates the prefix in
    [https://sourcegraph.com/v1/settings.schema.json] followed by the prefix,
    and a second pass replaces it. *)
Lemma rewrite_refs_not_idempotent :
  let s := SETTINGS_SCHEMA_URL ++ ABSOLUTE_REF in
  rewrite_refs s = ABSOLUTE_REF ∧
  rewrite_refs (rewrite_refs s) = RELATIVE_REF ∧
  rewrite_refs (rewrite_refs s) ≠ rewrite_refs s.
Proof.
  repeat split; [vm_compute; reflexivity..|]. vm_compute. discriminate.
Qed.

(** The schema text of the sample checkout. *)
Lemma rewrite_refs_replaces_every_prefix_witness :
  rewrite_refs (rewrite_refs Sample.settings_schema) =
  rewrite_refs Sample.settings_schema.
Proof.
  apply rewrite_refs_replaces_every_prefix.
  intros Hocc%includes_spec. vm_compute in Hocc. discriminate Hocc.
Defined.
End rewrite_refs.

(** ** Regular expressions: the matcher finds what the expression matches *)

Section regex.
Import Regex.

Lemma matches_nil_nullable r : matches r [] → nullable r = true.
Proof.
  intros H. remember [] as s eqn:Hs.
  induction H as [| | |a b u v _ IHa _ IHb| | | |]; simplify_eq/=; try done.
  - apply app_eq_nil in Hs as [-> ->]. by rewrite IHa, IHb.
  - by rewrite IHmatches.
  - rewrite IHmatches by done. apply orb_true_r.
Qed.

Lemma nullable_matches_nil r : nullable r = true → matches r [].
Proof.
  induction r as [| | | |a IHa b IHb|a IHa b IHb|a IHa]; simpl; try done.
  - intros _. constructor.
  - intros [??]%andb_true_iff. apply (m_cat _ _ [] []); auto.
  - intros [?|?]%orb_true_iff; [apply m_alt_l|apply m_alt_r]; auto.
  - intros _. constructor.
Qed.

Lemma deriv_sound c r s : matches (deriv c r) s → matches r (c :: s).
Proof.
  revert s. induction r as [| |d| |a IHa b IHb|a IHa b IHb|a IHa];
    intros s; simpl.
  - inversion 1.
  - inversion 1.
  - case_bool_decide as E; inversion 1. subst. constructor.
  - destruct (line_terminator c) eqn:E; inversion 1. by constructor.
  - inversion 1 as [| | | | ? ? ? Hl | ? ? ? Hr| |]; subst.
    + inversion Hl; subst. apply (m_cat _ _ (c :: _)); auto.
    + destruct (nullable a) eqn:E; [|inversion Hr].
      apply (m_cat _ _ []); auto using nullable_matches_nil.
  - inversion 1; subst; [apply m_alt_l|apply m_alt_r]; auto.
  - inversion 1; subst. apply (m_star_cons _ (c :: _)); auto.
Qed.

Lemma deriv_complete c r s : matches r (c :: s) → matches (deriv c r) s.
Proof.
  intros H. remember (c :: s) as cs eqn:Hcs. revert s Hcs.
  induction H as [|d|d Hd|a b u v Ha IHa Hb IHb|a b u Ha IHa|a b u Hb IHb|
                  |a u v Ha IHa Hs IHs]; intros s Hcs; simplify_eq/=.
  - rewrite bool_decide_true by done. constructor.
  - rewrite Hd. constructor.
  - destruct u as [|c' u]; simplify_eq/=.
    + apply m_alt_r. rewrite (matches_nil_nullable a) by done. auto.
    + apply m_alt_l. constructor; auto.
  - apply m_alt_l; auto.
  - apply m_alt_r; auto.
  - destruct u as [|c' u]; simplify_eq/=; [by apply IHs|].
    constructor; auto.
Qed.

(** A match attempt succeeds exactly when a prefix matches. *)
Lemma match_here_spec r s :
  match_here r s = true ↔ ∃ m v, s = m ++ v ∧ matches r m.
Proof.
  revert r. induction s as [|c s IH]; intros r; simpl.
  - rewrite orb_false_r. split.
    + intros ?%nullable_matches_nil. by exists [], [].
    + intros (m & v & [-> ->]%eq_sym%app_eq_nil & ?). by apply matches_nil_nullable.
  - rewrite orb_true_iff, IH. split.
    + intros [?%nullable_matches_nil|(m & v & -> & ?%deriv_sound)].
      * by exists [], (c :: s).
      * by exists (c :: m), v.
    + intros ([|c' m] & v & E & Hm); simplify_eq/=.
      * left. by apply matches_nil_nullable.
      * right. exists m, v. split; [done|]. by apply deriv_complete.
Qed.

(** [test] succeeds exactly when some substring matches. *)
Lemma Regex_test_spec r s :
  test r s = true ↔ ∃ u m v, s = u ++ m ++ v ∧ matches r m.
Proof.
  induction s as [|c s IH].
  - change (test r []) with (match_here r [] || false).
    rewrite orb_false_r, (match_here_spec r []). split.
    + intros (m & v & ? & ?). by exists [], m, v.
    + intros (u & m & v & E & ?). exists m, v. split; [|done].
      symmetry in E. apply app_eq_nil in E as [-> E]. done.
  - change (test r (c :: s)) with (match_here r (c :: s) || test r s).
    rewrite orb_true_iff, IH, match_here_spec. split.
    + intros [(m & v & ? & ?)|(u & m & v & -> & ?)].
      * by exists [], m, v.
      * by exists (c :: u), m, v.
    + intros ([|c' u] & m & v & E & ?); simplify_eq/=.
      * left. by exists m, v.
      * right. by exists u, m, v.
Qed.

Lemma matches_Cat a b m :
  matches (Cat a b) m ↔ ∃ u v, m = u ++ v ∧ matches a u ∧ matches b v.
Proof.
  split.
  - inversion 1; subst. eauto.
  - intros (u & v & -> & ? & ?). by constructor.
Qed.

Lemma matches_Chr c m : matches (Chr c) m ↔ m = [c].
Proof. split; [by inversion 1|intros ->; constructor]. Qed.

Lemma matches_Dot m :
  matches Dot m ↔ ∃ c, m = [c] ∧ line_terminator c = false.
Proof.
  split; [inversion 1; eauto|intros (c & -> & ?); by constructor].
Qed.

Lemma matches_Lit s m : matches (Lit s) m ↔ m = s.
Proof.
  revert m. induction s as [|c s IH]; intros m; simpl.
  - split; [by inversion 1|intros ->; constructor].
  - rewrite matches_Cat. split.
    + intros (u & v & -> & ->%matches_Chr & ->%IH). done.
    + intros ->. exists [c], s. by rewrite matches_Chr, IH.
Qed.

Lemma matches_Star_Dot m :
  matches (Star Dot) m ↔ Forall (λ c, line_terminator c = false) m.
Proof.
  split.
  - intros H. remember (Star Dot) as r eqn:Hr.
    induction H as [| | | | | | |a u v Ha _ Hs IHs]; simplify_eq/=; [done|].
    apply matches_Dot in Ha as (c & -> & ?). constructor; auto.
  - induction 1 as [|c m Hc _ IH]; [constructor|].
    apply (m_star_cons _ [c]); [by constructor|done].
Qed.
End regex.

(** ** Runs of composites *)

Section gulp.
Import Gulp GulpInv.

Lemma rt_ind' (P : rt → Prop) :
  (∀ n b st, P (RLeaf n b st)) →
  (∀ l, Forall P l → P (RSeries l)) →
  (∀ l, Forall P l → P (RParallel l)) →
  ∀ t, P t.
Proof.
  intros Hleaf Hser Hpar. fix IH 1. intros [n b st|l|l].
  - apply Hleaf.
  - apply Hser. induction l as [|x l IHl]; constructor; [apply IH|apply IHl].
  - apply Hpar. induction l as [|x l IHl]; constructor; [apply IH|apply IHl].
Qed.

Lemma first_of_Some {A} (f : A → option A) l l' :
  first_of f l = Some l' →
  ∃ pre x x' post,
    l = pre ++ x :: post ∧ l' = pre ++ x' :: post ∧ f x = Some x'.
Proof.
  revert l'. induction l as [|y l IH]; intros l'; simpl; [done|].
  destruct (f y) as [y'|] eqn:E.
  - intros [= <-]. by exists [], y, y', l.
  - destruct (first_of f l) as [l1|] eqn:E1; simpl; [|done].
    intros [= <-]. destruct (IH l1 eq_refl) as (pre & x & x' & post & -> & -> & Hx).
    by exists (y :: pre), x, x', post.
Qed.

Lemma current_of_Some {A} (c : A → bool) (f : A → option A) l l' :
  current_of c f l = Some l' →
  ∃ pre x x' post,
    l = pre ++ x :: post ∧ l' = pre ++ x' :: post ∧ f x = Some x' ∧
    Forall (λ y, c y = true) pre ∧ c x = false.
Proof.
  revert l'. induction l as [|y l IH]; intros l'; simpl; [done|].
  destruct (c y) eqn:Ec.
  - destruct (current_of c f l) as [l1|] eqn:E1; simpl; [|done].
    intros [= <-].
    destruct (IH l1 eq_refl) as (pre & x & x' & post & -> & -> & Hx & Hpre & Hc).
    exists (y :: pre), x, x', post. repeat split; auto.
  - destruct (f y) as [y'|] eqn:E; simpl; [|done].
    intros [= <-]. exists [], y, y', l. repeat split; auto.
Qed.

(** Either way of descending into a group changes one member. *)
Lemma step_member e (l l' : list rt) :
  (if is_start e
   then current_of (λ x, bool_decide (outcome x = Succeeded)) (step e) l
   else first_of (step e) l) = Some l' →
  ∃ pre x x' post,
    l = pre ++ x :: post ∧ l' = pre ++ x' :: post ∧ step e x = Some x'.
Proof.
  destruct (is_start e).
  - intros (pre & x & x' & post & ? & ? & ? & _)%current_of_Some. eauto 10.
  - apply first_of_Some.
Qed.

(** An event changes the status of one function, the one it names. *)
Lemma step_leaves e t t' :
  step e t = Some t' →
  ∃ l1 b st st' l2,
    leaves t = l1 ++ (event_name e, b, st) :: l2 ∧
    leaves t' = l1 ++ (event_name e, b, st') :: l2 ∧
    leaf_step b st e = Some st'.
Proof.
  revert t'. induction t as [n b st|l IH|l IH] using rt_ind'; intros t'; simpl.
  - case_bool_decide as En; [|done]. subst n.
    destruct (leaf_step b st e) as [st'|] eqn:E; simpl; [|done].
    intros [= <-]. by exists [], b, st, st', [].
  - destruct (if is_start e then _ else _) as [l'|] eqn:E; simpl; [|done].
    intros [= <-]. apply step_member in E as (pre & x & x' & post & -> & -> & Hx).
    rewrite Forall_app, Forall_cons in IH. destruct IH as (_ & IHx & _).
    destruct (IHx _ Hx) as (l1 & b & st & st' & l2 & E1 & E2 & Hs).
    exists (mjoin (leaves <$> pre) ++ l1), b, st, st', (l2 ++ mjoin (leaves <$> post)).
    simpl. rewrite !fmap_app, !join_app, !fmap_cons. simpl. rewrite E1, E2.
    by rewrite <-!(assoc_L (++)).
  - destruct (first_of (step e) l) as [l'|] eqn:E; simpl; [|done].
    intros [= <-]. apply first_of_Some in E as (pre & x & x' & post & -> & -> & Hx).
    rewrite Forall_app, Forall_cons in IH. destruct IH as (_ & IHx & _).
    destruct (IHx _ Hx) as (l1 & b & st & st' & l2 & E1 & E2 & Hs).
    exists (mjoin (leaves <$> pre) ++ l1), b, st, st', (l2 ++ mjoin (leaves <$> post)).
    simpl. rewrite !fmap_app, !join_app, !fmap_cons. simpl. rewrite E1, E2.
    by rewrite <-!(assoc_L (++)).
Qed.

Lemma step_shape e t t' : step e t = Some t' → shape t' = shape t.
Proof.
  revert t'. induction t as [n b st|l IH|l IH] using rt_ind'; intros t'; simpl.
  - case_bool_decide; [|done].
    destruct (leaf_step b st e); simpl; [|done]. by intros [= <-].
  - destruct (if is_start e then _ else _) as [l'|] eqn:E; simpl; [|done].
    intros [= <-]. apply step_member in E as (pre & x & x' & post & -> & -> & Hx).
    rewrite Forall_app, Forall_cons in IH. destruct IH as (_ & IHx & _).
    simpl. by rewrite !fmap_app, !fmap_cons, (IHx _ Hx).
  - destruct (first_of (step e) l) as [l'|] eqn:E; simpl; [|done].
    intros [= <-]. apply first_of_Some in E as (pre & x & x' & post & -> & -> & Hx).
    rewrite Forall_app, Forall_cons in IH. destruct IH as (_ & IHx & _).
    simpl. by rewrite !fmap_app, !fmap_cons, (IHx _ Hx).
Qed.

Lemma shape_init t : shape (init t) = t.
Proof.
  revert t. fix IH 1. intros [n b|ts|ts]; simpl; [done| |]; f_equal.
  - induction ts as [|x ts IHts]; simpl; [done|]. f_equal; [apply IH|apply IHts].
  - induction ts as [|x ts IHts]; simpl; [done|]. f_equal; [apply IH|apply IHts].
Qed.

Lemma series_outcome_Succeeded sts :
  series_outcome sts = Succeeded ↔ Forall (λ st, st = Succeeded) sts.
Proof.
  induction sts as [|st rest IH]; simpl; [by split|].
  rewrite Forall_cons, <-IH.
  destruct st; try (split; [done|by intros [? _]]).
  destruct rest as [|st' rest']; [by split|].
  destruct (series_outcome (st' :: rest')); split; try done; by intros [_ ?].
Qed.

Lemma parallel_outcome_Succeeded sts :
  parallel_outcome sts = Succeeded ↔ Forall (λ st, st = Succeeded) sts.
Proof.
  unfold parallel_outcome. case_bool_decide as Hf.
  - split; [done|]. intros H. rewrite Forall_forall in H. by apply H in Hf.
  - destruct (forallb _ sts) eqn:E.
    + split; [intros _|done]. apply Forall_forall. intros st Hst.
      rewrite forallb_forall in E. apply list_elem_of_In, E in Hst.
      by apply bool_decide_eq_true in Hst.
    + assert (¬ Forall (λ st, st = Succeeded) sts) as Hn.
      { intros H. apply not_true_iff_false in E. apply E, forallb_forall.
        intros st Hst%list_elem_of_In. rewrite Forall_forall in H.
        by apply bool_decide_eq_true, H. }
      destruct (forallb (λ st, bool_decide (st = Idle)) sts);
        (split; [done|intros ?; by destruct Hn]).
Qed.

(** A composite has completed when all its functions have. *)
Lemma outcome_Succeeded t :
  outcome t = Succeeded ↔ Forall (λ x, x.2 = Succeeded) (leaves t).
Proof.
  induction t as [n b st|l IH|l IH] using rt_ind'; simpl.
  - rewrite Forall_singleton. done.
  - rewrite series_outcome_Succeeded, Forall_fmap.
    induction IH as [|x l Hx _ IHl]; simpl; [done|].
    rewrite Forall_cons, Forall_app, <-IHl. unfold compose. by rewrite Hx.
  - rewrite parallel_outcome_Succeeded, Forall_fmap.
    induction IH as [|x l Hx _ IHl]; simpl; [done|].
    rewrite Forall_cons, Forall_app, <-IHl. unfold compose. by rewrite Hx.
Qed.

Lemma untouched_Forall t :
  untouched t = true ↔ Forall (λ x, x.2 = Idle) (leaves t).
Proof.
  unfold untouched. rewrite forallb_forall, Forall_forall.
  split; intros H x Hx.
  - eapply bool_decide_eq_true_1, H. by apply list_elem_of_In.
  - apply bool_decide_eq_true_2, H. by apply list_elem_of_In.
Qed.

Lemma settle_callbacks_Succeeded cbs : foldl settle Succeeded cbs = Succeeded.
Proof. induction cbs as [|[] ? ?]; simpl; done. Qed.

Lemma settle_callbacks_Failed cbs : foldl settle Failed cbs = Failed.
Proof. induction cbs as [|[] ? ?]; simpl; done. Qed.

(** A completed composite stays completed. *)
Lemma step_Succeeded e t t' :
  step e t = Some t' → outcome t = Succeeded → outcome t' = Succeeded.
Proof.
  intros (l1 & b & st & st' & l2 & E1 & E2 & Hs)%step_leaves.
  rewrite !outcome_Succeeded, E1, E2, !Forall_app, !Forall_cons. simpl.
  intros (? & -> & ?). repeat split; [done| |done].
  destruct e, b; simpl in Hs; try done.
  injection Hs as <-. apply settle_callbacks_Succeeded.
Qed.

(** Nothing but a start happens in an untouched composite. *)
Lemma step_untouched e t t' :
  step e t = Some t' → untouched t = true → is_start e = true.
Proof.
  intros (l1 & b & st & st' & l2 & E1 & E2 & Hs)%step_leaves.
  rewrite untouched_Forall, E1, Forall_app, Forall_cons. simpl.
  intros (_ & -> & _). by destruct e, b.
Qed.

(** After a member of a sequential group has moved, the group is still in
    order; a start reaches the current member, all members before it having
    completed. *)
Lemma series_ordered e pre x x' post :
  step e x = Some x' →
  (is_start e = true →
   Forall (λ y, outcome y = Succeeded) pre ∧ outcome x ≠ Succeeded) →
  StronglySorted before (pre ++ x :: post) →
  StronglySorted before (pre ++ x' :: post).
Proof.
  intros Hx Hstart. rewrite !StronglySorted_app, !StronglySorted_cons.
  intros (Hcross & Hpre & Hpost & Hposts). repeat split; [|done| |done].
  - intros x1 x2 Hx1 [->|Hx2]%elem_of_cons; [|apply Hcross; set_solver].
    destruct (Hcross x1 x) as [Hs|Hu]; [done|set_solver|by left|].
    pose proof (step_untouched _ _ _ Hx Hu) as Hst.
    left. destruct (Hstart Hst) as [Hall _].
    rewrite Forall_forall in Hall. by apply Hall.
  - eapply Forall_impl; [exact Hpost|]. intros y [Hs|Hu]; [|by right].
    left. by eapply step_Succeeded.
Qed.

(** The order of sequential groups is kept by every event. *)
Lemma step_ordered e t t' : step e t = Some t' → ordered t → ordered t'.
Proof.
  revert t'. induction t as [n b st|l IH|l IH] using rt_ind'; intros t'; simpl.
  - case_bool_decide; [|done].
    destruct (leaf_step b st e); simpl; [|done]. intros [= <-] _. constructor.
  - destruct (if is_start e then _ else _) as [l'|] eqn:E; simpl; [|done].
    intros [= <-]. inversion_clear 1 as [|? Hall Hsort|].
    assert (∃ pre x x' post,
      l = pre ++ x :: post ∧ l' = pre ++ x' :: post ∧ step e x = Some x' ∧
      (is_start e = true →
       Forall (λ y, outcome y = Succeeded) pre ∧ outcome x ≠ Succeeded))
      as (pre & x & x' & post & -> & -> & Hx & Hstart).
    { destruct (is_start e).
      - apply current_of_Some in E as (pre & x & x' & post & ? & ? & ? & Hp & Hc).
        exists pre, x, x', post. repeat split; try done.
        + eapply Forall_impl; [exact Hp|]. intros y. apply bool_decide_eq_true_1.
        + by apply bool_decide_eq_false in Hc.
      - apply first_of_Some in E as (pre & x & x' & post & ? & ? & ?).
        by exists pre, x, x', post. }
    rewrite Forall_app, Forall_cons in IH, Hall.
    destruct IH as (_ & IHx & _). destruct Hall as (? & ? & ?).
    constructor; [|by eapply series_ordered].
    rewrite Forall_app, Forall_cons. eauto.
  - destruct (first_of (step e) l) as [l'|] eqn:E; simpl; [|done].
    intros [= <-]. inversion_clear 1 as [| |? Hall].
    apply first_of_Some in E as (pre & x & x' & post & -> & -> & Hx).
    rewrite Forall_app, Forall_cons in IH, Hall.
    destruct IH as (_ & IHx & _). destruct Hall as (? & ? & ?).
    constructor. rewrite Forall_app, Forall_cons. eauto.
Qed.

Lemma untouched_init t : untouched (init t) = true.
Proof.
  apply untouched_Forall. revert t. fix IH 1. intros [n b|ts|ts]; simpl.
  - by rewrite Forall_singleton.
  - induction ts as [|x ts IHts]; simpl; [done|].
    rewrite Forall_app. split; [apply IH|apply IHts].
  - induction ts as [|x ts IHts]; simpl; [done|].
    rewrite Forall_app. split; [apply IH|apply IHts].
Qed.

Lemma untouched_before l x :
  Forall (λ y, untouched y = true) l → Forall (before x) l.
Proof. intros H. eapply Forall_impl; [exact H|]. intros y ?. by right. Qed.

Lemma untouched_sorted l :
  Forall (λ y, untouched y = true) l → StronglySorted before l.
Proof.
  induction 1 as [|x l Hx Hl IH]; constructor; [done|].
  by apply untouched_before.
Qed.

Lemma ordered_init t : ordered (init t).
Proof.
  revert t. fix IH 1. intros [n b|ts|ts]; simpl; constructor.
  - induction ts as [|x ts IHts]; simpl; constructor; [apply IH|apply IHts].
  - apply untouched_sorted.
    induction ts as [|x ts IHts]; simpl; constructor;
      [apply untouched_init|apply IHts].
  - induction ts as [|x ts IHts]; simpl; constructor; [apply IH|apply IHts].
Qed.

(** *** Whole runs *)

Lemma exec_app r tr1 tr2 :
  exec r (tr1 ++ tr2) = exec r tr1 ≫= λ r', exec r' tr2.
Proof.
  revert r. induction tr1 as [|e tr1 IH]; intros r; simpl; [done|].
  destruct (run_step r e); simpl; [apply IH|done].
Qed.

Lemma run_step_tree r e r' :
  run_step r e = Some r' → step e (tree r) = Some (tree r').
Proof.
  unfold run_step. destruct (step e (tree r)); simpl; [|done].
  by intros [= <-].
Qed.

(** An invariant of the composite holds throughout a run. *)
Lemma exec_invariant (I : rt → Prop) r tr r' :
  (∀ e t t', step e t = Some t' → I t → I t') →
  exec r tr = Some r' → I (tree r) → I (tree r').
Proof.
  intros Hstep. revert r. induction tr as [|e tr IH]; intros r; simpl.
  - by intros [= <-].
  - destruct (run_step r e) as [r1|] eqn:E; simpl; [|done].
    intros Hex Hr. apply (IH r1 Hex), (Hstep e (tree r)); [|done].
    by apply run_step_tree.
Qed.

Lemma exec_ordered t tr r :
  exec (start_run t) tr = Some r → ordered (tree r).
Proof.
  intros H. apply (exec_invariant ordered _ _ _ step_ordered H), ordered_init.
Qed.

Lemma exec_shape r tr r' :
  exec r tr = Some r' → shape (tree r') = shape (tree r).
Proof.
  intros H.
  refine (exec_invariant (λ t, shape t = shape (tree r)) r tr r' _ H eq_refl).
  intros e t t' Hs <-. by apply (step_shape e).
Qed.

(** *** The history of one function *)

Lemma step_leaf_after e t t' n b st :
  step e t = Some t' → (n, b, st) ∈ leaves t' →
  (n, b, st) ∈ leaves t ∨
  ∃ st0, (n, b, st0) ∈ leaves t ∧ event_name e = n ∧ leaf_step b st0 e = Some st.
Proof.
  intros (l1 & b' & st0 & st' & l2 & E1 & E2 & Hs)%step_leaves Hin.
  rewrite E2 in Hin. rewrite E1.
  apply elem_of_app in Hin as [?|[[= -> -> ->]|?]%elem_of_cons].
  - left. set_solver.
  - right. exists st0. split; [set_solver|done].
  - left. set_solver.
Qed.

Lemma step_leaf_before e t t' n b st :
  step e t = Some t' → (n, b, st) ∈ leaves t →
  (n, b, st) ∈ leaves t' ∨
  ∃ st', (n, b, st') ∈ leaves t' ∧ event_name e = n ∧ leaf_step b st e = Some st'.
Proof.
  intros (l1 & b' & st0 & st' & l2 & E1 & E2 & Hs)%step_leaves Hin.
  rewrite E1 in Hin. rewrite E2.
  apply elem_of_app in Hin as [?|[[= -> -> ->]|?]%elem_of_cons].
  - left. set_solver.
  - right. exists st'. split; [set_solver|done].
  - left. set_solver.
Qed.

(** A status that only the events [P] lead to has been reached by one of them. *)
Lemma exec_leaf_history (P : event → Prop) n b st r tr r' :
  (∀ e st0, event_name e = n → leaf_step b st0 e = Some st → st0 = st ∨ P e) →
  exec r tr = Some r' → (n, b, st) ∈ leaves (tree r') →
  (n, b, st) ∈ leaves (tree r) ∨ ∃ e, e ∈ tr ∧ P e.
Proof.
  intros HP. revert r. induction tr as [|e tr IH]; intros r; simpl.
  - intros [= <-]. by left.
  - destruct (run_step r e) as [r1|] eqn:E; simpl; [|done].
    intros Hex Hin. destruct (IH r1 Hex Hin) as [Hin1|(e' & He' & HPe')].
    + apply run_step_tree in E.
      destruct (step_leaf_after _ _ _ _ _ _ E Hin1) as [?|(st0 & Hin0 & Hn & Hs)];
        [by left|].
      destruct (HP e st0 Hn Hs) as [->|HPe]; [by left|].
      right. exists e. split; [set_solver|done].
    + right. exists e'. split; [set_solver|done].
Qed.

(** A status that no event leaves is kept to the end of the run. *)
Lemma exec_leaf_kept n b st r tr r' :
  (∀ e st', leaf_step b st e = Some st' → st' = st) →
  exec r tr = Some r' → (n, b, st) ∈ leaves (tree r) → (n, b, st) ∈ leaves (tree r').
Proof.
  intros Hkeep. revert r. induction tr as [|e tr IH]; intros r; simpl.
  - by intros [= <-].
  - destruct (run_step r e) as [r1|] eqn:E; simpl; [|done].
    intros Hex Hin. apply (IH r1 Hex). apply run_step_tree in E.
    destruct (step_leaf_before _ _ _ _ _ _ E Hin) as [?|(st' & Hin' & _ & Hs)];
      [done|].
    by rewrite <-(Hkeep e st' Hs).
Qed.

Lemma work_Succeeded_history n r tr r' :
  exec r tr = Some r' → (n, Work, Succeeded) ∈ leaves (tree r') →
  (n, Work, Succeeded) ∈ leaves (tree r) ∨ Finish n ∈ tr.
Proof.
  intros Hex Hin.
  destruct (exec_leaf_history (λ e, e = Finish n) n Work Succeeded r tr r')
    as [?|(e & He & ->)]; auto.
  intros e st0 Hn Hs. right. destruct e, st0; simplify_eq/=; done.
Qed.

Lemma Failed_kept n b r tr r' :
  exec r tr = Some r' → (n, b, Failed) ∈ leaves (tree r) →
  (n, b, Failed) ∈ leaves (tree r').
Proof.
  apply exec_leaf_kept. intros e st' Hs. destruct e, b; simplify_eq/=.
  apply settle_callbacks_Failed.
Qed.

(** A watch function that registers [reject] for ['error'] only. *)
Lemma watching_Succeeded_history n target r tr r' :
  exec r tr = Some r' →
  (n, watching target, Succeeded) ∈ leaves (tree r') →
  (n, watching target, Succeeded) ∈ leaves (tree r).
Proof.
  intros Hex Hin.
  destruct (exec_leaf_history (λ _, False) n (watching target) Succeeded r tr r')
    as [?|(e & _ & [])]; auto.
  intros e st0 Hn Hs. left. by destruct e as [| | |? []], st0; simplify_eq/=.
Qed.

Lemma watching_Failed_history n target r tr r' :
  exec r tr = Some r' →
  (n, watching target, Failed) ∈ leaves (tree r') →
  (n, watching target, Failed) ∈ leaves (tree r) ∨ Emit n WatchError ∈ tr.
Proof.
  intros Hex Hin.
  destruct (exec_leaf_history (λ e, e = Emit n WatchError) n
              (watching target) Failed r tr r') as [?|(e & He & ->)]; auto.
  intros e st0 Hn Hs.
  destruct e as [| | |? []], st0; simplify_eq/=; auto.
Qed.

Lemma settle_callbacks_not_Idle st cbs : st ≠ Idle → foldl settle st cbs ≠ Idle.
Proof.
  revert st. induction cbs as [|cb cbs IH]; intros st Hst; simpl; [done|].
  apply IH. by destruct st, cb.
Qed.

(** No event leaves a function untouched, and only a start touches one. *)
Lemma leaf_step_not_Idle b st e st' : leaf_step b st e = Some st' → st' ≠ Idle.
Proof.
  destruct e, b, st; simpl; intros [= <-]; try done;
    by apply settle_callbacks_not_Idle.
Qed.

Lemma leaf_step_from_Idle b e st' :
  leaf_step b Idle e = Some st' → e = Start (event_name e).
Proof. by destruct e, b. Qed.

(** A function that has been touched was started during the run. *)
Lemma exec_started_history n b st r tr r' :
  exec r tr = Some r' → (n, b, st) ∈ leaves (tree r') → st ≠ Idle →
  (∃ st0, (n, b, st0) ∈ leaves (tree r) ∧ st0 ≠ Idle) ∨ Start n ∈ tr.
Proof.
  revert r. induction tr as [|e tr IH]; intros r; simpl.
  - intros [= <-]. eauto.
  - destruct (run_step r e) as [r1|] eqn:E; simpl; [|done].
    intros Hex Hin Hst. destruct (IH r1 Hex Hin Hst) as [(st1 & Hin1 & Hst1)|?].
    + apply run_step_tree in E.
      destruct (step_leaf_after _ _ _ _ _ _ E Hin1) as [?|(st0 & Hin0 & Hn & Hs)];
        [by eauto|].
      destruct (decide (st0 = Idle)) as [->|?]; [|by eauto].
      right. apply leaf_step_from_Idle in Hs. rewrite Hn in Hs. set_solver.
    + right. set_solver.
Qed.

(** A function that has been touched stays so. *)
Lemma exec_started_kept n b st r tr r' :
  exec r tr = Some r' → (n, b, st) ∈ leaves (tree r) → st ≠ Idle →
  ∃ st', (n, b, st') ∈ leaves (tree r') ∧ st' ≠ Idle.
Proof.
  revert r st. induction tr as [|e tr IH]; intros r st; simpl.
  - intros [= <-]. eauto.
  - destruct (run_step r e) as [r1|] eqn:E; simpl; [|done].
    intros Hex Hin Hst. apply run_step_tree in E.
    destruct (step_leaf_before _ _ _ _ _ _ E Hin) as [?|(st' & Hin' & _ & Hs)].
    + by apply (IH r1 st).
    + apply (IH r1 st' Hex Hin'). by eapply leaf_step_not_Idle.
Qed.

(** Without a change reported by a watcher, no target is invoked. *)
Lemma exec_invoked r tr r' :
  exec r tr = Some r' → (∀ n, Emit n Change ∉ tr) → invoked r' = invoked r.
Proof.
  revert r. induction tr as [|e tr IH]; intros r; simpl.
  - by intros [= <-].
  - unfold run_step at 1. destruct (step e (tree r)) as [t1|]; simpl; [|done].
    intros Hex Hquiet. rewrite (IH _ Hex) by (intros n; specialize (Hquiet n); set_solver).
    simpl. destruct e as [| | |n []]; simpl; rewrite ?app_nil_r; try done.
    specialize (Hquiet n). set_solver.
Qed.

(** A failed codegen task keeps [build] from bundling. *)
Example build_stops_on_failure :
  exec (start_run build)
    [Start schema; Start graphQLTypes; Fail schema; Finish graphQLTypes;
     Start webpack] = None ∧
  (tree <$> exec (start_run build)
     [Start schema; Start graphQLTypes; Finish schema; Finish graphQLTypes;
      Start webpack; Start phabricator; Finish phabricator; Finish webpack])
  = Some (build_run Succeeded Succeeded Succeeded Succeeded).
Proof. split; reflexivity. Qed.

(** A run that extends to [pre ++ e :: post] passes through [e]. *)
Lemma exec_through r pre e post r' :
  exec r (pre ++ e :: post) = Some r' →
  ∃ r1 r2, exec r pre = Some r1 ∧ run_step r1 e = Some r2 ∧
           exec r (pre ++ [e]) = Some r2 ∧ exec r2 post = Some r'.
Proof.
  rewrite exec_app. destruct (exec r pre) as [r1|] eqn:E1; simpl; [|done].
  destruct (run_step r1 e) as [r2|] eqn:E2; simpl; [|done].
  intros Hpost. exists r1, r2. repeat split; try done.
  rewrite exec_app, E1. simpl. by rewrite E2.
Qed.

(** The function an event starts is running afterwards. *)
Lemma run_step_Start r n r' :
  run_step r (Start n) = Some r' → ∃ b, (n, b, Running) ∈ leaves (tree r').
Proof.
  intros (l1 & b & st & st' & l2 & _ & E2 & Hs)%run_step_tree%step_leaves.
  exists b. rewrite E2. destruct st; simplify_eq/=. set_solver.
Qed.
End gulp.

(** Lays a composite of known shape open, one status variable per function. *)
Ltac reveal_tree :=
  repeat match goal with
  | H : GulpInv.shape ?t = _ |- _ => is_var t; destruct t; simplify_eq/=
  | H : GulpInv.shape <$> ?l = _ |- _ => is_var l; destruct l; simplify_eq/=
  end.

(** Unfolds the order invariant of an open composite. *)
Ltac reveal_order :=
  repeat match goal with
  | H : GulpInv.ordered (Gulp.RSeries _) |- _ => inversion_clear H
  | H : GulpInv.ordered (Gulp.RParallel _) |- _ => inversion_clear H
  | H : GulpInv.ordered (Gulp.RLeaf _ _ _) |- _ => clear H
  | H : Forall _ (_ :: _) |- _ => apply Forall_cons in H as [? ?]
  | H : Forall _ [] |- _ => clear H
  | H : StronglySorted _ (_ :: _) |- _ => apply StronglySorted_cons in H as [? ?]
  | H : StronglySorted _ [] |- _ => clear H
  end.

Section composites.
Import Gulp GulpInv Derived.

(** The composite of a run of [t], laid open. *)
Lemma exec_start t tr r :
  exec (start_run t) tr = Some r → shape (tree r) = t ∧ ordered (tree r).
Proof.
  intros H. split; [|by eapply exec_ordered].
  rewrite (exec_shape _ _ _ H). apply shape_init.
Qed.

Lemma before_leaves x y :
  before x y →
  Forall (λ l, l.2 = Succeeded) (leaves x) ∨ Forall (λ l, l.2 = Idle) (leaves y).
Proof. intros [?%outcome_Succeeded|?%untouched_Forall]; auto. Qed.

(** A run of [watch]: the watchers and the server are only started once
    both codegen tasks have completed, and the watcher of the extension
    files once the copy has. *)
Lemma watch_run_open tr r :
  exec (start_run watch) tr = Some r →
  ∃ s g ws wg serve p wp,
    tree r = watch_run s g ws wg serve p wp ∧
    ((s = Succeeded ∧ g = Succeeded) ∨
     (ws = Idle ∧ wg = Idle ∧ serve = Idle ∧ p = Idle ∧ wp = Idle)) ∧
    (p = Succeeded ∨ wp = Idle).
Proof.
  intros [Hshape Hord]%exec_start. destruct r as [t inv]; simpl in *.
  unfold watch, watchPhabricator in Hshape. reveal_tree. reveal_order.
  repeat match goal with H : before _ _ |- _ =>
    apply before_leaves in H; simpl in H; destruct H end;
  repeat match goal with H : Forall _ (_ :: _) |- _ =>
    apply Forall_cons in H as [? ?] end;
  simpl in *; subst; eexists _, _, _, _, _, _, _;
  (split; [reflexivity|]); auto 10.
Qed.

Lemma parallel_outcome_Failed sts :
  Failed ∈ sts → parallel_outcome sts = Failed.
Proof. intros H. unfold parallel_outcome. by rewrite bool_decide_true. Qed.

Lemma watch_run_outcome s g ws wg serve p wp :
  outcome (watch_run s g ws wg serve p wp) =
  series_outcome [parallel_outcome [s; g];
                  parallel_outcome [ws; wg; serve; series_outcome [p; wp]]].
Proof. reflexivity. Qed.

(** The functions of [watch] have different names. *)
Lemma watch_status_of tr r n b st :
  exec (start_run watch) tr = Some r →
  (n, b, st) ∈ leaves (tree r) → status_of n (tree r) = Some st.
Proof.
  intros (s & g & ws & wg & serve & p & wp & -> & _)%watch_run_open. simpl.
  intros Hin.
  repeat (apply elem_of_cons in Hin as [[= -> -> ->]|Hin]; [done|]).
  by apply elem_of_nil in Hin.
Qed.

Lemma watch_status_of_watching tr r w st :
  exec (start_run watch) tr = Some r →
  w = watchSchema ∨ w = watchGraphQLTypes →
  status_of w (tree r) = Some st →
  ∃ target, (w, watching target, st) ∈ leaves (tree r).
Proof.
  intros (s & g & ws & wg & serve & p & wp & -> & _)%watch_run_open.
  intros [-> | ->] [= <-]; [exists schema|exists graphQLTypes]; simpl; set_solver.
Qed.

(** The event reaches a function of that name. *)
Lemma run_step_leaf r e r' :
  run_step r e = Some r' →
  ∃ b st st', (event_name e, b, st) ∈ leaves (tree r) ∧
              (event_name e, b, st') ∈ leaves (tree r') ∧
              leaf_step b st e = Some st'.
Proof.
  intros (l1 & b & st & st' & l2 & E1 & E2 & Hs)%run_step_tree%step_leaves.
  exists b, st, st'. rewrite E1, E2. set_solver.
Qed.

Lemma watch_body tr r n b st :
  exec (start_run watch) tr = Some r →
  (n, b, st) ∈ leaves (tree r) →
  n = watchSchema ∨ n = watchGraphQLTypes →
  ∃ target, b = watching target.
Proof.
  intros (s & g & ws & wg & serve & p & wp & -> & _)%watch_run_open. simpl.
  intros Hin Hn.
  repeat (apply elem_of_cons in Hin as [[= -> -> ->]|Hin];
          [destruct Hn; simplify_eq/=; eauto|]).
  by apply elem_of_nil in Hin.
Qed.

(** C7: a watch task of [watch] never resolves; it is rejected exactly when
    its watcher has emitted an error; and its rejection fails [watch]. *)
Theorem watch_task_fails_on_watcher_error tr r w :
  exec (start_run watch) tr = Some r →
  w = watchSchema ∨ w = watchGraphQLTypes →
  status_of w (tree r) ≠ Some Succeeded ∧
  (status_of w (tree r) = Some Failed ↔ Emit w WatchError ∈ tr) ∧
  (status_of w (tree r) = Some Failed → outcome (tree r) = Failed).
Proof.
  intros Hex Hw.
  assert (Hnever : ∀ tr' r' target, exec (start_run watch) tr' = Some r' →
            (w, watching target, Succeeded) ∉ leaves (tree r')).
  { intros tr' r' target Hex' Hin.
    apply (watching_Succeeded_history _ _ _ _ _ Hex') in Hin.
    simpl in Hin. destruct Hw; set_solver. }
  split; [|split].
  - intros Hs. destruct (watch_status_of_watching _ _ _ _ Hex Hw Hs) as [target Hin].
    by apply (Hnever _ _ _ Hex) in Hin.
  - split.
    + intros Hs. destruct (watch_status_of_watching _ _ _ _ Hex Hw Hs) as [target Hin].
      apply (watching_Failed_history _ _ _ _ _ Hex) in Hin as [Hin|?]; [|done].
      simpl in Hin. destruct Hw; set_solver.
    + intros (pre & post & ->)%list_elem_of_split.
      apply exec_through in Hex as (r1 & r2 & Hpre & Hstep & _ & Hpost).
      destruct (run_step_leaf _ _ _ Hstep) as (b & st & st' & Hin1 & Hin2 & Hs).
      simpl in Hin1, Hin2.
      destruct (watch_body _ _ _ _ _ Hpre Hin1 Hw) as [target ->].
      assert (st' = Failed) as ->.
      { destruct st; simplify_eq/=; try done.
        by apply (Hnever _ _ _ Hpre) in Hin1. }
      apply (Failed_kept _ _ _ _ _ Hpost) in Hin2.
      assert (exec (start_run watch) (pre ++ Emit w WatchError :: post) = Some r)
        as Hex.
      { rewrite exec_app, Hpre. simpl. by rewrite Hstep. }
      by apply (watch_status_of _ _ _ _ _ Hex Hin2).
  - destruct (watch_run_open _ _ Hex)
      as (s & g & ws & wg & serve & p & wp & -> & Hgate & _).
    destruct Hw as [-> | ->]; intros [= ->];
      (destruct Hgate as [[-> ->]|Hidle]; [|by destruct Hidle as (?&?&?&?&?)]);
      rewrite watch_run_outcome;
      rewrite (parallel_outcome_Failed (_ :: _ :: _ :: _)) by set_solver; done.
Qed.

(** A function started during a run has been touched at its end. *)
Lemma exec_started r0 tr r n :
  exec r0 tr = Some r → Start n ∈ tr →
  ∃ b st, (n, b, st) ∈ leaves (tree r) ∧ st ≠ Idle.
Proof.
  intros Hex (pre & post & ->)%list_elem_of_split.
  apply exec_through in Hex as (r1 & r2 & _ & Hstep & _ & Hpost).
  apply run_step_Start in Hstep as [b Hrun].
  destruct (exec_started_kept _ _ _ _ _ _ Hpost Hrun) as (st & ? & ?); [done|].
  eauto.
Qed.

(** A function that failed during a run has failed at its end. *)
Lemma exec_failed r0 tr r n :
  exec r0 tr = Some r → Fail n ∈ tr → (n, Work, Failed) ∈ leaves (tree r).
Proof.
  intros Hex (pre & post & ->)%list_elem_of_split.
  apply exec_through in Hex as (r1 & r2 & _ & Hstep & _ & Hpost).
  destruct (run_step_leaf _ _ _ Hstep) as (b & st & st' & _ & Hin & Hs).
  simpl in Hin. destruct b, st; simplify_eq/=.
  by apply (Failed_kept _ _ _ _ _ Hpost).
Qed.

(** A function that completed during a run has completed at its end. *)
Lemma exec_finished r0 tr r n :
  exec r0 tr = Some r → Finish n ∈ tr → (n, Work, Succeeded) ∈ leaves (tree r).
Proof.
  intros Hex (pre & post & ->)%list_elem_of_split.
  apply exec_through in Hex as (r1 & r2 & _ & Hstep & _ & Hpost).
  destruct (run_step_leaf _ _ _ Hstep) as (b & st & st' & _ & Hin & Hs).
  simpl in Hin. destruct b, st; simplify_eq/=.
  refine (exec_leaf_kept _ _ _ _ _ _ _ Hpost Hin).
  by intros [] st'.
Qed.

Lemma work_Failed_history n r tr r' :
  exec r tr = Some r' → (n, Work, Failed) ∈ leaves (tree r') →
  (n, Work, Failed) ∈ leaves (tree r) ∨ Fail n ∈ tr.
Proof.
  intros Hex Hin.
  destruct (exec_leaf_history (λ e, e = Fail n) n Work Failed r tr r')
    as [?|(e & He & ->)]; auto.
  intros e st0 Hn Hs. right. destruct e, st0; simplify_eq/=; done.
Qed.

(** *** Function names *)

Lemma step_names e t t' : step e t = Some t' → (leaves t').*1 = (leaves t).*1.
Proof.
  intros (l1 & b & st & st' & l2 & E1 & E2 & _)%step_leaves.
  by rewrite E1, E2, !fmap_app, !fmap_cons.
Qed.

Lemma exec_names r tr r' :
  exec r tr = Some r' → (leaves (tree r')).*1 = (leaves (tree r)).*1.
Proof.
  intros H.
  refine (exec_invariant (λ t, (leaves t).*1 = (leaves (tree r)).*1) r tr r' _ H eq_refl).
  intros e t t' Hs <-. by apply (step_names e).
Qed.

Lemma names_unique t n b st b' st' :
  NoDup (names t) → (n, b, st) ∈ leaves t → (n, b', st') ∈ leaves t →
  b = b' ∧ st = st'.
Proof.
  unfold names. induction (leaves t) as [|x l IH]; simpl.
  - intros _ Hin. by apply elem_of_nil in Hin.
  - rewrite NoDup_cons. intros [Hx Hl] Hin Hin'.
    assert (∀ b0 st0, (n, b0, st0) ∈ l → n ∈ l.*1.*1) as Hname.
    { intros b0 st0 H0. apply list_elem_of_fmap. exists (n, b0).
      split; [done|]. apply list_elem_of_fmap. by exists (n, b0, st0). }
    apply elem_of_cons in Hin as [E|Hin]; apply elem_of_cons in Hin' as [E'|Hin'];
      subst; simpl in *.
    + by injection E' as <- <-.
    + destruct Hx. by eapply Hname.
    + destruct Hx. by eapply Hname.
    + by apply IH.
Qed.

(** The functions of each composite of the script have different names. *)
Lemma composite_names t tr r :
  t = build ∨ t = watch ∨ t = watchPhabricator →
  exec (start_run t) tr = Some r → NoDup (names (tree r)).
Proof.
  intros Ht Hex. unfold names. rewrite (exec_names _ _ _ Hex).
  destruct Ht as [-> | [-> | ->]]; by_decide.
Qed.

(** Every function of the composites does its work and ends, or waits on a
    watcher with [reject] registered for ['error']. *)
Lemma composite_bodies t tr r n b st :
  t = build ∨ t = watch ∨ t = watchPhabricator →
  exec (start_run t) tr = Some r → (n, b, st) ∈ leaves (tree r) →
  b = Work ∨ ∃ target, b = watching target.
Proof.
  intros Ht Hex Hin.
  assert ((n, b) ∈ (leaves (tree r)).*1) as Hnb.
  { apply list_elem_of_fmap. by exists (n, b, st). }
  rewrite (exec_names _ _ _ Hex) in Hnb.
  destruct Ht as [-> | [-> | ->]]; simpl in Hnb;
    rewrite !elem_of_cons, elem_of_nil in Hnb; naive_solver.
Qed.

(** *** Failure of a composite *)

Lemma series_outcome_Failed_elem sts : series_outcome sts = Failed → Failed ∈ sts.
Proof.
  induction sts as [|st rest IH]; simpl; [done|].
  destruct st; try done; try (intros _; set_solver).
  destruct rest as [|st' rest']; [done|].
  destruct (series_outcome (st' :: rest')); try done. intros _. set_solver.
Qed.

Lemma parallel_outcome_Failed_elem sts : parallel_outcome sts = Failed → Failed ∈ sts.
Proof.
  unfold parallel_outcome. case_bool_decide; [done|].
  by repeat destruct (forallb _ sts).
Qed.

(** A composite that has failed holds a function that has. *)
Lemma outcome_Failed_leaf t :
  outcome t = Failed → ∃ n b, (n, b, Failed) ∈ leaves t.
Proof.
  induction t as [n b st|l IH|l IH] using rt_ind'; simpl.
  - intros ->. exists n, b. set_solver.
  - intros (x & Hx & Hin)%series_outcome_Failed_elem%list_elem_of_fmap.
    rewrite Forall_forall in IH. destruct (IH x Hin) as (n & b & Hnb); [done|].
    exists n, b. apply list_elem_of_join. exists (leaves x). split; [done|].
    apply list_elem_of_fmap. by exists x.
  - intros (x & Hx & Hin)%parallel_outcome_Failed_elem%list_elem_of_fmap.
    rewrite Forall_forall in IH. destruct (IH x Hin) as (n & b & Hnb); [done|].
    exists n, b. apply list_elem_of_join. exists (leaves x). split; [done|].
    apply list_elem_of_fmap. by exists x.
Qed.

Lemma series_outcome_Failed done sts :
  Forall (λ st, st = Succeeded) done →
  series_outcome (done ++ Failed :: sts) = Failed.
Proof.
  induction 1 as [|st done -> _ IH]; simpl; [done|].
  destruct (done ++ Failed :: sts) eqn:E; [by destruct done|].
  by rewrite IH.
Qed.

(** In a run, a function that has failed has failed the composite. *)
Lemma ordered_Failed t n b :
  ordered t → (n, b, Failed) ∈ leaves t → outcome t = Failed.
Proof.
  induction t as [n' b' st|l IH|l IH] using rt_ind'; simpl.
  - intros _ Hin. apply list_elem_of_singleton in Hin. by injection Hin as _ _ <-.
  - inversion_clear 1 as [|? Hall Hsort|].
    intros (lx & Hin & (x & -> & Hx)%list_elem_of_fmap)%list_elem_of_join.
    apply list_elem_of_split in Hx as (pre & post & ->).
    rewrite Forall_app, Forall_cons in IH, Hall.
    destruct IH as (_ & IHx & _). destruct Hall as (_ & Hordx & _).
    rewrite fmap_app, fmap_cons, (IHx Hordx Hin).
    apply series_outcome_Failed, Forall_fmap, Forall_forall. intros y Hy.
    apply StronglySorted_app in Hsort as (Hcross & _).
    destruct (Hcross y x) as [?|Hu%untouched_Forall]; [done|set_solver|done|].
    rewrite Forall_forall in Hu. by apply Hu in Hin.
  - inversion_clear 1 as [| |? Hall].
    intros (lx & Hin & (x & -> & Hx)%list_elem_of_fmap)%list_elem_of_join.
    rewrite Forall_forall in IH, Hall.
    apply parallel_outcome_Failed, list_elem_of_fmap. exists x.
    split; [|done]. symmetry. by apply (IH x Hx (Hall x Hx)).
Qed.

Lemma init_leaves_Idle t n b st : (n, b, st) ∈ leaves (init t) → st = Idle.
Proof.
  intros Hin. pose proof (untouched_init t) as Hidle%untouched_Forall.
  rewrite Forall_forall in Hidle. by apply Hidle in Hin.
Qed.

Lemma watchPhabricator_run_open tr r :
  exec (start_run watchPhabricator) tr = Some r →
  ∃ p wp, tree r = watchPhabricator_run p wp ∧ (p = Succeeded ∨ wp = Idle).
Proof.
  intros [Hshape Hord]%exec_start. destruct r as [t inv]; simpl in *.
  unfold watchPhabricator in Hshape. reveal_tree. reveal_order.
  repeat match goal with H : before _ _ |- _ =>
    apply before_leaves in H; simpl in H; destruct H end;
  repeat match goal with H : Forall _ (_ :: _) |- _ =>
    apply Forall_cons in H as [? ?] end;
  simpl in *; subst; eexists _, _; (split; [reflexivity|]); auto.
Qed.

(** In both composites that hold it, the watcher of the extension files is
    gated by the copy. *)
Lemma copy_gates_watcher t tr r :
  t = watchPhabricator ∨ t = watch →
  exec (start_run t) tr = Some r →
  ∃ p wp, status_of phabricator (tree r) = Some p ∧
          (∀ b st, (watchPhabricator_fn, b, st) ∈ leaves (tree r) → st = wp) ∧
          (p = Succeeded → (phabricator, Work, Succeeded) ∈ leaves (tree r)) ∧
          (p = Succeeded ∨ wp = Idle).
Proof.
  intros [-> | ->] Hex.
  - destruct (watchPhabricator_run_open _ _ Hex) as (p & wp & -> & Hgate).
    exists p, wp. repeat split; try done.
    + simpl. intros b st Hin.
      rewrite !elem_of_cons, elem_of_nil in Hin. naive_solver.
    + intros ->. simpl. set_solver.
  - destruct (watch_run_open _ _ Hex)
      as (s & g & ws & wg & serve & p & wp & -> & _ & Hgate).
    exists p, wp. repeat split; try done.
    + simpl. intros b st Hin.
      rewrite !elem_of_cons, elem_of_nil in Hin. naive_solver.
    + intros ->. simpl. set_solver.
Qed.

(** Once the composite is reached, the copy can start at once. *)
Lemma asset_copy_can_start t tr r :
  t = watchPhabricator ∨ t = watch →
  exec (start_run t) tr = Some r →
  status_of phabricator (tree r) = Some Idle →
  (t = watch → status_of schema (tree r) = Some Succeeded ∧
               status_of graphQLTypes (tree r) = Some Succeeded) →
  is_Some (run_step r (Start phabricator)).
Proof.
  intros [-> | ->] Hex.
  - destruct (watchPhabricator_run_open _ _ Hex) as (p & wp & Ht & Hgate).
    destruct r as [t inv]. simpl in *. subst t. intros [= ->] _.
    destruct Hgate as [?| ->]; [done|]. by eexists.
  - destruct (watch_run_open _ _ Hex)
      as (s & g & ws & wg & serve & p & wp & Ht & _ & Hgate).
    destruct r as [t inv]. simpl in *. subst t. intros [= ->] Hcodegen.
    destruct Hcodegen as [[= ->] [= ->]]; [done|].
    destruct Hgate as [?| ->]; [done|].
    destruct ws, wg, serve; by eexists.
Qed.

(** Where the copy and its watcher stand in a run, and what the runner can
    start next. *)
Lemma copy_and_watcher t tr r :
  t = watchPhabricator ∨ t = watch →
  exec (start_run t) tr = Some r →
  ∃ p wp,
    (phabricator, Work, p) ∈ leaves (tree r) ∧
    (watchPhabricator_fn, watching phabricator, wp) ∈ leaves (tree r) ∧
    status_of phabricator (tree r) = Some p ∧
    ((t = watch → status_of schema (tree r) = Some Succeeded ∧
                  status_of graphQLTypes (tree r) = Some Succeeded) →
     (p = Idle → is_Some (run_step r (Start phabricator))) ∧
     (p = Succeeded → wp = Idle → is_Some (run_step r (Start watchPhabricator_fn)))).
Proof.
  intros [-> | ->] Hex.
  - destruct (watchPhabricator_run_open _ _ Hex) as (p & wp & Ht & _).
    destruct r as [t inv]. simpl in *. subst t. exists p, wp.
    split; [set_solver|]. split; [set_solver|]. split; [done|].
    intros _. split; [intros ->|intros -> ->]; by eexists.
  - destruct (watch_run_open _ _ Hex)
      as (s & g & ws & wg & serve & p & wp & Ht & _).
    destruct r as [t inv]. simpl in *. subst t. exists p, wp.
    split; [set_solver|]. split; [set_solver|]. split; [done|].
    intros Hcodegen. destruct Hcodegen as [[= ->] [= ->]]; [done|].
    split; [intros ->|intros -> ->]; destruct ws, wg, serve; by eexists.
Qed.

(** C9, as amended: in [watchPhabricator], on its own or inside [watch],
    the watcher of the extension files is started only after the copy has
    completed, and no event of that watcher comes before; when the copy is
    rejected, the composite has failed, the copy has not completed and the
    watcher is never started; when a codegen task of [watch] is rejected,
    [watch] has failed and the copy is never started; and the copy depends
    on no file change: once the runner has started every function that is
    due (in [watch], provided both codegen tasks have completed), the copy
    has been started, and it is still running, or it was rejected, or it has
    completed and the watcher has been started after it. *)
Theorem watchPhabricator_copies_first t tr r :
  t = watchPhabricator ∨ t = watch →
  exec (start_run t) tr = Some r →
  (∀ pre post, tr = pre ++ Start watchPhabricator_fn :: post →
               Finish phabricator ∈ pre ∧
               ∀ ev, Emit watchPhabricator_fn ev ∉ pre) ∧
  (Fail phabricator ∈ tr →
   outcome (tree r) = Failed ∧
   (Finish phabricator ∉ tr) ∧
   (Start watchPhabricator_fn ∉ tr)) ∧
  (t = watch → Fail schema ∈ tr ∨ Fail graphQLTypes ∈ tr →
   outcome (tree r) = Failed ∧ (Start phabricator ∉ tr)) ∧
  ((t = watch → status_of schema (tree r) = Some Succeeded ∧
                status_of graphQLTypes (tree r) = Some Succeeded) →
   (∀ n, run_step r (Start n) = None) →
   Start phabricator ∈ tr ∧
   (status_of phabricator (tree r) = Some Running ∨
    Fail phabricator ∈ tr ∨
    (Finish phabricator ∈ tr ∧ Start watchPhabricator_fn ∈ tr))).
Proof.
  intros Ht Hex.
  assert (t = build ∨ t = watch ∨ t = watchPhabricator) as Ht' by tauto.
  pose proof (composite_names _ _ _ Ht' Hex) as Hnames.
  destruct (copy_and_watcher _ _ _ Ht Hex) as (p & wp & Hp & Hwp & Hstatus & Hnext).
  split; [|split; [|split]].
  - intros pre post ->.
    apply exec_through in Hex as (r1 & r2 & Hr1 & Hstep & Hpre & _). split.
    + apply run_step_Start in Hstep as [b Hrun].
      destruct (copy_gates_watcher _ _ _ Ht Hpre)
        as (p' & wp' & _ & Hwp' & Hp' & Hgate).
      apply Hwp' in Hrun as <-. destruct Hgate as [->|?]; [|done].
      specialize (Hp' eq_refl).
      apply (work_Succeeded_history _ _ _ _ Hpre) in Hp' as [Hp'|Hp'].
      * exfalso. destruct Ht as [-> | ->]; simpl in Hp'; set_solver.
      * set_solver.
    + intros ev (before_ & after & ->)%list_elem_of_split.
      destruct (exec_through _ _ _ _ _ Hr1)
        as (ra & r0 & _ & Hemit & Hbefore & Hafter).
      destruct (run_step_leaf _ _ _ Hemit) as (b & st & st' & _ & Hin & Hs).
      apply leaf_step_not_Idle in Hs.
      destruct (exec_started_kept _ _ _ _ _ _ Hafter Hin Hs) as (st1 & Hin1 & Hst1).
      destruct (run_step_leaf _ _ _ Hstep) as (b0 & st0 & ? & Hin0 & _ & Hs0).
      destruct (copy_gates_watcher _ _ _ Ht Hr1) as (p' & wp' & _ & Hwp' & _).
      simpl in Hin1, Hin0. apply Hwp' in Hin1 as ->. apply Hwp' in Hin0 as ->.
      by destruct b0, wp'.
  - intros Hfail. pose proof (exec_failed _ _ _ _ Hex Hfail) as Hfailed.
    destruct (names_unique _ _ _ _ _ _ Hnames Hp Hfailed) as [_ ->].
    split; [|split].
    + eapply ordered_Failed; [by eapply exec_ordered|done].
    + intros Hdone%(exec_finished _ _ _ _ Hex).
      by destruct (names_unique _ _ _ _ _ _ Hnames Hfailed Hdone).
    + intros Hstart.
      destruct (exec_started _ _ _ _ Hex Hstart) as (b & st & Hin & Hst).
      destruct (names_unique _ _ _ _ _ _ Hnames Hwp Hin) as [_ <-].
      destruct (copy_gates_watcher _ _ _ Ht Hex) as (p' & wp' & Hp' & Hwp' & _ & Hgate).
      rewrite Hstatus in Hp'. injection Hp' as <-.
      apply Hwp' in Hwp as ->. by destruct Hgate.
  - intros -> Hfail.
    assert (∃ c, (c = schema ∨ c = graphQLTypes) ∧
                 (c, Work, Failed) ∈ leaves (tree r)) as (c & Hc & Hfailed).
    { destruct Hfail as [Hfail|Hfail]; eexists; (split; [|by eapply exec_failed]); auto. }
    split; [eapply ordered_Failed; [by eapply exec_ordered|done]|].
    intros Hstart.
    destruct (exec_started _ _ _ _ Hex Hstart) as (b & st & Hin & Hst).
    destruct (names_unique _ _ _ _ _ _ Hnames Hp Hin) as [_ <-].
    destruct (watch_run_open _ _ Hex)
      as (s & g & ws & wg & serve & p' & wp' & Hr & Hgate & _).
    rewrite Hr in Hfailed, Hp. simpl in Hfailed, Hp.
    rewrite !elem_of_cons, elem_of_nil in Hfailed, Hp.
    destruct Hc as [-> | ->]; naive_solver.
  - intros Hcodegen Hquiescent. destruct (Hnext Hcodegen) as [Hcopy Hwatcher].
    assert (p ≠ Idle) as Hstarted.
    { intros ->. destruct (Hcopy eq_refl) as [r' Hr']. by rewrite Hquiescent in Hr'. }
    split.
    + destruct (exec_started_history _ _ _ _ _ _ Hex Hp Hstarted)
        as [(st0 & Hin0 & Hst0)|?]; [|done].
      by apply init_leaves_Idle in Hin0.
    + destruct p; [done|by left| |].
      * right. right.
        assert (wp ≠ Idle) as Hwatching.
        { intros ->. destruct (Hwatcher eq_refl eq_refl) as [r' Hr'].
          by rewrite Hquiescent in Hr'. }
        split.
        -- destruct (work_Succeeded_history _ _ _ _ Hex Hp) as [Hinit|?]; [|done].
           by apply init_leaves_Idle in Hinit.
        -- destruct (exec_started_history _ _ _ _ _ _ Hex Hwp Hwatching)
             as [(st0 & Hin0 & Hst0)|?]; [|done].
           by apply init_leaves_Idle in Hin0.
      * right. left.
        destruct (work_Failed_history _ _ _ _ Hex Hp) as [Hinit|?]; [|done].
        by apply init_leaves_Idle in Hinit.
Qed.

(** C9, as stated, fails on the run of [watch] in which the schema codegen
    is rejected: [watch] has failed and the copy never starts. *)
Lemma watch_without_asset_sync :
  ∃ r, exec (start_run watch) [Start schema; Fail schema] = Some r ∧
       outcome (tree r) = Failed ∧
       ∀ tr' r', exec r tr' = Some r' →
                 (Start phabricator ∉ tr') ∧ (Finish phabricator ∉ tr').
Proof.
  eexists. split; [reflexivity|]. split; [reflexivity|].
  intros tr' r' Hex'.
  assert (∀ e, e = Start phabricator ∨ e = Finish phabricator → e ∉ tr') as Hno.
  { intros e He (pre & post & ->)%list_elem_of_split.
    apply exec_through in Hex' as (r1 & r2 & _ & Hstep & Hpre & _).
    assert (exec (start_run watch)
              ([Start schema; Fail schema] ++ pre ++ [e]) = Some r2) as Hex.
    { by rewrite exec_app. }
    apply (Failed_kept schema Work) in Hpre; [|simpl; set_solver].
    destruct (run_step_leaf _ _ _ Hstep) as (b & st & st' & _ & Hin & Hs).
    destruct (watch_run_open _ _ Hex)
      as (s & g & ws & wg & serve & p & wp & Ht & Hgate & _).
    rewrite Ht in Hpre, Hin. simpl in Hpre, Hin.
    assert (s = Failed) as -> by set_solver.
    assert (p = st') as ->.
    { destruct He as [-> | ->]; simpl in Hin; set_solver. }
    assert (st' ≠ Idle).
    { intros ->. destruct He as [-> | ->], b, st; simplify_eq/=. }
    destruct Hgate as [[? _]|(_ & _ & _ & ? & _)]; done. }
  split; apply Hno; auto.
Qed.

(** A run of [build]: the bundler and the copy are only started once both
    codegen tasks have completed. *)
Lemma build_run_open tr r :
  exec (start_run build) tr = Some r →
  ∃ s g w p,
    tree r = build_run s g w p ∧
    ((s = Succeeded ∧ g = Succeeded) ∨ (w = Idle ∧ p = Idle)).
Proof.
  intros [Hshape Hord]%exec_start. destruct r as [t inv]; simpl in *.
  unfold build in Hshape. reveal_tree. reveal_order.
  repeat match goal with H : before _ _ |- _ =>
    apply before_leaves in H; simpl in H; destruct H end;
  repeat match goal with H : Forall _ (_ :: _) |- _ =>
    apply Forall_cons in H as [? ?] end;
  simpl in *; subst; eexists _, _, _, _; (split; [reflexivity|]); auto.
Qed.

(** C2: in every run of [build], a start of the bundler or of the asset copy
    comes after both codegen tasks have completed. *)
Theorem build_codegen_before_bundle tr r pre w post :
  exec (start_run build) tr = Some r →
  tr = pre ++ Start w :: post →
  w = webpack ∨ w = phabricator →
  Finish schema ∈ pre ∧ Finish graphQLTypes ∈ pre.
Proof.
  intros Hex -> Hw.
  apply exec_through in Hex as (r1 & r2 & _ & Hstep & Hpre & _).
  apply run_step_Start in Hstep as [b Hrun].
  destruct (build_run_open _ _ Hpre) as (s & g & bundle & copy & Hr2 & Hgate).
  pose proof (work_Succeeded_history schema _ _ _ Hpre) as Hs.
  pose proof (work_Succeeded_history graphQLTypes _ _ _ Hpre) as Hg.
  rewrite Hr2 in Hrun, Hs, Hg. simpl in Hrun, Hs, Hg.
  destruct Hgate as [[-> ->]|[-> ->]].
  - destruct Hs as [Hs|Hs]; [set_solver|set_solver|].
    destruct Hg as [Hg|Hg]; [set_solver|set_solver|].
    set_solver.
  - exfalso. destruct Hw as [-> | ->]; set_solver.
Qed.
End composites.

(** A complete run of [build]. *)
Lemma build_codegen_before_bundle_witness :
  Gulp.Finish Gulp.schema
    ∈ [Gulp.Start Gulp.schema; Gulp.Start Gulp.graphQLTypes;
       Gulp.Finish Gulp.schema; Gulp.Finish Gulp.graphQLTypes] ∧
  Gulp.Finish Gulp.graphQLTypes
    ∈ [Gulp.Start Gulp.schema; Gulp.Start Gulp.graphQLTypes;
       Gulp.Finish Gulp.schema; Gulp.Finish Gulp.graphQLTypes].
Proof.
  eapply (build_codegen_before_bundle
            [Gulp.Start Gulp.schema; Gulp.Start Gulp.graphQLTypes;
             Gulp.Finish Gulp.schema; Gulp.Finish Gulp.graphQLTypes;
             Gulp.Start Gulp.webpack; Gulp.Start Gulp.phabricator;
             Gulp.Finish Gulp.phabricator; Gulp.Finish Gulp.webpack]
            _ _ Gulp.webpack
            [Gulp.Start Gulp.phabricator; Gulp.Finish Gulp.phabricator;
             Gulp.Finish Gulp.webpack]).
  - vm_compute. reflexivity.
  - reflexivity.
  - left. reflexivity.
Defined.

(** A run of [watch] in which the watcher of the schema files reports an error. *)
Lemma watch_task_fails_on_watcher_error_witness :
  ∃ r, Gulp.exec (Gulp.start_run Gulp.watch)
         [Gulp.Start Gulp.schema; Gulp.Start Gulp.graphQLTypes;
          Gulp.Finish Gulp.graphQLTypes; Gulp.Finish Gulp.schema;
          Gulp.Start Gulp.watchSchema; Gulp.Start Gulp.watchGraphQLTypes;
          Gulp.Emit Gulp.watchSchema Gulp.Change;
          Gulp.Emit Gulp.watchSchema Gulp.WatchError] = Some r ∧
       Gulp.status_of Gulp.watchSchema (Gulp.tree r) = Some Gulp.Failed ∧
       Gulp.outcome (Gulp.tree r) = Gulp.Failed.
Proof.
  eexists. split; [vm_compute; reflexivity|].
  match goal with |- Gulp.status_of _ (Gulp.tree ?r) = _ ∧ _ =>
    destruct (watch_task_fails_on_watcher_error
      [Gulp.Start Gulp.schema; Gulp.Start Gulp.graphQLTypes;
       Gulp.Finish Gulp.graphQLTypes; Gulp.Finish Gulp.schema;
       Gulp.Start Gulp.watchSchema; Gulp.Start Gulp.watchGraphQLTypes;
       Gulp.Emit Gulp.watchSchema Gulp.Change;
       Gulp.Emit Gulp.watchSchema Gulp.WatchError] r Gulp.watchSchema)
      as (_ & Hfailed & Hcomposite)
  end.
  - vm_compute. reflexivity.
  - left. reflexivity.
  - split; [|apply Hcomposite]; apply Hfailed; set_solver.
Defined.

(** A run of [watch] without any file change, up to the point where every
    function has been started: the copy has completed and its watcher has
    been started after it. *)
Lemma watchPhabricator_copies_first_witness :
  Gulp.Finish Gulp.phabricator
    ∈ [Gulp.Start Gulp.schema; Gulp.Start Gulp.graphQLTypes;
       Gulp.Finish Gulp.graphQLTypes; Gulp.Finish Gulp.schema;
       Gulp.Start Gulp.watchSchema; Gulp.Start Gulp.watchGraphQLTypes;
       Gulp.Start Gulp.webpackServe;
       Gulp.Start Gulp.phabricator; Gulp.Finish Gulp.phabricator] ∧
  Gulp.Start Gulp.phabricator
    ∈ [Gulp.Start Gulp.schema; Gulp.Start Gulp.graphQLTypes;
       Gulp.Finish Gulp.graphQLTypes; Gulp.Finish Gulp.schema;
       Gulp.Start Gulp.watchSchema; Gulp.Start Gulp.watchGraphQLTypes;
       Gulp.Start Gulp.webpackServe;
       Gulp.Start Gulp.phabricator; Gulp.Finish Gulp.phabricator;
       Gulp.Start Gulp.watchPhabricator_fn] ∧
  Gulp.Start Gulp.watchPhabricator_fn
    ∈ [Gulp.Start Gulp.schema; Gulp.Start Gulp.graphQLTypes;
       Gulp.Finish Gulp.graphQLTypes; Gulp.Finish Gulp.schema;
       Gulp.Start Gulp.watchSchema; Gulp.Start Gulp.watchGraphQLTypes;
       Gulp.Start Gulp.webpackServe;
       Gulp.Start Gulp.phabricator; Gulp.Finish Gulp.phabricator;
       Gulp.Start Gulp.watchPhabricator_fn].
Proof.
  destruct (watchPhabricator_copies_first Gulp.watch
    [Gulp.Start Gulp.schema; Gulp.Start Gulp.graphQLTypes;
     Gulp.Finish Gulp.graphQLTypes; Gulp.Finish Gulp.schema;
     Gulp.Start Gulp.watchSchema; Gulp.Start Gulp.watchGraphQLTypes;
     Gulp.Start Gulp.webpackServe;
     Gulp.Start Gulp.phabricator; Gulp.Finish Gulp.phabricator;
     Gulp.Start Gulp.watchPhabricator_fn]
    (Gulp.Run (GulpInv.watch_run Gulp.Succeeded Gulp.Succeeded Gulp.Running
                 Gulp.Running Gulp.Running Gulp.Succeeded Gulp.Running) []))
    as (Hfirst & _ & _ & Hsync).
  - right. reflexivity.
  - vm_compute. reflexivity.
  - split; [apply (Hfirst _ []); reflexivity|].
    destruct Hsync as [Hstarted Hstate].
    + intros _. split; reflexivity.
    + intros []; reflexivity.
    + split; [exact Hstarted|].
      destruct Hstate as [Hrunning|[Hfail|[_ Hwatcher]]].
      * vm_compute in Hrunning. discriminate Hrunning.
      * exfalso. set_solver.
      * exact Hwatcher.
Defined.

(** ** The bundle task *)

Section webpack.
Import Tasks Webpack.
Context `{Collaborators}.

Lemma hasErrors_spec stats :
  hasErrors stats = true ↔ compilation_errors stats ≠ [].
Proof.
  unfold hasErrors. rewrite bool_decide_eq_true.
  destruct (compilation_errors stats); simpl; split; (done || lia).
Qed.

(** What [webpack] does once the bundler has handed over its statistics. *)
Lemma webpack_run w stats w1 :
  compiler_run w = (Resolved stats, w1) →
  webpack w =
    (if hasErrors stats
     then Rejected (Error (lit "Failed to compile") false)
     else Resolved (),
     World (files w1) (dirs w1)
           (console w1 ++ [stats_toString WEBPACK_STATS_OPTIONS stats])).
Proof.
  intros Hrun. unfold webpack, mbind, async_bind. rewrite Hrun.
  unfold logWebpackStats, log. by destruct (hasErrors stats).
Qed.

(** A bundler run that fails as a whole rejects the task before anything
    is logged. *)
Lemma webpack_run_rejected w e w1 :
  compiler_run w = (Rejected e, w1) → webpack w = (Rejected e, w1).
Proof. intros Hrun. unfold webpack, mbind, async_bind. by rewrite Hrun. Qed.

(** C3: once the bundler run has completed, [webpack] logs the formatted
    and filtered diagnostics whether or not it goes on to fail, and it is
    rejected exactly when the diagnostics hold an error. *)
Theorem webpack_logs_and_fails_on_errors w stats w1 :
  compiler_run w = (Resolved stats, w1) →
  console (webpack w).2 =
    console w1 ++ [jsonToString (toJson WEBPACK_STATS_OPTIONS stats) true] ∧
  (rejected (webpack w).1 = true ↔ compilation_errors stats ≠ []) ∧
  (compilation_errors stats ≠ [] →
   (webpack w).1 = Rejected (Error (lit "Failed to compile") false)).
Proof.
  intros Hrun. rewrite (webpack_run _ _ _ Hrun), <-hasErrors_spec. simpl.
  split; [done|]. destruct (hasErrors stats); simpl; split; done.
Qed.

(** What the worker-script pattern matches: a path through
    [node_modules/monaco-editor/] to [editorSimpleWorker], any character and
    [js], the rest of the line, and on the next line
    [dependency is an expression]. *)
Lemma WORKER_WARNING_matches m :
  Regex.matches WORKER_WARNING m ↔
  ∃ dir c rest before_,
    m = lit "node_modules/monaco-editor/" ++ dir ++ lit "/editorSimpleWorker" ++
        [c] ++ lit "js" ++ rest ++ [10%N] ++ before_ ++
        lit "dependency is an expression" ∧
    Forall (λ c, Regex.line_terminator c = false) dir ∧
    Regex.line_terminator c = false ∧
    Forall (λ c, Regex.line_terminator c = false) rest ∧
    Forall (λ c, Regex.line_terminator c = false) before_.
Proof.
  unfold WORKER_WARNING. split.
  - intros Hm.
    apply matches_Cat in Hm as (? & ? & -> & ->%matches_Lit & Hm).
    apply matches_Cat in Hm as (dir & ? & -> & Hdir%matches_Star_Dot & Hm).
    apply matches_Cat in Hm as (? & ? & -> & ->%matches_Lit & Hm).
    apply matches_Cat in Hm as (? & ? & -> & (c & -> & Hc)%matches_Dot & Hm).
    apply matches_Cat in Hm as (? & ? & -> & ->%matches_Lit & Hm).
    apply matches_Cat in Hm as (rest & ? & -> & Hrest%matches_Star_Dot & Hm).
    apply matches_Cat in Hm as (? & ? & -> & ->%matches_Chr & Hm).
    apply matches_Cat in Hm as (before_ & ? & -> & Hbefore%matches_Star_Dot & Hm).
    apply matches_Lit in Hm as ->.
    by exists dir, c, rest, before_.
  - intros (dir & c & rest & before_ & -> & Hdir & Hc & Hrest & Hbefore).
    repeat (apply Regex.m_cat);
      try (by apply matches_Lit); try (by apply matches_Star_Dot).
    + by apply Regex.m_dot.
    + apply Regex.m_chr.
Qed.

Example worker_warning_samples :
  Regex.test WORKER_WARNING Sample.monaco_warning = true ∧
  Regex.test WORKER_WARNING Sample.other_warning = false.
Proof. split; vm_compute; reflexivity. Qed.

Lemma filterWarnings_spec ws excluded warning :
  warning ∈ filterWarnings ws excluded ↔ warning ∈ ws ∧ excluded warning = false.
Proof. unfold filterWarnings. rewrite list_elem_of_filter. tauto. Qed.

(** C6: a warning of the bundler is left out of the logged diagnostics
    exactly when the worker-script pattern matches somewhere in its text;
    and a run without errors resolves whatever its warnings are. *)
Theorem worker_warning_filtered w stats w1 warning :
  compiler_run w = (Resolved stats, w1) →
  warning ∈ compilation_warnings stats →
  let shown := toJson WEBPACK_STATS_OPTIONS stats in
  console (webpack w).2 = console w1 ++ [jsonToString shown true] ∧
  (warning ∉ json_warnings shown ↔
   ∃ u m v, warning = u ++ m ++ v ∧ Regex.matches WORKER_WARNING m) ∧
  (compilation_errors stats = [] → (webpack w).1 = Resolved ()).
Proof.
  intros Hrun Hin shown. rewrite (webpack_run _ _ _ Hrun). simpl.
  split; [done|]. split.
  - rewrite <-Regex_test_spec. unfold shown. simpl.
    rewrite filterWarnings_spec. simpl.
    destruct (Regex.test WORKER_WARNING warning); naive_solver.
  - intros Hnone. destruct (hasErrors stats) eqn:E; [|done].
    by apply hasErrors_spec in E.
Qed.
End webpack.

(** The bundler run of the sample: no error, two warnings. *)
Lemma webpack_logs_and_fails_on_errors_witness :
  console (@Tasks.webpack Sample.collaborators Sample.checkout).2 =
    [Sample.other_warning] ∧
  (@Tasks.webpack Sample.collaborators Sample.checkout).1 = Resolved ().
Proof.
  destruct (@webpack_logs_and_fails_on_errors Sample.collaborators
              Sample.checkout Sample.stats Sample.checkout eq_refl)
    as (Hlog & Hrejected & _).
  split; [rewrite Hlog; vm_compute; reflexivity|].
  destruct (@Tasks.webpack Sample.collaborators Sample.checkout).1 as [[]|e];
    [reflexivity|].
  exfalso. by apply Hrejected.
Defined.

(** The worker-script warning of the sample is left out of the log. *)
Lemma worker_warning_filtered_witness :
  (Sample.monaco_warning
     ∉ Webpack.json_warnings
         (Webpack.toJson Tasks.WEBPACK_STATS_OPTIONS Sample.stats)) ∧
  ∃ u m v, Sample.monaco_warning = u ++ m ++ v ∧
           Regex.matches Tasks.WORKER_WARNING m.
Proof.
  destruct (@worker_warning_filtered Sample.collaborators Sample.checkout
              Sample.stats Sample.checkout Sample.monaco_warning eq_refl)
    as (_ & Hshown & _).
  - vm_compute. set_solver.
  - assert (Sample.monaco_warning
      ∉ Webpack.json_warnings
          (Webpack.toJson Tasks.WEBPACK_STATS_OPTIONS
             Sample.stats)) as Hout by by_decide.
    split; [exact Hout|]. by apply Hshown.
Defined.

(** ** The GraphQL codegen task *)

Section graphQLTypes.
Import Tasks.
Context `{Collaborators}.

(** C8: [graphQLTypes] is rejected when the schema file cannot be read,
    when [buildSchema] does not parse it, and when the formatting
    configuration does not resolve. *)
Theorem graphQLTypes_fails_on_bad_input w :
  files w !! GRAPHQL_SCHEMA_PATH = None ∨
  (∃ schemaStr, files w !! GRAPHQL_SCHEMA_PATH = Some schemaStr ∧
                rejected (buildSchema schemaStr) = true) ∨
  rejected (resolveConfig __dirname (__dirname ++ lit "/prettier.config.js") w) = true →
  rejected (graphQLTypes w).1 = true.
Proof.
  intros Hbad. unfold graphQLTypes, mbind, async_bind, Fs.readFile, lift.
  destruct (files w !! GRAPHQL_SCHEMA_PATH) as [schemaStr|] eqn:Hread; [|done].
  destruct (buildSchema schemaStr) as [schema|e] eqn:Hparse; [|done].
  destruct (graphql_introspection schema) as [result|e]; [|done].
  destruct (resolveConfig _ _ w) as [formatOptions|e] eqn:Hconfig; [|done].
  destruct Hbad as [?|[(s & ? & Hs)|?]]; simplify_eq/=.
  by rewrite Hparse in Hs.
Qed.

(** A rejected run has not written the typings. *)
Lemma graphQLTypes_rejected_writes_nothing w :
  files w !! GRAPHQL_SCHEMA_PATH = None ∨
  (∃ schemaStr, files w !! GRAPHQL_SCHEMA_PATH = Some schemaStr ∧
                rejected (buildSchema schemaStr) = true) ∨
  rejected (resolveConfig __dirname (__dirname ++ lit "/prettier.config.js") w) = true →
  (graphQLTypes w).2 = w.
Proof.
  intros Hbad. unfold graphQLTypes, mbind, async_bind, Fs.readFile, lift.
  destruct (files w !! GRAPHQL_SCHEMA_PATH) as [schemaStr|] eqn:Hread; [|done].
  destruct (buildSchema schemaStr) as [schema|e] eqn:Hparse; [|done].
  destruct (graphql_introspection schema) as [result|e]; [|done].
  destruct (resolveConfig _ _ w) as [formatOptions|e] eqn:Hconfig; [|done].
  destruct Hbad as [?|[(s & ? & Hs)|?]]; simplify_eq/=.
  by rewrite Hparse in Hs.
Qed.
End graphQLTypes.

(** The sample checkout without its GraphQL schema. *)
Lemma graphQLTypes_fails_on_bad_input_witness :
  rejected (@Tasks.graphQLTypes Sample.collaborators
              Sample.checkout_without_graphql).1 = true.
Proof.
  apply (@graphQLTypes_fails_on_bad_input Sample.collaborators).
  left. vm_compute. reflexivity.
Defined.

(** ** The unused-exports check *)

Section str_order.
Lemma str_leb_refl x : str_leb x x = true.
Proof.
  induction x as [|a x IH]; simpl; [done|].
  by rewrite N.eqb_refl, IH, orb_true_r.
Qed.

Lemma str_le_total : Total str_le.
Proof.
  unfold Total, str_le. intros x. induction x as [|a x IH]; intros [|b y]; simpl; auto.
  destruct (N.ltb_spec a b); [auto|]. destruct (N.ltb_spec b a); [auto|].
  assert (a = b) as -> by lia. rewrite N.eqb_refl. simpl. apply IH.
Qed.

Lemma str_le_trans : Transitive str_le.
Proof.
  unfold str_le. intros x. induction x as [|a x IH]; intros [|b y] [|c z]; simpl; try done.
  rewrite !orb_true_iff, !andb_true_iff, !N.ltb_lt, !N.eqb_eq.
  intros [?|[-> ?]] [?|[-> ?]]; [left; lia|by left|by left|right].
  split; [done|]. by apply (IH y).
Qed.

Lemma str_le_antisymm : AntiSymm (=) str_le.
Proof.
  unfold str_le. intros x. induction x as [|a x IH]; intros [|b y]; simpl; try done.
  rewrite !orb_true_iff, !andb_true_iff, !N.ltb_lt, !N.eqb_eq.
  intros [?|[-> ?]] [?|[? ?]]; try lia. f_equal. by apply IH.
Qed.
(** The order is the lexicographic order of the code units. *)
Lemma str_le_lexico x y : str_le x y ↔ x = y ∨ lexico x y.
Proof.
  unfold str_le. revert y. induction x as [|a x IH]; intros [|b y]; simpl.
  - by split; [left|].
  - by split; [right|].
  - split; [done|]. by intros [?|?].
  - rewrite orb_true_iff, andb_true_iff, N.ltb_lt, N.eqb_eq, IH.
    unfold lexico at 2. simpl. unfold lexico at 2, prod_lexico. simpl.
    unfold lexico at 2, N_lexico. naive_solver.
Qed.
End str_order.

(** ** [Promise.all] *)

Section promise_all.
Context {A : Type}.
Implicit Types (ps : list (async A)) (os : list (outcome A)).

Lemma rejections_fmap_Resolved (l : list A) : rejections (Resolved <$> l) = [].
Proof. induction l as [|a l IH]; [done|exact IH]. Qed.

Lemma resolutions_fmap_Resolved (l : list A) : resolutions (Resolved <$> l) = l.
Proof. induction l as [|a l IH]; [done|]. cbn. f_equal. exact IH. Qed.

Lemma rejections_elem e os : e ∈ rejections os ↔ Rejected e ∈ os.
Proof.
  unfold rejections. rewrite list_elem_of_omap. split.
  - intros ([a|e'] & Hin & [= ->]). done.
  - intros Hin. by exists (Rejected e).
Qed.

Lemma rejections_nil os : rejections os = [] → os = Resolved <$> resolutions os.
Proof.
  induction os as [|[a|e] os IH]; cbn; [done| |done].
  intros Hnil. f_equal. by apply IH.
Qed.

Lemma rejections_Exists os :
  rejections os ≠ [] ↔ Exists (λ o, rejected o = true) os.
Proof.
  induction os as [|[a|e] os IH]; cbn.
  - split; [done|]. by intros ?%Exists_nil.
  - rewrite Exists_cons. cbn. rewrite <-IH. naive_solver.
  - rewrite Exists_cons. cbn. split; [by left|done].
Qed.

Lemma settle_all_cons (p : async A) ps w :
  settle_all (p :: ps) w =
    (let '(o, w1) := p w in
     let '(os, w2) := settle_all ps w1 in
     (o :: os, w2)).
Proof. reflexivity. Qed.

Lemma settle_all_pair (p q : async A) w :
  settle_all [p; q] w = ([(p w).1; (q (p w).2).1], (q (p w).2).2).
Proof.
  cbn [settle_all]. destruct (p w) as [o1 w1]. cbn [fst snd].
  by destruct (q w1) as [o2 w2].
Qed.

Lemma promise_all_world first ps w :
  (promise_all first ps w).2 = (settle_all ps w).2.
Proof. unfold promise_all. by destruct (settle_all ps w) as [os w']. Qed.

(** [Promise.all] rejects exactly when a member does. *)
Lemma promise_all_rejected first ps w :
  rejected (promise_all first ps w).1 = true ↔
  Exists (λ o, rejected o = true) (settle_all ps w).1.
Proof.
  unfold promise_all. destruct (settle_all ps w) as [os w']. cbn.
  rewrite <-rejections_Exists. by destruct (rejections os).
Qed.

(** With the rejection of one of its members. *)
Lemma promise_all_Rejected first ps w e :
  (∀ w e es, first w e es ∈ e :: es) →
  (promise_all first ps w).1 = Rejected e → Rejected e ∈ (settle_all ps w).1.
Proof.
  intros Hfirst. unfold promise_all. destruct (settle_all ps w) as [os w']. cbn.
  destruct (rejections os) as [|e0 es] eqn:E; [done|].
  intros [= <-]. apply rejections_elem. rewrite E. apply Hfirst.
Qed.

Lemma promise_all_Resolved first ps w l :
  (promise_all first ps w).1 = Resolved l → (settle_all ps w).1 = Resolved <$> l.
Proof.
  unfold promise_all. destruct (settle_all ps w) as [os w']. cbn.
  destruct (rejections os) as [|e0 es] eqn:E; [|done].
  intros [= <-]. by apply rejections_nil.
Qed.

Lemma promise_all_all_resolved first ps w l w' :
  settle_all ps w = (Resolved <$> l, w') → promise_all first ps w = (Resolved l, w').
Proof.
  intros E. unfold promise_all. rewrite E.
  by rewrite rejections_fmap_Resolved, resolutions_fmap_Resolved.
Qed.

End promise_all.

Section unusedExports.
Import Tasks.
Context `{Collaborators}.

(** The probe of the extensions only reads the file system. *)
Lemma with_extension_run file w :
  with_extension file [lit "ts"; lit "tsx"] w =
    (Resolved
       (if Fs.exists_path w (path_resolve __dirname (file ++ lit ".ts"))
        then path_resolve __dirname (file ++ lit ".ts")
        else if Fs.exists_path w (path_resolve __dirname (file ++ lit ".tsx"))
        then path_resolve __dirname (file ++ lit ".tsx")
        else file), w).
Proof.
  unfold with_extension, try_catch, mbind, async_bind, Fs.stat.
  change (file ++ lit "." ++ lit "ts") with (file ++ lit ".ts").
  change (file ++ lit "." ++ lit "tsx") with (file ++ lit ".tsx").
  destruct (Fs.exists_path w (path_resolve __dirname (file ++ lit ".ts"))); [done|].
  by destruct (Fs.exists_path w (path_resolve __dirname (file ++ lit ".tsx"))).
Qed.

(** C10: the path reported for a file is [file.ts] resolved against the
    script directory, an absolute path, if that exists; otherwise
    [file.tsx] resolved likewise, if that exists; otherwise the file as the
    analysis named it. *)
Theorem unused_export_path_resolution file w :
  (∀ from to, Fs.is_absolute (path_resolve from to) = true) →
  ∃ path,
    with_extension file [lit "ts"; lit "tsx"] w = (Resolved path, w) ∧
    let ts := path_resolve __dirname (file ++ lit ".ts") in
    let tsx := path_resolve __dirname (file ++ lit ".tsx") in
    (Fs.exists_path w ts = true → path = ts ∧ Fs.is_absolute path = true) ∧
    (Fs.exists_path w ts = false → Fs.exists_path w tsx = true →
     path = tsx ∧ Fs.is_absolute path = true) ∧
    (Fs.exists_path w ts = false → Fs.exists_path w tsx = false → path = file).
Proof.
  intros Habs. eexists. split; [apply with_extension_run|]. simpl.
  destruct (Fs.exists_path w (path_resolve __dirname (file ++ lit ".ts")));
    destruct (Fs.exists_path w (path_resolve __dirname (file ++ lit ".tsx")));
    repeat split; intros; try done; apply Habs.
Qed.

Lemma settle_all_with_extension files_ w :
  ∃ paths,
    settle_all ((λ file, with_extension file [lit "ts"; lit "tsx"]) <$> files_) w
      = (Resolved <$> paths, w) ∧
    Forall2 (λ file path,
               with_extension file [lit "ts"; lit "tsx"] w = (Resolved path, w))
            files_ paths.
Proof.
  induction files_ as [|file files_ (paths & Hall & Hpaths)].
  - by exists [].
  - eexists (_ :: paths).
    rewrite fmap_cons, settle_all_cons, with_extension_run, Hall. split; [done|].
    constructor; [apply with_extension_run|done].
Qed.

Lemma promise_all_with_extension files_ w :
  ∃ paths,
    promise_all first_rejection
      ((λ file, with_extension file [lit "ts"; lit "tsx"]) <$> files_) w
      = (Resolved paths, w) ∧
    Forall2 (λ file path,
               with_extension file [lit "ts"; lit "tsx"] w = (Resolved path, w))
            files_ paths.
Proof.
  destruct (settle_all_with_extension files_ w) as (paths & Hall & Hpaths).
  exists paths. split; [by apply promise_all_all_resolved|done].
Qed.

(** [Array.prototype.join]: the first element, and the separator before
    each of the others. *)
Lemma join_spec sep l :
  join sep l = default [] (head l) ++ mjoin ((λ x, sep ++ x) <$> tail l).
Proof.
  destruct l as [|x l]; [done|]. cbn [head tail default]. revert x.
  induction l as [|y l IH]; intros x; [simpl; by rewrite app_nil_r|].
  change (join sep (x :: y :: l)) with (x ++ sep ++ join sep (y :: l)).
  rewrite IH. simpl. by rewrite <-(assoc_L (++)).
Qed.

(** Every index of the sorted keys finds its file and the file its names. *)
Lemma report_lines analysis keys done paths rest :
  keys = done ++ rest →
  (∀ file, file ∈ rest → is_Some (analysis !! file)) →
  length paths = length rest →
  ∃ lines,
    map_outcome (report_line analysis keys) (length done) paths = Resolved lines ∧
    Forall2 (λ fp line, ∃ names, analysis !! fp.1 = Some names ∧
               line = fp.2 ++ lit ": " ++ join (lit " ") names)
            (zip rest paths) lines.
Proof.
  revert done paths. induction rest as [|file rest IH]; intros done paths -> Hdom Hlen.
  - destruct paths; [|done]. by exists [].
  - destruct paths as [|path paths]; [done|]. simpl in Hlen.
    destruct (Hdom file) as [names Hnames]; [set_solver|].
    destruct (IH (done ++ [file]) paths) as (lines & Hlines & Hall).
    { by rewrite <-(assoc_L (++)). }
    { intros f Hf. apply Hdom. set_solver. }
    { lia. }
    exists ((path ++ lit ": " ++ join (lit " ") names) :: lines). split.
    + simpl. unfold report_line at 1.
      rewrite list_lookup_middle by done. simpl. rewrite Hnames.
      rewrite length_app in Hlines. simpl in Hlines.
      rewrite Nat.add_1_r in Hlines. by rewrite Hlines.
    + constructor; [|done]. by exists names.
Qed.

Lemma sorted_keys analysis :
  let keys := sort (object_keys analysis) in
  StronglySorted str_le keys ∧ NoDup keys ∧
  (∀ file, file ∈ keys ↔ is_Some (analysis !! file)) ∧
  length keys = size analysis.
Proof.
  intros keys.
  assert (keys ≡ₚ (map_to_list analysis).*1) as Hperm
    by apply merge_sort_Permutation.
  split; [|split; [|split]].
  - apply Sorted_StronglySorted; [apply str_le_trans|].
    apply Sorted_merge_sort, str_le_total.
  - rewrite Hperm. apply NoDup_fst_map_to_list.
  - intros file. rewrite Hperm, list_elem_of_fmap. split.
    + intros ([f names] & -> & Hin%elem_of_map_to_list). by exists names.
    + intros [names Hnames]. exists (file, names).
      split; [done|]. by apply elem_of_map_to_list.
  - by rewrite Hperm, length_fmap, length_map_to_list.
Qed.

Lemma Forall2_zip_chain {A B C} (P : A → B → Prop) (Q : A * B → C → Prop) xs ys zs :
  Forall2 P xs ys → Forall2 Q (zip xs ys) zs →
  Forall2 (λ x z, ∃ y, P x y ∧ Q (x, y) z) xs zs.
Proof.
  intros HP. revert zs. induction HP as [|x y xs ys Hxy _ IH]; intros zs; simpl.
  - inversion 1. constructor.
  - inversion 1; subst. constructor; eauto.
Qed.

(** C5: with the analysis in hand, [unusedExports] is rejected exactly when
    the analysis names a file; the message is the header followed, for each
    file in the order of the sorted file names, by a newline, a tab and the
    line of the file: the reported path, a colon and all the unused export
    names of the file, separated by blanks; the file names are sorted in the
    lexicographic order of their code units, each once; on an empty
    analysis the task resolves and leaves the console and the files alone. *)
Theorem unusedExports_report w sources analysis :
  globby (lit "src/**/*.{ts?(x),js?(x),json}") w = Resolved sources →
  tsUnusedExports (path_join __dirname (lit "tsconfig.json")) sources
    = Resolved analysis →
  let keys := sort (object_keys analysis) in
  (rejected (unusedExports w).1 = true ↔ analysis ≠ ∅) ∧
  (analysis = ∅ → unusedExports w = (Resolved (), w)) ∧
  (analysis ≠ ∅ →
   ∃ lines,
     unusedExports w =
       (Rejected (PluginError (lit "ts-unused-exports")
                    (lit "Unused exports found (must unexport or remove):" ++
                     mjoin ((λ line, [10; 9]%N ++ line) <$> lines))), w) ∧
     Forall2 (λ file line, ∃ path names,
                with_extension file [lit "ts"; lit "tsx"] w = (Resolved path, w) ∧
                analysis !! file = Some names ∧
                line = path ++ lit ": " ++ default [] (head names) ++
                       mjoin ((λ name, lit " " ++ name) <$> tail names))
             keys lines) ∧
  StronglySorted str_le keys ∧ NoDup keys ∧
  (∀ file, file ∈ keys ↔ is_Some (analysis !! file)) ∧
  (∀ x y, str_le x y ↔ x = y ∨ lexico x y).
Proof.
  intros Hglobby Hanalysis keys.
  destruct (sorted_keys analysis) as (Hsorted & Hnodup & Hdom & Hsize).
  fold keys in Hsorted, Hnodup, Hdom, Hsize.
  assert (Hempty : analysis = ∅ → unusedExports w = (Resolved (), w)).
  { intros ->. unfold unusedExports, mbind, async_bind, lift.
    rewrite Hglobby, Hanalysis. done. }
  assert (Hreport : analysis ≠ ∅ →
   ∃ lines,
     unusedExports w =
       (Rejected (PluginError (lit "ts-unused-exports")
                    (lit "Unused exports found (must unexport or remove):" ++
                     mjoin ((λ line, [10; 9]%N ++ line) <$> lines))), w) ∧
     Forall2 (λ file line, ∃ path names,
                with_extension file [lit "ts"; lit "tsx"] w = (Resolved path, w) ∧
                analysis !! file = Some names ∧
                line = path ++ lit ": " ++ default [] (head names) ++
                       mjoin ((λ name, lit " " ++ name) <$> tail names))
             keys lines).
  { intros Hne.
    assert (0 < length keys) as Hlen.
    { rewrite Hsize. apply map_size_non_empty_iff in Hne. lia. }
    destruct (promise_all_with_extension keys w) as (paths & Hall & Hpaths).
    destruct (report_lines analysis keys [] paths keys) as (lines & Hlines & Hzip).
    { done. }
    { intros file. apply Hdom. }
    { symmetry. by eapply Forall2_length. }
    exists lines. split.
    - unfold unusedExports, mbind, async_bind, lift.
      rewrite Hglobby, Hanalysis. fold keys. rewrite bool_decide_true by done.
      rewrite Hall. simpl in Hlines. rewrite Hlines. cbv beta iota.
      unfold throw. by rewrite join_spec.
    - eapply Forall2_impl; [exact (Forall2_zip_chain _ _ _ _ _ Hpaths Hzip)|].
      simpl. intros file line (path & Hpath & names & Hnames & Hline).
      rewrite join_spec in Hline. eauto. }
  repeat split; try done.
  - intros Hrej ->. by rewrite Hempty in Hrej.
  - intros Hne. destruct (Hreport Hne) as (lines & -> & _). done.
  - by apply Hdom.
  - by apply Hdom.
  - by apply str_le_lexico.
  - by apply str_le_lexico.
Qed.
End unusedExports.

(** In the sample checkout, [src/baz] is found with the second extension. *)
Lemma unused_export_path_resolution_witness :
  ∃ path,
    @Tasks.with_extension Sample.collaborators (lit "src/baz") [lit "ts"; lit "tsx"]
      Sample.checkout = (Resolved path, Sample.checkout) ∧
    path = lit "/repo/src/baz.tsx".
Proof.
  destruct (@unused_export_path_resolution Sample.collaborators (lit "src/baz")
              Sample.checkout) as (path & Hrun & _ & Htsx & _).
  - intros from to. change (@path_resolve Sample.collaborators from to) with
      (if Fs.is_absolute to then to
       else if Fs.is_absolute from then from ++ lit "/" ++ to
       else lit "/" ++ from ++ lit "/" ++ to).
    destruct (Fs.is_absolute to) eqn:Hto; [done|].
    destruct (Fs.is_absolute from) eqn:Hfrom; [|reflexivity].
    destruct from as [|c from]; [done|]. exact Hfrom.
  - exists path. split; [exact Hrun|]. apply Htsx; vm_compute; reflexivity.
Defined.

(** The mapping of the specification, [{ src/foo: [bar], src/baz: [qux, quux] }],
    on the sample checkout. *)
Example unusedExports_sample_report :
  (@Tasks.unusedExports Sample.collaborators Sample.checkout).1 =
    Rejected (PluginError (lit "ts-unused-exports")
      (lit "Unused exports found (must unexport or remove):" ++ [10; 9]%N ++
       lit "/repo/src/baz.tsx: qux quux" ++ [10; 9]%N ++
       lit "/repo/src/foo.ts: bar")).
Proof. vm_compute. reflexivity. Qed.

Lemma unusedExports_report_witness :
  rejected (@Tasks.unusedExports Sample.collaborators Sample.checkout).1 = true.
Proof.
  destruct (@unusedExports_report Sample.collaborators Sample.checkout
              [lit "src/foo.ts"; lit "src/baz.tsx"; lit "src/main.ts"]
              Sample.analysis eq_refl eq_refl) as (Hrejected & _).
  apply Hrejected. intros Hempty.
  apply (f_equal (λ m : gmap str (list str), m !! lit "src/foo")) in Hempty.
  vm_compute in Hempty. discriminate Hempty.
Defined.

(** ** The JSON-schema codegen task *)

Section schema.
Import Tasks Derived.
Context `{Collaborators}.

Local Abbreviation src_dir := (__dirname ++ lit "/src/schema").
Local Abbreviation dist_dir := (__dirname ++ lit "/dist/schema").
Local Abbreviation source_path file :=
  (__dirname ++ lit "/schema/" ++ file ++ lit ".schema.json").
Local Abbreviation types_path file :=
  (__dirname ++ lit "/src/schema/" ++ file ++ lit ".schema.d.ts").
Local Abbreviation copy_path file :=
  (__dirname ++ lit "/src/schema/" ++ file ++ lit ".schema.json").

Lemma parent_dir_slash a b :
  Fs.SLASH ∉ b → Fs.parent_dir (a ++ Fs.SLASH :: b) = a.
Proof.
  intros Hb. induction a as [|c a IH]; simpl.
  - by rewrite bool_decide_false.
  - rewrite bool_decide_true by set_solver. by rewrite IH.
Qed.

Lemma types_path_parent file :
  Fs.SLASH ∉ file → Fs.parent_dir (types_path file) = __dirname ++ lit "/src/schema".
Proof.
  intros Hfile.
  change (types_path file) with
    (__dirname ++ lit "/src/schema" ++ Fs.SLASH :: (file ++ lit ".schema.d.ts")).
  rewrite (assoc_L (++)). apply parent_dir_slash.
  rewrite not_elem_of_app. split; [done|]. by_decide.
Qed.

Lemma copy_path_parent file :
  Fs.SLASH ∉ file → Fs.parent_dir (copy_path file) = __dirname ++ lit "/src/schema".
Proof.
  intros Hfile.
  change (copy_path file) with
    (__dirname ++ lit "/src/schema" ++ Fs.SLASH :: (file ++ lit ".schema.json")).
  rewrite (assoc_L (++)). apply parent_dir_slash.
  rewrite not_elem_of_app. split; [done|]. by_decide.
Qed.

(** The sources are not among the files the task writes. *)
Lemma source_path_not_written file file' :
  source_path file ≠ types_path file' ∧ source_path file ≠ copy_path file'.
Proof. split; intros E%app_inv_head; simplify_eq/=. Qed.

Lemma types_path_not_copy_path file file' : types_path file ≠ copy_path file'.
Proof.
  intros E%app_inv_head%app_inv_head.
  change (lit ".schema.d.ts") with (lit ".schema.d.t" ++ lit "s") in E.
  change (lit ".schema.json") with (lit ".schema.jso" ++ lit "n") in E.
  rewrite !(assoc_L (++)) in E. by apply app_inj_tail in E as [_ ?].
Qed.

Lemma types_path_inj file file' : types_path file = types_path file' → file = file'.
Proof. by intros E%app_inv_head%app_inv_head%app_inv_tail. Qed.

Lemma copy_path_inj file file' : copy_path file = copy_path file' → file = file'.
Proof. by intros E%app_inv_head%app_inv_head%app_inv_tail. Qed.

(** *** The file system operations of the task *)

Lemma parent_dir_prefix p : Fs.parent_dir p `prefix_of` p.
Proof.
  induction p as [|c p IH]; simpl; [done|].
  case_bool_decide; [by apply prefix_cons|apply prefix_nil].
Qed.

(** The directories [mkdirp] makes lie on the path. *)
Lemma ancestors_prefix n d a : a ∈ Fs.ancestors n d → a `prefix_of` d.
Proof.
  revert d. induction n as [|n IH]; intros d; simpl.
  - by intros ?%elem_of_nil.
  - destruct d as [|c d]; [by intros ?%elem_of_nil|].
    intros [->|Hin]%elem_of_cons; [done|].
    etransitivity; [by apply IH|apply parent_dir_prefix].
Qed.

Lemma ancestors_self d : d ≠ [] → d ∈ Fs.ancestors (length d) d.
Proof. destruct d; [done|]. simpl. set_solver. Qed.

Lemma file_on_path_false w d :
  Fs.file_on_path w d = false ↔
  ∀ a, a ∈ Fs.ancestors (length d) d → files w !! a = None.
Proof.
  unfold Fs.file_on_path. rewrite <-not_true_iff_false, existsb_exists. split.
  - intros Hno a Hin. apply not_elem_of_dom. intros Hdom. apply Hno.
    exists a. split; [by apply list_elem_of_In|by apply bool_decide_eq_true_2].
  - intros Hnone (a & Hin%list_elem_of_In & Hdom%bool_decide_eq_true_1).
    apply elem_of_dom in Hdom as [? Hdom]. by rewrite (Hnone a Hin) in Hdom.
Qed.

(** Whether a directory can be made depends on the regular files only. *)
Lemma file_on_path_files w w' d :
  files w = files w' → Fs.file_on_path w d = Fs.file_on_path w' d.
Proof. unfold Fs.file_on_path. by intros ->. Qed.

Lemma mkdirp_rejected d w : rejected (Fs.mkdirp d w).1 = Fs.file_on_path w d.
Proof. unfold Fs.mkdirp. by destruct (Fs.file_on_path w d). Qed.

Lemma mkdirp_world d w :
  files (Fs.mkdirp d w).2 = files w ∧
  console (Fs.mkdirp d w).2 = console w ∧
  dirs (Fs.mkdirp d w).2 =
    (if Fs.file_on_path w d then ∅ else list_to_set (Fs.ancestors (length d) d))
    ∪ dirs w.
Proof.
  unfold Fs.mkdirp. destruct (Fs.file_on_path w d); simpl; [|done].
  repeat split. by rewrite (left_id_L ∅ (∪)).
Qed.

Lemma writeFile_rejected p content w :
  Fs.parent_dir p ∈ dirs w →
  (rejected (Fs.writeFile p content w).1 = true ↔ p ∈ dirs w).
Proof.
  intros Hparent. unfold Fs.writeFile. case_bool_decide; [done|].
  by rewrite bool_decide_true.
Qed.

Lemma writeFile_world p content w :
  dirs (Fs.writeFile p content w).2 = dirs w ∧
  console (Fs.writeFile p content w).2 = console w.
Proof. unfold Fs.writeFile. by repeat case_bool_decide. Qed.

Lemma writeFile_files p content w q :
  Fs.parent_dir p ∈ dirs w →
  files (Fs.writeFile p content w).2 !! q =
    if bool_decide (q = p ∧ p ∉ dirs w) then Some content else files w !! q.
Proof.
  intros Hparent. unfold Fs.writeFile. case_bool_decide as Hdir.
  - rewrite bool_decide_false; [done|]. by intros [_ ?].
  - rewrite (bool_decide_true (_ ∈ _)) by done. simpl.
    case_bool_decide as Hq.
    + destruct Hq as [-> _]. by rewrite lookup_insert_eq.
    + rewrite lookup_insert_ne; [done|]. intros ->. by apply Hq.
Qed.

Lemma SCHEMA_FILES_no_slash file : file ∈ SCHEMA_FILES → Fs.SLASH ∉ file.
Proof.
  unfold SCHEMA_FILES. rewrite !elem_of_cons, elem_of_nil.
  intros [->|[->|[->|[->|[]]]]]; by_decide.
Qed.

(** *** The directories of the task *)

Lemma src_dir_made a file :
  a ∈ Fs.ancestors (length src_dir) src_dir →
  a ≠ types_path file ∧ a ≠ copy_path file.
Proof.
  intros Hpre%ancestors_prefix.
  split; intros ->; apply prefix_app_inv in Hpre as [k E]; simplify_eq/=.
Qed.

Lemma dist_dir_made a file :
  a ∈ Fs.ancestors (length dist_dir) dist_dir →
  a ≠ types_path file ∧ a ≠ copy_path file.
Proof.
  intros Hpre%ancestors_prefix.
  split; intros ->; apply prefix_app_inv in Hpre as [k E]; simplify_eq/=.
Qed.

(** The two [mkdirp] of the task. *)
Lemma schema_dirs_made_spec w :
  files (schema_dirs_made w) = files w ∧
  console (schema_dirs_made w) = console w ∧
  dirs (schema_dirs_made w) =
    (if Fs.file_on_path w dist_dir then ∅
     else list_to_set (Fs.ancestors (length dist_dir) dist_dir)) ∪
    ((if Fs.file_on_path w src_dir then ∅
      else list_to_set (Fs.ancestors (length src_dir) src_dir)) ∪ dirs w).
Proof.
  unfold schema_dirs_made.
  destruct (mkdirp_world src_dir w) as (Hfiles1 & Hconsole1 & Hdirs1).
  destruct (mkdirp_world dist_dir (Fs.mkdirp src_dir w).2)
    as (Hfiles2 & Hconsole2 & Hdirs2).
  rewrite Hfiles2, Hconsole2, Hdirs2, Hdirs1.
  by rewrite (file_on_path_files _ w) by done.
Qed.

Lemma schema_dirs_made_keeps w : dirs w ⊆ dirs (schema_dirs_made w).
Proof. destruct (schema_dirs_made_spec w) as (_ & _ & ->). set_solver. Qed.

Lemma schema_dirs_made_src w :
  Fs.file_on_path w src_dir = false → src_dir ∈ dirs (schema_dirs_made w).
Proof.
  intros Hfree. destruct (schema_dirs_made_spec w) as (_ & _ & ->).
  rewrite Hfree. pose proof (ancestors_self src_dir) as Hself.
  assert (src_dir ≠ []) as Hne by by destruct __dirname.
  set_solver.
Qed.

Lemma schema_dirs_made_dist w :
  Fs.file_on_path w dist_dir = false → dist_dir ∈ dirs (schema_dirs_made w).
Proof.
  intros Hfree. destruct (schema_dirs_made_spec w) as (_ & _ & ->).
  rewrite Hfree. pose proof (ancestors_self dist_dir) as Hself.
  assert (dist_dir ≠ []) as Hne by by destruct __dirname.
  set_solver.
Qed.

(** No output of the task is a directory the task makes. *)
Lemma schema_dirs_made_output w file p :
  p = types_path file ∨ p = copy_path file →
  (p ∈ dirs (schema_dirs_made w) ↔ p ∈ dirs w).
Proof.
  intros Hp. destruct (schema_dirs_made_spec w) as (_ & _ & ->).
  pose proof (src_dir_made p file) as Hsrc.
  pose proof (dist_dir_made p file) as Hdist.
  destruct (Fs.file_on_path w dist_dir), (Fs.file_on_path w src_dir);
    set_unfold; naive_solver.
Qed.

(** *** The body run for one schema file *)

Lemma schema_outputs_agree w w0 file :
  files w !! source_path file = files w0 !! source_path file →
  schema_outputs w file = schema_outputs w0 file.
Proof. intros E. unfold schema_outputs. by rewrite E. Qed.

Lemma schema_outputs_Resolved w file types copy :
  schema_outputs w file = Resolved (types, copy) ↔
  ∃ content, schema_source w file content types ∧ copy = Schema.rewrite_refs content.
Proof.
  unfold schema_outputs, schema_source. split.
  - destruct (files w !! source_path file) as [content|]; [|done].
    destruct (JSON_parse _) as [parsed|e] eqn:Hparse; [|done].
    destruct (compileJSONSchema _ _ _) as [types'|e] eqn:Hcompile; [|done].
    intros [= <- <-]. exists content. eauto.
  - intros (content & (-> & parsed & -> & ->) & ->). done.
Qed.

Lemma schema_outputs_Rejected w file :
  rejected (schema_outputs w file) = true ↔
  ∀ content types, ¬ schema_source w file content types.
Proof.
  split.
  - intros Hrej content types Hsrc.
    assert (schema_outputs w file = Resolved (types, Schema.rewrite_refs content)) as E.
    { apply schema_outputs_Resolved. eauto. }
    by rewrite E in Hrej.
  - intros Hnone. destruct (schema_outputs w file) as [[types copy]|e] eqn:E; [|done].
    apply schema_outputs_Resolved in E as (content & Hsrc & _).
    by apply Hnone in Hsrc.
Qed.

(** One schema file: nothing is written unless the source is good; then
    each of the two outputs is written unless its path is a directory, and
    the body is rejected when one is. *)
Lemma schema_file_outputs file w :
  Fs.SLASH ∉ file →
  src_dir ∈ dirs w →
  match schema_outputs w file with
  | Resolved (types, copy) =>
      (schema_file file w).2 =
        (Fs.writeFile (copy_path file) copy
           (Fs.writeFile (types_path file) types w).2).2 ∧
      (rejected (schema_file file w).1 = true ↔
       types_path file ∈ dirs w ∨ copy_path file ∈ dirs w)
  | Rejected e => schema_file file w = (Rejected e, w)
  end.
Proof.
  intros Hfile Hdir.
  unfold schema_file, schema_outputs, mbind, async_bind, Fs.readFile, lift.
  destruct (files w !! source_path file) as [content|]; [|done].
  destruct (JSON_parse _) as [parsed|e]; [|done].
  destruct (compileJSONSchema _ _ _) as [types|e]; [|done].
  set (writes := [Fs.writeFile (types_path file) types;
                  Fs.writeFile (copy_path file) (Schema.rewrite_refs content)]).
  pose proof (promise_all_world first_rejection writes w) as Hworld.
  pose proof (promise_all_rejected first_rejection writes w) as Hrej.
  assert (Hsettle : settle_all writes w =
            ([(Fs.writeFile (types_path file) types w).1;
              (Fs.writeFile (copy_path file) (Schema.rewrite_refs content)
                 (Fs.writeFile (types_path file) types w).2).1],
             (Fs.writeFile (copy_path file) (Schema.rewrite_refs content)
                (Fs.writeFile (types_path file) types w).2).2)).
  { apply settle_all_pair. }
  rewrite Hsettle in Hworld, Hrej. cbn [fst snd] in Hworld, Hrej.
  rewrite !Exists_cons, Exists_nil in Hrej.
  destruct (writeFile_world (types_path file) types w) as [Hdirs1 _].
  rewrite (writeFile_rejected (types_path file)) in Hrej
    by by rewrite types_path_parent.
  rewrite (writeFile_rejected (copy_path file)) in Hrej
    by by rewrite copy_path_parent, Hdirs1.
  rewrite Hdirs1 in Hrej.
  destruct (promise_all first_rejection writes w) as [[units|e] w'];
    cbn [fst snd] in *; subst w'; (split; [done|]); cbn; tauto.
Qed.

Lemma schema_file_world file w :
  Fs.SLASH ∉ file → src_dir ∈ dirs w →
  dirs (schema_file file w).2 = dirs w ∧
  console (schema_file file w).2 = console w ∧
  ∀ p, files (schema_file file w).2 !! p =
       match schema_outputs w file with
       | Resolved (types, copy) =>
           if bool_decide (p = copy_path file ∧ copy_path file ∉ dirs w) then Some copy
           else if bool_decide (p = types_path file ∧ types_path file ∉ dirs w)
           then Some types
           else files w !! p
       | Rejected _ => files w !! p
       end.
Proof.
  intros Hfile Hdir. pose proof (schema_file_outputs file w Hfile Hdir) as Hrun.
  destruct (schema_outputs w file) as [[types copy]|e]; [|by rewrite Hrun].
  destruct Hrun as [-> _].
  destruct (writeFile_world (types_path file) types w) as [Hdirs1 Hconsole1].
  destruct (writeFile_world (copy_path file) copy
              (Fs.writeFile (types_path file) types w).2) as [Hdirs2 Hconsole2].
  split; [by rewrite Hdirs2|]. split; [by rewrite Hconsole2|]. intros p.
  rewrite writeFile_files by by rewrite copy_path_parent, Hdirs1.
  rewrite Hdirs1.
  by rewrite writeFile_files by by rewrite types_path_parent.
Qed.

(** *** The bodies of all the schema files *)

(** Run against sources as they are in [w0]: each output of a file with a
    good source is written unless its path is a directory, whether or not
    another body is rejected, and nothing else changes. *)
Lemma schema_files_outputs w0 fs w :
  (∀ f, f ∈ fs → Fs.SLASH ∉ f) →
  (∀ f, files w !! source_path f = files w0 !! source_path f) →
  src_dir ∈ dirs w →
  ∃ os w',
    settle_all (schema_file <$> fs) w = (os, w') ∧
    dirs w' = dirs w ∧ console w' = console w ∧
    (Exists (λ o, rejected o = true) os ↔
     ∃ f, f ∈ fs ∧ (rejected (schema_outputs w0 f) = true ∨
                    types_path f ∈ dirs w ∨ copy_path f ∈ dirs w)) ∧
    (∀ f t c, f ∈ fs → schema_outputs w0 f = Resolved (t, c) →
       (types_path f ∉ dirs w → files w' !! types_path f = Some t) ∧
       (copy_path f ∉ dirs w → files w' !! copy_path f = Some c)) ∧
    (∀ p, p ∈ dirs w ∨
          (∀ f t c, f ∈ fs → schema_outputs w0 f = Resolved (t, c) →
             p ≠ types_path f ∧ p ≠ copy_path f) →
          files w' !! p = files w !! p).
Proof.
  revert w. induction fs as [|file fs IH]; intros w Hslash Hagree Hdir.
  { exists [], w. do 3 (split; [done|]). split; [|split].
    - rewrite Exists_nil. split; [done|]. intros (f & Hf & _). by apply elem_of_nil in Hf.
    - intros f t c Hf. by apply elem_of_nil in Hf.
    - done. }
  assert (Fs.SLASH ∉ file) as Hfile by (apply Hslash; set_solver).
  pose proof (schema_file_outputs file w Hfile Hdir) as Hrun.
  destruct (schema_file_world file w Hfile Hdir) as (Hdirs1 & Hconsole1 & Hfiles1).
  rewrite (schema_outputs_agree w w0) in Hrun, Hfiles1 by done.
  destruct (schema_file file w) as [o w1] eqn:Hbody. cbn [fst snd] in *.
  destruct (IH w1) as (os & w' & Hall & Hdirs & Hconsole & Hrej & Hwritten & Hframe).
  { intros f Hf. apply Hslash. set_solver. }
  { intros f. rewrite Hfiles1, <-Hagree.
    destruct (source_path_not_written f file) as [Ht Hc].
    destruct (schema_outputs w0 file) as [[types copy]|e]; [|done].
    rewrite !bool_decide_false; [done|by intros [? _]|by intros [? _]]. }
  { by rewrite Hdirs1. }
  rewrite Hdirs1 in Hdirs, Hrej, Hwritten, Hframe.
  exists (o :: os), w'. split; [|split; [done|split; [congruence|split; [|split]]]].
  - by rewrite fmap_cons, settle_all_cons, Hbody, Hall.
  - rewrite Exists_cons, Hrej. split.
    + intros [Ho|(f & Hf & Hbad)]; [|exists f; split; [set_solver|done]].
      exists file. split; [set_solver|].
      destruct (schema_outputs w0 file) as [[types copy]|e]; [|by left].
      right. by apply Hrun.
    + intros (f & [->|Hf]%elem_of_cons & Hbad); [|right; by exists f].
      left. destruct (schema_outputs w0 file) as [[types copy]|e].
      * apply Hrun. by destruct Hbad.
      * by injection Hrun as ->.
  - intros f t c Hf Hout.
    destruct (decide (f ∈ fs)) as [Hin|Hnotin]; [by apply Hwritten|].
    apply elem_of_cons in Hf as [->|?]; [|done].
    assert (∀ p, p = types_path file ∨ p = copy_path file →
                 files w' !! p = files w1 !! p) as Hkept.
    { intros p Hp. apply Hframe. right. intros f t' c' Hf _. split.
      - intros E. destruct Hp as [-> | ->].
        + by apply types_path_inj in E as ->.
        + symmetry in E. by apply types_path_not_copy_path in E.
      - intros E. destruct Hp as [-> | ->].
        + by apply types_path_not_copy_path in E.
        + by apply copy_path_inj in E as ->. }
    rewrite !Hkept, !Hfiles1, Hout by auto. split; intros Hfree.
    + rewrite bool_decide_false, bool_decide_true; [done|done|].
      intros [E _]. by apply types_path_not_copy_path in E.
    + by rewrite bool_decide_true.
  - intros p Hp. rewrite Hframe, Hfiles1.
    + destruct (schema_outputs w0 file) as [[types copy]|e] eqn:Hout; [|done].
      rewrite !bool_decide_false; [done|intros [-> Hfree]..].
      * destruct Hp as [?|Hp]; [done|]. destruct (Hp file types copy); [set_solver|done..].
      * destruct Hp as [?|Hp]; [done|]. destruct (Hp file types copy); [set_solver|done..].
    + destruct Hp as [?|Hp]; [by left|right].
      intros f t c Hf. apply Hp. set_solver.
Qed.

(** *** The task *)

(** When a directory cannot be made the task is rejected before it reads
    a source; otherwise it runs the bodies. *)
Lemma schema_run w :
  (Fs.file_on_path w src_dir || Fs.file_on_path w dist_dir = true →
   (schema w).2 = schema_dirs_made w ∧ rejected (schema w).1 = true) ∧
  (Fs.file_on_path w src_dir || Fs.file_on_path w dist_dir = false →
   (schema w).2 = (settle_all (schema_file <$> SCHEMA_FILES) (schema_dirs_made w)).2 ∧
   (rejected (schema w).1 = true ↔
    Exists (λ o, rejected o = true)
           (settle_all (schema_file <$> SCHEMA_FILES) (schema_dirs_made w)).1)).
Proof.
  set (makes := [Fs.mkdirp src_dir; Fs.mkdirp dist_dir]).
  set (bodies := schema_file <$> SCHEMA_FILES).
  assert (Hsettle : settle_all makes w =
            ([(Fs.mkdirp src_dir w).1; (Fs.mkdirp dist_dir (Fs.mkdirp src_dir w).2).1],
             schema_dirs_made w)).
  { apply settle_all_pair. }
  pose proof (promise_all_world first_rejection makes w) as Hworld.
  pose proof (promise_all_rejected first_rejection makes w) as Hrej.
  rewrite Hsettle in Hworld, Hrej. cbn [fst snd] in Hworld, Hrej.
  rewrite !Exists_cons, Exists_nil, !mkdirp_rejected in Hrej.
  rewrite (file_on_path_files (Fs.mkdirp src_dir w).2 w) in Hrej
    by apply mkdirp_world.
  pose proof (promise_all_world first_rejection bodies (schema_dirs_made w)) as Hworld'.
  pose proof (promise_all_rejected first_rejection bodies (schema_dirs_made w)) as Hrej'.
  unfold schema, mbind, async_bind. fold makes bodies.
  destruct (promise_all first_rejection makes w) as [[units|e] w1];
    cbn [fst snd] in *; subst w1.
  - split.
    + intros Hblocked%orb_true_iff. exfalso.
      assert (false = true) by (apply Hrej; tauto). done.
    + intros _.
      destruct (promise_all first_rejection bodies (schema_dirs_made w))
        as [[units'|e] w2]; cbn [fst snd] in *; subst w2; (split; [done|]);
        rewrite <-Hrej'; done.
  - split; [done|]. intros [Hsrc Hdist]%orb_false_iff. exfalso.
    assert (Fs.file_on_path w src_dir = true ∨
            Fs.file_on_path w dist_dir = true ∨ False) as Hb by by apply Hrej.
    rewrite Hsrc, Hdist in Hb. naive_solver.
Qed.

(** A run of [schema] on any world. *)
Lemma schema_total w :
  console (schema w).2 = console w ∧
  dirs (schema w).2 = dirs (schema_dirs_made w) ∧
  (rejected (schema w).1 = true ↔
   Fs.file_on_path w src_dir || Fs.file_on_path w dist_dir = true ∨
   ∃ f, f ∈ SCHEMA_FILES ∧ (rejected (schema_outputs w f) = true ∨
                            types_path f ∈ dirs w ∨ copy_path f ∈ dirs w)) ∧
  (Fs.file_on_path w src_dir || Fs.file_on_path w dist_dir = true →
   files (schema w).2 = files w) ∧
  (Fs.file_on_path w src_dir || Fs.file_on_path w dist_dir = false →
   ∀ f t c, f ∈ SCHEMA_FILES → schema_outputs w f = Resolved (t, c) →
     (types_path f ∉ dirs w → files (schema w).2 !! types_path f = Some t) ∧
     (copy_path f ∉ dirs w → files (schema w).2 !! copy_path f = Some c)) ∧
  (∀ p, p ∈ dirs w ∨
        (∀ f t c, f ∈ SCHEMA_FILES → schema_outputs w f = Resolved (t, c) →
           p ≠ types_path f ∧ p ≠ copy_path f) →
        files (schema w).2 !! p = files w !! p).
Proof.
  destruct (schema_dirs_made_spec w) as (Hfiles & Hconsole & _).
  destruct (schema_run w) as [Hblocked Hmade].
  destruct (Fs.file_on_path w src_dir || Fs.file_on_path w dist_dir) eqn:Hb.
  - destruct (Hblocked eq_refl) as [-> Hrej].
    rewrite Hrej, Hfiles. repeat split; auto; done.
  - destruct (Hmade eq_refl) as [Hworld Hrej]. clear Hblocked Hmade.
    apply orb_false_iff in Hb as [Hsrc Hdist].
    destruct (schema_files_outputs w SCHEMA_FILES (schema_dirs_made w))
      as (os & w' & Hall & Hdirs & Hcon & Hrej' & Hwritten & Hframe).
    { apply SCHEMA_FILES_no_slash. }
    { intros f. by rewrite Hfiles. }
    { by apply schema_dirs_made_src. }
    rewrite Hall in Hworld, Hrej. cbn [fst snd] in Hworld, Hrej.
    rewrite Hworld, Hrej, Hrej'. clear Hworld Hrej Hrej'.
    split; [congruence|]. split; [done|]. split; [|split; [done|split]].
    + split.
      * intros (f & Hf & Hbad). right. exists f. split; [done|].
        rewrite <-(schema_dirs_made_output w f (types_path f)) by auto.
        by rewrite <-(schema_dirs_made_output w f (copy_path f)) by auto.
      * intros [?|(f & Hf & Hbad)]; [done|]. exists f. split; [done|].
        rewrite (schema_dirs_made_output w f (types_path f)) by auto.
        by rewrite (schema_dirs_made_output w f (copy_path f)) by auto.
    + intros _ f t c Hf Hout. destruct (Hwritten f t c Hf Hout) as [Ht Hc].
      split; intros Hfree; [apply Ht|apply Hc];
        by rewrite (schema_dirs_made_output w f) by auto.
    + intros p Hp. rewrite Hframe, Hfiles; [done|].
      destruct Hp as [Hp|Hp]; [left|by right]. by apply schema_dirs_made_keeps.
Qed.

(** C4, as amended: when both directories can be made, every schema source
    of the list can be read, parsed and compiled, and no output path is a
    directory, [schema] resolves, and for every file of the list the type
    declarations and the rewritten schema are then in [src/schema];
    [dist/schema] exists as well, but no other file has changed, so nothing
    is written into it. *)
Theorem schema_writes_source_tree w :
  Fs.file_on_path w src_dir = false →
  Fs.file_on_path w dist_dir = false →
  (∀ file, file ∈ SCHEMA_FILES →
           (types_path file ∉ dirs w) ∧ (copy_path file ∉ dirs w)) →
  (∀ file, file ∈ SCHEMA_FILES → ∃ content types, schema_source w file content types) →
  ∃ w',
    schema w = (Resolved (), w') ∧
    (∀ file content types,
       file ∈ SCHEMA_FILES → schema_source w file content types →
       files w' !! types_path file = Some types ∧
       files w' !! copy_path file = Some (Schema.rewrite_refs content)) ∧
    src_dir ∈ dirs w' ∧
    dist_dir ∈ dirs w' ∧
    (∀ p, (∀ file, file ∈ SCHEMA_FILES → p ≠ types_path file ∧ p ≠ copy_path file) →
          files w' !! p = files w !! p).
Proof.
  intros Hsrc Hdist Hfree Hsources.
  destruct (schema_total w) as (_ & Hdirs & Hrej & _ & Hwritten & Hframe).
  rewrite Hsrc, Hdist in Hrej, Hwritten. specialize (Hwritten eq_refl).
  destruct (schema w) as [o w'] eqn:Hrun. cbn [fst snd] in *.
  exists w'. split; [|split; [|split; [|split]]].
  - destruct o as [[]|e]; [done|]. exfalso.
    destruct Hrej as [[?|(f & Hf & Hbad)] _]; [done..|].
    destruct (Hfree f Hf) as [? ?]. destruct (Hsources f Hf) as (content & types & Hs).
    destruct Hbad as [Hbad|[?|?]]; [|done..].
    rewrite schema_outputs_Rejected in Hbad. by apply Hbad in Hs.
  - intros file content types Hfile Hs. destruct (Hfree file Hfile) as [? ?].
    destruct (Hwritten file types (Schema.rewrite_refs content) Hfile) as [Ht Hc].
    { apply schema_outputs_Resolved. eauto. }
    auto.
  - rewrite Hdirs. by apply schema_dirs_made_src.
  - rewrite Hdirs. by apply schema_dirs_made_dist.
  - intros p Hp. apply Hframe. right. intros f t c Hf _. by apply Hp.
Qed.

(** X9: whether or not it is rejected, [schema] logs nothing, removes no
    directory and leaves every file other than the eight outputs in
    [src/schema] as it was; a directory it can make is there afterwards;
    and when one of the two cannot be made, no file is written at all. *)
Theorem schema_touches_only_its_outputs w :
  console (schema w).2 = console w ∧
  dirs w ⊆ dirs (schema w).2 ∧
  (Fs.file_on_path w src_dir = false → src_dir ∈ dirs (schema w).2) ∧
  (Fs.file_on_path w dist_dir = false → dist_dir ∈ dirs (schema w).2) ∧
  (Fs.file_on_path w src_dir = true ∨ Fs.file_on_path w dist_dir = true →
   files (schema w).2 = files w) ∧
  ∀ p, (∀ file, file ∈ SCHEMA_FILES → p ≠ types_path file ∧ p ≠ copy_path file) →
       files (schema w).2 !! p = files w !! p.
Proof.
  destruct (schema_total w) as (Hcon & Hdirs & _ & Hblocked & _ & Hframe).
  rewrite Hdirs. split; [done|]. split; [apply schema_dirs_made_keeps|].
  split; [apply schema_dirs_made_src|]. split; [apply schema_dirs_made_dist|]. split.
  - intros Hb. apply Hblocked, orb_true_iff. done.
  - intros p Hp. apply Hframe. right. intros f t c Hf _. by apply Hp.
Qed.

(** X10: [schema] is rejected exactly when one of the two directories
    cannot be made, the source of one of the four schema files cannot be
    read, parsed after the rewrite or compiled, or the path of an output is
    a directory. *)
Theorem schema_rejected_iff w :
  rejected (schema w).1 = true ↔
  Fs.file_on_path w src_dir = true ∨ Fs.file_on_path w dist_dir = true ∨
  ∃ file, file ∈ SCHEMA_FILES ∧
          ((∀ content types, ¬ schema_source w file content types) ∨
           types_path file ∈ dirs w ∨ copy_path file ∈ dirs w).
Proof.
  destruct (schema_total w) as (_ & _ & -> & _).
  rewrite orb_true_iff. setoid_rewrite schema_outputs_Rejected. tauto.
Qed.

(** X11: once both directories are made, the bodies of the schema files do
    not wait for each other: a file whose source is good gets each of its
    two outputs, unless the path of that output is a directory, even when
    another body is rejected; and a file whose source is bad gets none. *)
Theorem schema_writes_good_files_despite_failure w file :
  Fs.file_on_path w src_dir = false →
  Fs.file_on_path w dist_dir = false →
  file ∈ SCHEMA_FILES →
  (∀ content types, schema_source w file content types →
     (types_path file ∉ dirs w →
      files (schema w).2 !! types_path file = Some types) ∧
     (copy_path file ∉ dirs w →
      files (schema w).2 !! copy_path file = Some (Schema.rewrite_refs content))) ∧
  ((∀ content types, ¬ schema_source w file content types) →
     files (schema w).2 !! types_path file = files w !! types_path file ∧
     files (schema w).2 !! copy_path file = files w !! copy_path file).
Proof.
  intros Hsrc Hdist Hfile.
  destruct (schema_total w) as (_ & _ & _ & _ & Hwritten & Hframe).
  rewrite Hsrc, Hdist in Hwritten. specialize (Hwritten eq_refl). split.
  - intros content types Hs. apply Hwritten; [done|].
    apply schema_outputs_Resolved. eauto.
  - intros Hbad%schema_outputs_Rejected.
    split; apply Hframe; right; intros f t c Hf Hout.
    + split; [|apply types_path_not_copy_path].
      intros ->%types_path_inj. by rewrite Hout in Hbad.
    + split; [|intros ->%copy_path_inj; by rewrite Hout in Hbad].
      intros E. symmetry in E. by apply types_path_not_copy_path in E.
Qed.

(** X12: running [schema] again on the tree it has left changes nothing,
    and the second run is rejected exactly if the first was. *)
Theorem schema_twice w :
  (schema (schema w).2).2 = (schema w).2 ∧
  rejected (schema (schema w).2).1 = rejected (schema w).1.
Proof.
  destruct (schema_dirs_made_spec w) as (Hmfiles & Hmconsole & _).
  destruct (schema_total w) as (Hcon & Hdirs & Hrej & Hblocked & Hwritten & Hframe).
  set (w1 := (schema w).2) in *.
  destruct (schema_total w1) as (Hcon1 & Hdirs1 & Hrej1 & Hblocked1 & Hwritten1 & Hframe1).
  assert (∀ f, schema_outputs w1 f = schema_outputs w f) as Hsame.
  { intros f. apply schema_outputs_agree, Hframe. right. intros f' _ _ _ _.
    apply source_path_not_written. }
  assert (∀ f p, p = types_path f ∨ p = copy_path f → p ∈ dirs w1 ↔ p ∈ dirs w)
    as Hout.
  { intros f p Hp. rewrite Hdirs. by apply (schema_dirs_made_output w f). }
  assert (∀ d, d = src_dir ∨ d = dist_dir →
               Fs.file_on_path w d = false → Fs.file_on_path w1 d = false) as Hfree.
  { intros d Hd. rewrite !file_on_path_false. intros Hnone a Ha.
    rewrite Hframe; [by apply Hnone|]. right. intros f _ _ _ _.
    destruct Hd as [-> | ->]; [by apply src_dir_made|by apply dist_dir_made]. }
  assert (∀ d, d = src_dir ∨ d = dist_dir →
               Fs.file_on_path w1 d = Fs.file_on_path w d) as Hfop.
  { intros d Hd.
    destruct (Fs.file_on_path w src_dir || Fs.file_on_path w dist_dir) eqn:Hb.
    - by apply file_on_path_files, Hblocked.
    - apply orb_false_iff in Hb as [? ?].
      destruct Hd as [-> | ->]; rewrite Hfree by auto; done. }
  assert (Fs.file_on_path w1 src_dir || Fs.file_on_path w1 dist_dir
          = Fs.file_on_path w src_dir || Fs.file_on_path w dist_dir) as Hb
    by by rewrite !Hfop by auto.
  rewrite Hb in Hrej1, Hblocked1, Hwritten1. split.
  - assert (files (schema w1).2 = files w1) as Hfiles.
    { destruct (Fs.file_on_path w src_dir || Fs.file_on_path w dist_dir) eqn:Hblock;
        [by apply Hblocked1|].
      specialize (Hwritten eq_refl). specialize (Hwritten1 eq_refl).
      apply map_eq. intros p.
      destruct (decide (p ∈ dirs w1)) as [Hdir|Hnodir]; [apply Hframe1; by left|].
      destruct (decide (Exists (λ f, rejected (schema_outputs w f) = false ∧
                                     (p = types_path f ∨ p = copy_path f))
                               SCHEMA_FILES)) as [Hex|Hno].
      - apply Exists_exists in Hex as (f & Hf & Hgood & Hp).
        destruct (schema_outputs w f) as [[t c]|e] eqn:E; [clear Hgood|done].
        destruct (Hwritten f t c Hf E) as [Ht Hc].
        destruct (Hwritten1 f t c Hf) as [Ht1 Hc1]; [by rewrite Hsame|].
        destruct Hp as [-> | ->].
        + rewrite Ht1, Ht; [done|by rewrite <-(Hout f) by auto|done].
        + rewrite Hc1, Hc; [done|by rewrite <-(Hout f) by auto|done].
      - apply Hframe1. right. intros f t c Hf E. rewrite Hsame in E.
        split; intros ->; apply Hno, Exists_exists; exists f; rewrite E; auto. }
    assert (dirs (schema w1).2 = dirs w1) as Hdirs'.
    { rewrite Hdirs1. destruct (schema_dirs_made_spec w1) as (_ & _ & ->).
      rewrite !Hfop, Hdirs by auto.
      destruct (schema_dirs_made_spec w) as (_ & _ & ->). set_solver. }
    destruct (schema w1).2 as [f2 d2 c2], w1 as [f1 d1 c1]. simpl in *. congruence.
  - assert (rejected (schema w1).1 = true ↔ rejected (schema w).1 = true) as Hiff.
    { rewrite Hrej1, Hrej. setoid_rewrite Hsame.
      split; intros [?|(f & Hf & Hbad)]; auto; right; exists f; (split; [done|]).
      - rewrite <-(Hout f (types_path f)), <-(Hout f (copy_path f)) by auto. done.
      - rewrite (Hout f (types_path f)), (Hout f (copy_path f)) by auto. done. }
    destruct (rejected (schema w1).1), (rejected (schema w).1); naive_solver.
Qed.

(** X13: what the rewrite is for: when [schema] can write the copy of a
    schema into [src/schema], that copy holds no absolute reference to the
    settings schema, provided the source does not hold the absolute prefix
    right after the URL of the settings schema. *)
Theorem schema_copy_has_relative_refs w file content types :
  Fs.file_on_path w src_dir = false →
  Fs.file_on_path w dist_dir = false →
  file ∈ SCHEMA_FILES →
  copy_path file ∉ dirs w →
  schema_source w file content types →
  ¬ occurs (Schema.SETTINGS_SCHEMA_URL ++ Schema.ABSOLUTE_REF) content →
  ∃ copy, files (schema w).2 !! copy_path file = Some copy ∧
          ¬ occurs Schema.ABSOLUTE_REF copy.
Proof.
  intros Hsrc Hdist Hfile Hfree Hs Hclean.
  destruct (schema_total w) as (_ & _ & _ & _ & Hwritten & _).
  rewrite Hsrc, Hdist in Hwritten. specialize (Hwritten eq_refl).
  exists (Schema.rewrite_refs content). split.
  - apply (Hwritten file types); [done| |done]. apply schema_outputs_Resolved. eauto.
  - intros Hocc. apply Hclean. revert Hocc.
    apply (replace_all_fresh_occurrence 104 35
             (lit "ttps://sourcegraph.com/v1/settings.schema.json")
             (lit "/definitions/")); by_decide.
Qed.

(** X19: the bodies of the schema files can be run in any order: the tree
    they leave is the same, and so is whether one of them is rejected. *)
Theorem schema_bodies_commute w fs :
  fs ≡ₚ SCHEMA_FILES →
  src_dir ∈ dirs w →
  (promise_all first_rejection (schema_file <$> fs) w).2 =
  (promise_all first_rejection (schema_file <$> SCHEMA_FILES) w).2 ∧
  rejected (promise_all first_rejection (schema_file <$> fs) w).1 =
  rejected (promise_all first_rejection (schema_file <$> SCHEMA_FILES) w).1.
Proof.
  intros Hperm Hdir.
  assert (∀ f, f ∈ fs ↔ f ∈ SCHEMA_FILES) as Hsame by (intros f; by rewrite Hperm).
  destruct (schema_files_outputs w fs w)
    as (os1 & w1 & Hall1 & Hdirs1 & Hcon1 & Hrej1 & Hwritten1 & Hframe1);
    [intros f Hf; by apply SCHEMA_FILES_no_slash, Hsame|done|done|].
  destruct (schema_files_outputs w SCHEMA_FILES w)
    as (os2 & w2 & Hall2 & Hdirs2 & Hcon2 & Hrej2 & Hwritten2 & Hframe2);
    [apply SCHEMA_FILES_no_slash|done|done|].
  split.
  - rewrite !promise_all_world, Hall1, Hall2. cbn [snd].
    destruct w1 as [f1 d1 c1], w2 as [f2 d2 c2]. cbn [files dirs console] in *.
    f_equal; [|congruence..]. apply map_eq. intros p.
    destruct (decide (p ∈ dirs w)) as [Hp|Hp];
      [by rewrite Hframe1, Hframe2 by by left|].
    destruct (decide (Exists (λ f, rejected (schema_outputs w f) = false ∧
                                   (p = types_path f ∨ p = copy_path f))
                             SCHEMA_FILES)) as [Hex|Hno].
    + apply Exists_exists in Hex as (f & Hf & Hgood & Hout).
      destruct (schema_outputs w f) as [[t c]|e] eqn:E; [clear Hgood|done].
      destruct (Hwritten1 f t c) as [Ht1 Hc1]; [by apply Hsame|done|].
      destruct (Hwritten2 f t c Hf E) as [Ht2 Hc2].
      destruct Hout as [-> | ->]; [by rewrite Ht1, Ht2|by rewrite Hc1, Hc2].
    + assert (∀ f t c, f ∈ SCHEMA_FILES → schema_outputs w f = Resolved (t, c) →
                       p ≠ types_path f ∧ p ≠ copy_path f) as Hother.
      { intros f t c Hf E.
        split; intros ->; apply Hno, Exists_exists; exists f; rewrite E; auto. }
      rewrite Hframe1, Hframe2; [done|by right|right].
      intros f t c Hf. apply Hother. by apply Hsame.
  - assert (rejected (promise_all first_rejection (schema_file <$> fs) w).1 = true ↔
            rejected (promise_all first_rejection (schema_file <$> SCHEMA_FILES) w).1
              = true) as Hiff.
    { rewrite !promise_all_rejected, Hall1, Hall2. cbn [fst]. rewrite Hrej1, Hrej2.
      by setoid_rewrite Hsame. }
    destruct (rejected (promise_all first_rejection (schema_file <$> fs) w).1),
             (rejected (promise_all first_rejection (schema_file <$> SCHEMA_FILES) w).1);
      naive_solver.
Qed.
End schema.

(** The texts of the sample checkout are JSON; with single quotes they
    would not be. *)
Example sample_texts_are_json :
  Sample.is_json Sample.settings_schema = true ∧
  Sample.is_json Sample.settings_schema_rewritten = true ∧
  Sample.is_json (lit "{}") = true ∧
  Sample.is_json (lit "{ '$ref': '#/definitions/Ext' }") = false ∧
  Schema.rewrite_refs Sample.settings_schema = Sample.settings_schema_rewritten.
Proof. repeat split; vm_compute; reflexivity. Qed.

(** C4, as stated, fails on the sample checkout: [schema] resolves and has
    written the outputs of [settings] to [src/schema], while [dist/schema]
    has been created and holds neither of them. *)
Lemma schema_writes_nothing_to_dist :
  let run := @Tasks.schema Sample.collaborators Sample.checkout in
  run.1 = Resolved () ∧
  is_Some (files run.2 !! lit "/repo/src/schema/settings.schema.d.ts") ∧
  files run.2 !! lit "/repo/src/schema/settings.schema.json"
    = Some Sample.settings_schema_rewritten ∧
  lit "/repo/dist/schema" ∈ dirs run.2 ∧
  files run.2 !! lit "/repo/dist/schema/settings.schema.d.ts" = None ∧
  files run.2 !! lit "/repo/dist/schema/settings.schema.json" = None.
Proof.
  repeat split; try (vm_compute; reflexivity).
  eexists. vm_compute. reflexivity.
Qed.

(** The sample checkout: both directories can be made, no output path is a
    directory and every schema source is good. *)
Lemma schema_writes_source_tree_witness :
  ∃ w', @Tasks.schema Sample.collaborators Sample.checkout = (Resolved (), w') ∧
        lit "/repo/src/schema" ∈ dirs w'.
Proof.
  destruct (@schema_writes_source_tree Sample.collaborators Sample.checkout)
    as (w' & Hrun & _ & Hsrc & _).
  - vm_compute. reflexivity.
  - vm_compute. reflexivity.
  - unfold Tasks.SCHEMA_FILES. intros file. rewrite !elem_of_cons, elem_of_nil.
    intros [->|[->|[->|[->|[]]]]]; split; by_decide.
  - unfold Tasks.SCHEMA_FILES. intros file. rewrite !elem_of_cons, elem_of_nil.
    intros [->|[->|[->|[->|[]]]]]; eexists _, _;
      (split; [vm_compute; reflexivity|]);
      eexists; split; vm_compute; reflexivity.
  - exists w'. split; [exact Hrun|exact Hsrc].
Defined.

(** * Further properties *)

(** ** Runs of the composites *)

Section more_runs.
Import Gulp GulpInv Derived.

(** X1: in every run of [watch], a watch function, the development server
    and the asset copy are started only after both codegen tasks have
    completed. *)
Theorem watch_codegen_before_watchers tr r pre n post :
  exec (start_run watch) tr = Some r →
  tr = pre ++ Start n :: post →
  n ≠ schema → n ≠ graphQLTypes →
  Finish schema ∈ pre ∧ Finish graphQLTypes ∈ pre.
Proof.
  intros Hex -> Hs Hg.
  apply exec_through in Hex as (r1 & r2 & _ & Hstep & Hpre & _).
  apply run_step_Start in Hstep as [b Hrun].
  destruct (watch_run_open _ _ Hpre)
    as (s & g & ws & wg & serve & p & wp & Hr2 & Hgate & _).
  pose proof (work_Succeeded_history schema _ _ _ Hpre) as Hschema.
  pose proof (work_Succeeded_history graphQLTypes _ _ _ Hpre) as Hgraphql.
  rewrite Hr2 in Hrun, Hschema, Hgraphql. simpl in Hrun, Hschema, Hgraphql.
  destruct Hgate as [[-> ->]|(-> & -> & -> & -> & ->)].
  - destruct Hschema as [H|H]; [set_solver|set_solver|].
    destruct Hgraphql as [H'|H']; [set_solver|set_solver|].
    set_solver.
  - exfalso. rewrite !elem_of_cons, elem_of_nil in Hrun. naive_solver.
Qed.

(** X2: when a codegen task is rejected in a run of [build] or [watch], the
    composite has failed and no function other than the two codegen tasks
    is ever started. *)
Theorem codegen_failure_stops_composite t tr r c :
  t = build ∨ t = watch →
  exec (start_run t) tr = Some r →
  c = schema ∨ c = graphQLTypes →
  Fail c ∈ tr →
  outcome (tree r) = Failed ∧
  ∀ n, Start n ∈ tr → n = schema ∨ n = graphQLTypes.
Proof.
  intros Ht Hex Hc Hfail.
  pose proof (exec_failed _ _ _ _ Hex Hfail) as Hfailed. split.
  - eapply ordered_Failed; [by eapply exec_ordered|done].
  - intros n Hstart.
    destruct (exec_started _ _ _ _ Hex Hstart) as (b & st & Hin & Hst).
    destruct Ht as [-> | ->].
    + destruct (build_run_open _ _ Hex) as (s & g & w & p & Hr & Hgate).
      rewrite Hr in Hin, Hfailed. simpl in Hin, Hfailed.
      rewrite !elem_of_cons, elem_of_nil in Hin, Hfailed.
      destruct Hc as [-> | ->]; naive_solver.
    + destruct (watch_run_open _ _ Hex)
        as (s & g & ws & wg & serve & p & wp & Hr & Hgate & _).
      rewrite Hr in Hin, Hfailed. simpl in Hin, Hfailed.
      rewrite !elem_of_cons, elem_of_nil in Hin, Hfailed.
      destruct Hc as [-> | ->]; naive_solver.
Qed.

(** X3: a run of [build] has completed exactly when all four of its tasks
    have. *)
Theorem build_completes_when_all_finish tr r :
  exec (start_run build) tr = Some r →
  (outcome (tree r) = Succeeded ↔
   ∀ n, n ∈ [schema; graphQLTypes; webpack; phabricator] → Finish n ∈ tr).
Proof.
  intros Hex. rewrite outcome_Succeeded. split.
  - intros Hall n Hn.
    assert ((n, Work, Succeeded) ∈ leaves (tree r)) as Hleaf.
    { destruct (build_run_open _ _ Hex) as (s & g & w & p & Hr & _).
      rewrite Hr in Hall |- *. simpl in *.
      rewrite !Forall_cons in Hall. destruct Hall as (? & ? & ? & ? & _).
      simpl in *. subst. rewrite !elem_of_cons, elem_of_nil in Hn.
      destruct Hn as [->|[->|[->|[->|[]]]]]; set_solver. }
    destruct (work_Succeeded_history n _ _ _ Hex Hleaf) as [Hin|?]; [|done].
    exfalso. cbn in Hin. rewrite !elem_of_cons, elem_of_nil in Hin. naive_solver.
  - intros Hall. apply Forall_forall. intros [[n b] st] Hin. simpl.
    assert (n ∈ [schema; graphQLTypes; webpack; phabricator] ∧ b = Work) as [Hn ->].
    { destruct (build_run_open _ _ Hex) as (s & g & w & p & Hr & _).
      rewrite Hr in Hin. simpl in Hin.
      rewrite !elem_of_cons, elem_of_nil in Hin.
      rewrite !elem_of_cons, elem_of_nil. naive_solver. }
    pose proof (exec_finished _ _ _ _ Hex (Hall n Hn)) as Hdone.
    eapply names_unique; [|exact Hin|exact Hdone].
    eapply composite_names; [|exact Hex]. auto.
Qed.

(** X5: a run of [watch] or [watchPhabricator] never completes: the
    composite ends only by failing. *)
Theorem watch_never_completes t tr r :
  t = watch ∨ t = watchPhabricator →
  exec (start_run t) tr = Some r →
  outcome (tree r) ≠ Succeeded.
Proof.
  intros Ht Hex Hdone%outcome_Succeeded.
  assert ((watchPhabricator_fn, watching phabricator, Succeeded) ∈ leaves (tree r))
    as Hin.
  { destruct Ht as [-> | ->].
    - destruct (watch_run_open _ _ Hex)
        as (s & g & ws & wg & serve & p & wp & Hr & _).
      rewrite Hr in Hdone |- *. simpl in *.
      rewrite !Forall_cons in Hdone. destruct Hdone as (_&_&_&_&_&_& Hwp &_).
      simpl in Hwp. subst wp. set_solver.
    - destruct (watchPhabricator_run_open _ _ Hex) as (p & wp & Hr & _).
      rewrite Hr in Hdone |- *. simpl in *.
      rewrite !Forall_cons in Hdone. destruct Hdone as (_& Hwp &_).
      simpl in Hwp. subst wp. set_solver. }
  apply (watching_Succeeded_history _ _ _ _ _ Hex) in Hin.
  by apply init_leaves_Idle in Hin.
Qed.

(** X6: a run of [build], [watch] or [watchPhabricator] has failed exactly
    when one of its functions was rejected or one of its watchers reported
    an error. *)
Theorem composite_fails_iff t tr r :
  t = build ∨ t = watch ∨ t = watchPhabricator →
  exec (start_run t) tr = Some r →
  (outcome (tree r) = Failed ↔ ∃ n, Fail n ∈ tr ∨ Emit n WatchError ∈ tr).
Proof.
  intros Ht Hex. split.
  - intros (n & b & Hin)%outcome_Failed_leaf. exists n.
    destruct (composite_bodies _ _ _ _ _ _ Ht Hex Hin) as [-> | [target ->]].
    + left. destruct (work_Failed_history _ _ _ _ Hex Hin) as [Hinit|?]; [|done].
      by apply init_leaves_Idle in Hinit.
    + right. destruct (watching_Failed_history _ _ _ _ _ Hex Hin) as [Hinit|?]; [|done].
      by apply init_leaves_Idle in Hinit.
  - intros [n [Hfail|Herror]].
    + eapply ordered_Failed; [by eapply exec_ordered|by eapply exec_failed].
    + apply list_elem_of_split in Herror as (pre & post & ->).
      pose proof (exec_ordered _ _ _ Hex) as Hord.
      apply exec_through in Hex as (r1 & r2 & Hpre & Hstep & _ & Hpost).
      destruct (run_step_leaf _ _ _ Hstep) as (b & st & st' & Hin1 & Hin2 & Hs).
      simpl in Hin1, Hin2.
      destruct (composite_bodies _ _ _ _ _ _ Ht Hpre Hin1) as [-> | [target ->]];
        [by destruct st|].
      assert (st' = Failed) as ->.
      { destruct st; simplify_eq/=; try done.
        apply (watching_Succeeded_history _ _ _ _ _ Hpre) in Hin1.
        by apply init_leaves_Idle in Hin1. }
      apply (Failed_kept _ _ _ _ _ Hpost) in Hin2.
      by eapply ordered_Failed.
Qed.

(** X8: when the initial asset copy of [watchPhabricator] is rejected, on
    its own or inside [watch], the composite has failed and the watcher of
    the extension files is never created. *)
Theorem copy_failure_stops_watcher t tr r :
  t = watchPhabricator ∨ t = watch →
  exec (start_run t) tr = Some r →
  Fail phabricator ∈ tr →
  outcome (tree r) = Failed ∧
  (Start watchPhabricator_fn ∉ tr) ∧
  ∀ ev, Emit watchPhabricator_fn ev ∉ tr.
Proof.
  intros Ht Hex Hfail.
  pose proof (exec_failed _ _ _ _ Hex Hfail) as Hfailed.
  assert (∀ b st, (watchPhabricator_fn, b, st) ∈ leaves (tree r) → st = Idle) as Hidle.
  { destruct (copy_gates_watcher _ _ _ Ht Hex) as (p & wp & Hp & Hwp & _ & Hgate).
    assert (status_of phabricator (tree r) = Some Failed) as Hp'.
    { destruct Ht as [-> | ->].
      - destruct (watchPhabricator_run_open _ _ Hex) as (p' & wp' & Hr & _).
        rewrite Hr in Hfailed |- *. simpl in Hfailed.
        rewrite !elem_of_cons, elem_of_nil in Hfailed.
        by destruct Hfailed as [[= ->]|[[=]|[]]].
      - by apply (watch_status_of _ _ _ _ _ Hex Hfailed). }
    rewrite Hp in Hp'. injection Hp' as ->.
    destruct Hgate as [?| ->]; [done|]. exact Hwp. }
  split; [|split].
  - eapply ordered_Failed; [by eapply exec_ordered|done].
  - intros Hstart.
    destruct (exec_started _ _ _ _ Hex Hstart) as (b & st & Hin & Hst).
    by apply Hidle in Hin.
  - intros ev (pre & post & ->)%list_elem_of_split.
    apply exec_through in Hex as (r1 & r2 & _ & Hstep & _ & Hpost).
    destruct (run_step_leaf _ _ _ Hstep) as (b & st & st' & _ & Hin & Hs).
    apply leaf_step_not_Idle in Hs.
    destruct (exec_started_kept _ _ _ _ _ _ Hpost Hin Hs) as (st1 & Hin1 & Hst1).
    by apply Hidle in Hin1.
Qed.

End more_runs.


(** ** The GraphQL codegen task, whatever its input *)

Section more_graphQLTypes.
Import Tasks Derived.
Context `{Collaborators}.

Local Abbreviation typings_path := (__dirname ++ lit "/src/backend/graphqlschema.ts").





End more_graphQLTypes.

(** ** The reference rewrite, once more *)

Section more_rewrite_refs.
Import Schema.

(** X15: the rewrite leaves a text as it is exactly when the text does not
    hold the absolute prefix; a text that holds it gets shorter by at least
    the 47 characters one replacement saves; and the result still holds the
    prefix exactly when the input holds the prefix right after the URL of
    the settings schema. *)
Theorem rewrite_refs_effect s :
  (rewrite_refs s = s ↔ ¬ occurs ABSOLUTE_REF s) ∧
  (occurs ABSOLUTE_REF s → length (rewrite_refs s) + 47 ≤ length s) ∧
  (occurs ABSOLUTE_REF (rewrite_refs s) ↔
   occurs (SETTINGS_SCHEMA_URL ++ ABSOLUTE_REF) s).
Proof.
  assert (Hshorter : occurs ABSOLUTE_REF s → length (rewrite_refs s) + 47 ≤ length s).
  { intros (u & v & ->). rewrite rewrite_refs_occurrence, !length_app.
    pose proof (replace_all_length ABSOLUTE_REF RELATIVE_REF u) as Hu.
    pose proof (replace_all_length ABSOLUTE_REF RELATIVE_REF v) as Hv.
    unfold rewrite_refs.
    change (length ABSOLUTE_REF) with 61 in *.
    change (length RELATIVE_REF) with 14 in *.
    specialize (Hu ltac:(done) ltac:(lia)). specialize (Hv ltac:(done) ltac:(lia)).
    lia. }
  split; [|split; [done|]].
  - split; [|apply rewrite_refs_no_occurrence].
    intros Hsame Hocc%Hshorter. rewrite Hsame in Hocc. lia.
  - split.
    + apply (replace_all_fresh_occurrence 104 35
               (lit "ttps://sourcegraph.com/v1/settings.schema.json")
               (lit "/definitions/")); by_decide.
    + apply (replace_all_leaves_occurrence 104 35
               (lit "ttps://sourcegraph.com/v1/settings.schema.json")
               (lit "/definitions/")); by_decide.
Qed.

End more_rewrite_refs.

(** ** The bundle task, whatever the bundler does *)

Section more_webpack.
Import Tasks Webpack.
Context `{Collaborators}.

(** X16: [webpack] is rejected exactly when the bundler run fails as a
    whole, with the error of the run and nothing logged, or completes with
    diagnostics that hold an error, the diagnostics then being logged
    first; the task itself touches no file and no directory, and logs one
    line exactly when the bundler run has completed. *)
Theorem webpack_outcomes w :
  (rejected (webpack w).1 = true ↔
   rejected (compiler_run w).1 = true ∨
   ∃ stats, (compiler_run w).1 = Resolved stats ∧ compilation_errors stats ≠ []) ∧
  (∀ e, (compiler_run w).1 = Rejected e → webpack w = (Rejected e, (compiler_run w).2)) ∧
  files (webpack w).2 = files (compiler_run w).2 ∧
  dirs (webpack w).2 = dirs (compiler_run w).2 ∧
  console (webpack w).2 =
    console (compiler_run w).2 ++
    match (compiler_run w).1 with
    | Resolved stats => [stats_toString WEBPACK_STATS_OPTIONS stats]
    | Rejected _ => []
    end.
Proof.
  destruct (compiler_run w) as [[stats|e] w1] eqn:Hrun.
  - rewrite (webpack_run _ _ _ Hrun). simpl. repeat split; try done.
    + intros Hrej. right. exists stats. split; [done|].
      apply hasErrors_spec. by destruct (hasErrors stats).
    + intros [?|(stats' & [= <-] & Herr%hasErrors_spec)]; [done|]. by rewrite Herr.
  - rewrite (webpack_run_rejected _ _ _ Hrun). simpl.
    repeat split; try done; [by left|by intros e' [= <-]|by rewrite app_nil_r].
Qed.

(** X17: the filter of the logged diagnostics hides a warning exactly when
    its text holds, on one line, [node_modules/monaco-editor/], later
    [/editorSimpleWorker], any one character and [js], and on the next line
    [dependency is an expression]. *)
Theorem warnings_filter_shape warning :
  warningsFilter WEBPACK_STATS_OPTIONS warning = true ↔
  ∃ u dir c rest before_ v,
    warning = u ++ lit "node_modules/monaco-editor/" ++ dir ++
              lit "/editorSimpleWorker" ++ [c] ++ lit "js" ++ rest ++ [10%N] ++
              before_ ++ lit "dependency is an expression" ++ v ∧
    Forall (λ c, Regex.line_terminator c = false) dir ∧
    Regex.line_terminator c = false ∧
    Forall (λ c, Regex.line_terminator c = false) rest ∧
    Forall (λ c, Regex.line_terminator c = false) before_.
Proof.
  change (warningsFilter WEBPACK_STATS_OPTIONS warning)
    with (Regex.test WORKER_WARNING warning).
  rewrite Regex_test_spec. split.
  - intros (u & m & v & -> & (dir & c & rest & before_ & -> & ?)%WORKER_WARNING_matches).
    exists u, dir, c, rest, before_, v. split; [|done].
    by rewrite <-!(assoc_L (++)).
  - intros (u & dir & c & rest & before_ & v & -> & Hlines).
    exists u, (lit "node_modules/monaco-editor/" ++ dir ++ lit "/editorSimpleWorker" ++
               [c] ++ lit "js" ++ rest ++ [10%N] ++ before_ ++
               lit "dependency is an expression"), v.
    split; [by rewrite <-!(assoc_L (++))|].
    apply WORKER_WARNING_matches. by exists dir, c, rest, before_.
Qed.

End more_webpack.

(** ** The unused-exports check, whatever its collaborators do *)

Section more_unusedExports.
Import Tasks.
Context `{Collaborators}.

(** X18: [unusedExports] never changes the files, the directories or the
    console, and when it is rejected, the error is that of [globby], that
    of the analysis, or the report of unused exports; the lookup of the
    unused names in the report never fails. *)
Theorem unusedExports_outcomes w :
  (unusedExports w).2 = w ∧
  ∀ e, (unusedExports w).1 = Rejected e →
    globby (lit "src/**/*.{ts?(x),js?(x),json}") w = Rejected e ∨
    (∃ sources, globby (lit "src/**/*.{ts?(x),js?(x),json}") w = Resolved sources ∧
                tsUnusedExports (path_join __dirname (lit "tsconfig.json")) sources
                  = Rejected e) ∨
    ∃ lines, e = PluginError (lit "ts-unused-exports")
                   (join REPORT_SEPARATOR (REPORT_HEADER :: lines)).
Proof.
  unfold unusedExports, mbind, async_bind, lift.
  destruct (globby _ w) as [sources|e0] eqn:Hglobby; [|split; [done|]; intros e [= <-]; auto].
  destruct (tsUnusedExports _ sources) as [analysis|e0] eqn:Hanalysis;
    [|split; [done|]; intros e [= <-]; eauto].
  destruct (sorted_keys analysis) as (_ & _ & Hdom & _).
  set (keys := sort (object_keys analysis)) in *.
  case_bool_decide as Hlen; [|by split].
  destruct (promise_all_with_extension keys w) as (paths & Hall & Hpaths).
  destruct (report_lines analysis keys [] paths keys) as (lines & Hlines & _).
  { done. }
  { intros file. apply Hdom. }
  { symmetry. by eapply Forall2_length. }
  rewrite Hall. simpl in Hlines. rewrite Hlines. split; [done|].
  intros e [= <-]. right. right. by exists lines.
Qed.

End more_unusedExports.

(** ** The further properties on the sample repository *)

Section more_samples.
Import Gulp GulpInv Derived.

(** A run of [watch] up to the start of the development server. *)
Lemma watch_codegen_before_watchers_witness :
  Finish schema
    ∈ [Start schema; Start graphQLTypes; Finish graphQLTypes; Finish schema] ∧
  Finish graphQLTypes
    ∈ [Start schema; Start graphQLTypes; Finish graphQLTypes; Finish schema].
Proof.
  eapply (watch_codegen_before_watchers
            [Start schema; Start graphQLTypes; Finish graphQLTypes; Finish schema;
             Start webpackServe]
            _ _ webpackServe []).
  - vm_compute. reflexivity.
  - reflexivity.
  - discriminate.
  - discriminate.
Defined.

(** A run of [build] in which the schema codegen is rejected. *)
Lemma codegen_failure_stops_composite_witness :
  ∃ r, exec (start_run build)
         [Start schema; Start graphQLTypes; Fail schema; Finish graphQLTypes] = Some r ∧
       outcome (tree r) = Failed.
Proof.
  eexists. split; [vm_compute; reflexivity|].
  eapply (codegen_failure_stops_composite build
            [Start schema; Start graphQLTypes; Fail schema; Finish graphQLTypes]
            _ schema).
  - left. reflexivity.
  - vm_compute. reflexivity.
  - left. reflexivity.
  - set_solver.
Defined.

(** A complete run of [build]. *)
Lemma build_completes_when_all_finish_witness :
  ∃ r, exec (start_run build)
         [Start schema; Start graphQLTypes; Finish schema; Finish graphQLTypes;
          Start webpack; Start phabricator; Finish phabricator; Finish webpack]
       = Some r ∧
       outcome (tree r) = Succeeded.
Proof.
  eexists. split; [vm_compute; reflexivity|].
  eapply (build_completes_when_all_finish
            [Start schema; Start graphQLTypes; Finish schema; Finish graphQLTypes;
             Start webpack; Start phabricator; Finish phabricator; Finish webpack]).
  - vm_compute. reflexivity.
  - intros n Hn. rewrite !elem_of_cons, elem_of_nil in Hn.
    destruct Hn as [->|[->|[->|[->|[]]]]]; set_solver.
Defined.

(** A run of [watchPhabricator] with two changes of the extension files. *)
Lemma watch_never_completes_witness :
  ∃ r, exec (start_run watchPhabricator)
         [Start phabricator; Finish phabricator; Start watchPhabricator_fn;
          Emit watchPhabricator_fn Change; Emit watchPhabricator_fn Change] = Some r ∧
       outcome (tree r) ≠ Succeeded.
Proof.
  eexists. split; [vm_compute; reflexivity|].
  eapply (watch_never_completes watchPhabricator
            [Start phabricator; Finish phabricator; Start watchPhabricator_fn;
             Emit watchPhabricator_fn Change; Emit watchPhabricator_fn Change]).
  - right. reflexivity.
  - vm_compute. reflexivity.
Defined.

(** A run of [watch] in which the watcher of the GraphQL schema reports an
    error. *)
Lemma composite_fails_iff_witness :
  ∃ r, exec (start_run watch)
         [Start schema; Start graphQLTypes; Finish graphQLTypes; Finish schema;
          Start watchGraphQLTypes; Emit watchGraphQLTypes WatchError] = Some r ∧
       outcome (tree r) = Failed.
Proof.
  eexists. split; [vm_compute; reflexivity|].
  eapply (composite_fails_iff watch
            [Start schema; Start graphQLTypes; Finish graphQLTypes; Finish schema;
             Start watchGraphQLTypes; Emit watchGraphQLTypes WatchError]).
  - right. left. reflexivity.
  - vm_compute. reflexivity.
  - exists watchGraphQLTypes. right. set_solver.
Defined.

(** A run of [watchPhabricator] in which the copy is rejected. *)
Lemma copy_failure_stops_watcher_witness :
  ∃ r, exec (start_run watchPhabricator) [Start phabricator; Fail phabricator] = Some r ∧
       outcome (tree r) = Failed.
Proof.
  eexists. split; [vm_compute; reflexivity|].
  eapply (copy_failure_stops_watcher watchPhabricator
            [Start phabricator; Fail phabricator]).
  - left. reflexivity.
  - vm_compute. reflexivity.
  - set_solver.
Defined.

(** The sample checkout without the source of [site]: [schema] is rejected
    and has still written the copy of [settings]. *)
Lemma schema_writes_good_files_despite_failure_witness :
  rejected (@Tasks.schema Sample.collaborators checkout_without_site).1 = true ∧
  files (@Tasks.schema Sample.collaborators checkout_without_site).2
    !! lit "/repo/src/schema/settings.schema.json"
  = Some (Schema.rewrite_refs Sample.settings_schema).
Proof.
  split; [vm_compute; reflexivity|].
  destruct (@schema_writes_good_files_despite_failure Sample.collaborators
              checkout_without_site (lit "settings")) as [Hgood _].
  - vm_compute. reflexivity.
  - vm_compute. reflexivity.
  - unfold Tasks.SCHEMA_FILES. set_solver.
  - destruct (Hgood Sample.settings_schema (lit "export interface Settings {}"))
      as [_ Hcopy].
    + split; [vm_compute; reflexivity|]. eexists. split; vm_compute; reflexivity.
    + apply Hcopy. by_decide.
Defined.

(** The bodies in reverse order, on the sample checkout with its
    directories made. *)
Lemma schema_bodies_commute_witness :
  (promise_all (@first_rejection Sample.collaborators)
     (@Tasks.schema_file Sample.collaborators <$> reverse Tasks.SCHEMA_FILES)
     (@schema_dirs_made Sample.collaborators Sample.checkout)).2 =
  (promise_all (@first_rejection Sample.collaborators)
     (@Tasks.schema_file Sample.collaborators <$> Tasks.SCHEMA_FILES)
     (@schema_dirs_made Sample.collaborators Sample.checkout)).2.
Proof.
  apply (@schema_bodies_commute Sample.collaborators).
  - apply reverse_Permutation.
  - by_decide.
Defined.

(** The copy of the settings schema of the sample checkout. *)
Lemma schema_copy_has_relative_refs_witness :
  ∃ copy, files (@Tasks.schema Sample.collaborators Sample.checkout).2
            !! lit "/repo/src/schema/settings.schema.json" = Some copy ∧
          ¬ occurs Schema.ABSOLUTE_REF copy.
Proof.
  apply (@schema_copy_has_relative_refs Sample.collaborators Sample.checkout
           (lit "settings") Sample.settings_schema (lit "export interface Settings {}")).
  - vm_compute. reflexivity.
  - vm_compute. reflexivity.
  - unfold Tasks.SCHEMA_FILES. set_solver.
  - by_decide.
  - split; [vm_compute; reflexivity|]. eexists. split; vm_compute; reflexivity.
  - intros Hocc%includes_spec. vm_compute in Hocc. discriminate Hocc.
Defined.

End more_samples.
